(** * releasebot: ranking, ordering and cherry-picking of CLs

    A shallow embedding of [cmd/releasebot/git.go] (package main of
    golang.org/x/build) and the properties of its three phases:

    - [gitFetchCLs]   ranks every CL by scanning the fetched histories,
    - [orderCLs]      turns ranks and prerequisites into an application order,
    - [cherryPickCLs] applies the CLs one by one and reconciles with Gerrit,

    together with [treeAndParentOfCommit] and [topGerritCL]; the remaining
    methods of the file, [topChangeID], [gitCheckout] and [gitTagVersion],
    follow after the demo repository.

    Go [int] is modelled as [Z] with the 64-bit wrap-around written out,
    Go [string] as [string] (a sequence of bytes), slices as lists, Go maps
    as [gmap] with the zero value made explicit, and [*CL] pointers as
    positions in [w.CLs]. *)

From Stdlib Require Import ZArith Ascii String List Permutation Sorted Lia.
From stdpp Require Import base tactics option list gmap strings sorting.

#[global] Set Warnings "-clear-no-such-hyp".

Local Open Scope Z_scope.

(** ** Go's [strings] package, as far as git.go uses it *)

Module GoStrings.

Definition newline : ascii := "010"%char.

(** [strings.Split(s, "\n")]: never returns the empty slice. *)
Fixpoint Split (s : string) : list string :=
  match s with
  | EmptyString => [EmptyString]
  | String c s' =>
      if Ascii.eqb c newline then EmptyString :: Split s'
      else match Split s' with
           | [] => [String c EmptyString]
           | l :: ls => String c l :: ls
           end
  end.

(** [GoStrings.HasPrefix(s, prefix)] *)
Fixpoint HasPrefix (s prefix : string) : bool :=
  match prefix, s with
  | EmptyString, _ => true
  | String p prefix', String c s' => Ascii.eqb p c && HasPrefix s' prefix'
  | String _ _, EmptyString => false
  end.

(** [s[n:]] for [n <= len(s)] *)
Fixpoint sliceFrom (n : nat) (s : string) : string :=
  match n, s with
  | O, _ => s
  | S n', String _ s' => sliceFrom n' s'
  | S _, EmptyString => EmptyString
  end.

(** [GoStrings.TrimPrefix(s, prefix)] *)
Definition TrimPrefix (s prefix : string) : string :=
  if HasPrefix s prefix then sliceFrom (String.length prefix) s else s.

(** [strings.Index(s, ":")]: byte index of the first colon, or -1. *)
Fixpoint IndexColon (s : string) : Z :=
  match s with
  | EmptyString => -1
  | String c s' =>
      if Ascii.eqb c ":"%char then 0
      else let i := IndexColon s' in if i <? 0 then -1 else i + 1
  end.

Definition isSpace (c : ascii) : bool :=
  match nat_of_ascii c with
  | 9%nat | 10%nat | 11%nat | 12%nat | 13%nat | 32%nat => true
  | _ => false
  end.

Fixpoint trimLeft (s : string) : string :=
  match s with
  | EmptyString => EmptyString
  | String c s' => if isSpace c then trimLeft s' else s
  end.

(** [strings.TrimSpace] on ASCII white space. *)
Definition TrimSpace (s : string) : string :=
  String.rev (trimLeft (String.rev (trimLeft s))).

End GoStrings.

(** ** Results of fallible code

    [w.log.Panic] and [panic] abort the whole run; [Diverge] is the
    out-of-fuel answer of the recursive [walk] and is shown unreachable. *)

Inductive Arg := AInt (z : Z) | AStr (s : string).

Inductive Result (A : Type) :=
| Ok (a : A)
| Panic (format : string) (args : list Arg)
| Diverge.
Arguments Ok {A} a.
Arguments Panic {A} format args.
Arguments Diverge {A}.

(** ** [treeAndParentOfCommit]: the loop over the lines of the commit object *)

Fixpoint scanHeaders (lines : list string) (tree parent : string) : string * string :=
  match lines with
  | [] => (tree, parent)
  | line :: rest =>
      let tree := if GoStrings.HasPrefix line "tree " then GoStrings.TrimPrefix line "tree " else tree in
      let parent := if GoStrings.HasPrefix line "parent " then GoStrings.TrimPrefix line "parent " else parent in
      if String.eqb line "" then (tree, parent) else scanHeaders rest tree parent
  end.

(** The part of [treeAndParentOfCommit] after [w.runOut]: [None] is the
    [w.log.Panicf("getCommitInfo ...")]. *)
Definition parseTreeAndParent (out : string) : option (string * string) :=
  let '(tree, parent) := scanHeaders (GoStrings.Split out) "" "" in
  if String.eqb tree "" || String.eqb parent "" then None else Some (tree, parent).


(** ** Data model *)

(** [gerrit.ChangeInfo], restricted to the fields git.go reads.
    [Revisions] maps a revision (commit id) to its [RevisionInfo.Ref];
    a missing key reads as the zero value, the empty ref. *)
Record ChangeInfo := mkChangeInfo {
  ChangeNumber : Z;
  CurrentRevision : string;
  Revisions : gmap string string;
  Labels : gmap string Z
}.

(** [change.Revisions[change.CurrentRevision].Ref] *)
Definition currentRef (change : ChangeInfo) : string :=
  default "" (Revisions change !! CurrentRevision change).

(** The [CL] struct (declared in main.go), restricted to the fields git.go
    reads or writes. *)
Record CL := mkCL {
  Num : Z;
  Ref : string;
  Commit : string;
  Order : Z;
  Prereq : list Z;
  ReleaseBranchCL : Z;
  ReleaseBranchGerrit : option ChangeInfo
}.

Definition setOrder (o : Z) (cl : CL) : CL :=
  mkCL (Num cl) (Ref cl) (Commit cl) o (Prereq cl) (ReleaseBranchCL cl) (ReleaseBranchGerrit cl).
Definition setReleaseBranchCL (n : Z) (cl : CL) : CL :=
  mkCL (Num cl) (Ref cl) (Commit cl) (Order cl) (Prereq cl) n (ReleaseBranchGerrit cl).
Definition setReleaseBranchGerrit (g : option ChangeInfo) (cl : CL) : CL :=
  mkCL (Num cl) (Ref cl) (Commit cl) (Order cl) (Prereq cl) (ReleaseBranchCL cl) g.

(** What a run leaves behind, in program order: lines written to [w.log]
    and to the standard logger, errors recorded with [w.logError], and the
    command lines handed to [w.run], [w.runErr], [w.runOut] and
    [exec.Command], and the queries sent to Gerrit. *)
Inductive Event :=
| WLog (format : string) (args : list Arg)
| StdLog (format : string) (args : list Arg)
| LogError (cl : option Z) (msg : string)
| Exec (args : list string)
| Query (q : string).

(** The functions and services git.go calls but does not define: the command
    runners of [Work], the Gerrit client, [labelValue], [updateSummary] and
    [sort.Slice].  [World] is the state of everything outside the process
    (the git checkout, the Gerrit server, the file system).

    - [run] is [w.run]: [None] when it gives up with a panic;
    - [runErr] is [w.runErr]: output and error ([None] for [nil]);
    - [runOut] is [w.runOut]: the output, [None] when it gives up;
    - [CombinedOutput] is [exec.Command(args...).CombinedOutput()] in [w.runDir];
    - [QueryChanges] is [gerritClient.QueryChanges], [None] for an error. *)
Class Externals (World : Type) := {
  run : list string -> World -> option World;
  runErr : list string -> World -> World * (string * option string);
  runOut : list string -> World -> option (World * string);
  CombinedOutput : list string -> World -> World * (string * option string);
  QueryChanges : string -> World -> option (list ChangeInfo);
  labelValue : ChangeInfo -> string -> Z;
  updateSummary : list CL -> World -> World;
  sortSlice : (CL -> CL -> bool) -> list CL -> list CL
}.

(** The [Work] struct: the fields git.go uses, the outside world, and the
    record of what happened. *)
Record Work (World : Type) := mkWork {
  CLs : list CL;
  ReleaseBranch : string;
  world : World;
  log : list Event
}.
Arguments mkWork {World}.
Arguments CLs {World}.
Arguments ReleaseBranch {World}.
Arguments world {World}.
Arguments log {World}.

(** ** The monad of methods on [*Work]: state and panics *)

Definition M (World : Type) (A : Type) : Type := Work World -> Result (A * Work World).

Definition ret {World A} (a : A) : M World A := fun w => Ok (a, w).

Definition bind {World A B} (m : M World A) (k : A -> M World B) : M World B :=
  fun w => match m w with
           | Ok (a, w') => k a w'
           | Panic f args => Panic f args
           | Diverge => Diverge
           end.

#[global] Instance M_ret {World} : MRet (M World) := fun A a => ret a.
#[global] Instance M_bind {World} : MBind (M World) := fun A B k m => bind m k.

Definition panic {World A} (format : string) (args : list Arg) : M World A :=
  fun _ => Panic format args.

Definition emit {World} (e : Event) : M World unit :=
  fun w => Ok (tt, mkWork (CLs w) (ReleaseBranch w) (world w) (log w ++ [e])).

Definition getCLs {World} : M World (list CL) := fun w => Ok (CLs w, w).
Definition setCLs {World} (cls : list CL) : M World unit :=
  fun w => Ok (tt, mkWork cls (ReleaseBranch w) (world w) (log w)).
Definition getReleaseBranch {World} : M World string := fun w => Ok (ReleaseBranch w, w).
Definition setWorld {World} (x : World) : M World unit :=
  fun w => Ok (tt, mkWork (CLs w) (ReleaseBranch w) x (log w)).
Definition getWorld {World} : M World World := fun w => Ok (world w, w).


(** ** 64-bit [int] arithmetic *)

Definition wrap (z : Z) : Z := (z + 2 ^ 63) mod 2 ^ 64 - 2 ^ 63.

(** ** The ranking loops of [gitFetchCLs] *)

(** [order[line]]: a key that is not in the map reads as 0. *)
Definition lookupOrder (order : gmap string Z) (line : string) : Z :=
  default 0 (order !! line).

(** [for _, cl := range w.CLs { order[cl.Commit] = -1 }] *)
Definition initOrder (cls : list CL) : gmap string Z :=
  foldl (fun order cl => <[Commit cl := -1]> order) ∅ cls.

(** The first inner loop: count the unranked targets up to the first
    ranked line. *)
Fixpoint countLoop (order : gmap string Z) (lines : list string) (n : Z) : Z :=
  match lines with
  | [] => n
  | line :: rest =>
      if 0 <? lookupOrder order line then n
      else countLoop order rest
             (if lookupOrder order line =? -1 then wrap (n + 1) else n)
  end.

(** The second inner loop: hand out [n], [n-1], ... in the same walk. *)
Fixpoint assignLoop (order : gmap string Z) (lines : list string) (n : Z) : gmap string Z :=
  match lines with
  | [] => order
  | line :: rest =>
      if 0 <? lookupOrder order line then order
      else if lookupOrder order line =? -1
           then assignLoop (<[line := n]> order) rest (wrap (n - 1))
           else assignLoop order rest n
  end.

(** One iteration of [for _, ref := range args[3:]], after [git log]. *)
Definition rankRef (order : gmap string Z) (next : Z) (lines : list string) : gmap string Z * Z :=
  let n := countLoop order lines 0 in
  let n := wrap (n + next) in
  (assignLoop order lines n, n).

(** [ref[strings.Index(ref, ":")+1:]] *)
Definition localRef (ref : string) : string :=
  GoStrings.sliceFrom (Z.to_nat (GoStrings.IndexColon ref + 1)) ref.

(** The refspecs appended to [git fetch origin]. *)
Definition fetchRefspecs (releaseBranch : string) (cls : list CL) : list string :=
  ["master:gerrit/master"; releaseBranch +:+ ":gerrit/" +:+ releaseBranch]
  ++ flat_map (fun cl => if String.eqb (Ref cl) "" then []
                         else [Ref cl +:+ ":gerrit/" +:+ Ref cl]) cls.

(** ** The depth-first walk of [orderCLs]

    A [*CL] is its position in the sorted slice; [walking] and [walked]
    are the key sets of the two [map[*CL]bool]. *)

Record walkState := mkWalk {
  order : list nat;
  walking : gset nat;
  walked : gset nat
}.

(** [for _, cl := range cls { clByNum[cl.Num] = cl }] *)
Definition mkClByNum (cls : list CL) : gmap Z nat :=
  foldl (fun m ic => <[Num ic.2 := ic.1]> m) ∅ (imap (fun i cl => (i, cl)) cls).

(** [for _, prereq := range cl.Prereq { ... walk(clByNum[prereq]) }] *)
Fixpoint walkPrereqs (walk : nat -> walkState -> Result walkState)
    (clByNum : gmap Z nat) (cl : CL) (prereqs : list Z) (st : walkState) : Result walkState :=
  match prereqs with
  | [] => Ok st
  | prereq :: rest =>
      match clByNum !! prereq with
      | None => Panic "CL %d has prereq non-approved CL %d" [AInt (Num cl); AInt prereq]
      | Some j =>
          match walk j st with
          | Ok st' => walkPrereqs walk clByNum cl rest st'
          | r => r
          end
      end
  end.

(** The closure [walk]; [fuel] bounds the recursion depth. *)
Fixpoint walk (fuel : nat) (cls : list CL) (clByNum : gmap Z nat)
    (i : nat) (st : walkState) : Result walkState :=
  match fuel with
  | O => Diverge
  | S fuel' =>
      if decide (i ∈ walked st) then Ok st
      else if decide (i ∈ walking st) then Panic "CL cycle" []
      else match cls !! i with
           | None => Panic "invalid memory address or nil pointer dereference" []
           | Some cl =>
               let st1 := mkWalk (order st) ({[i]} ∪ walking st) (walked st) in
               match walkPrereqs (walk fuel' cls clByNum) clByNum cl (Prereq cl) st1 with
               | Ok st2 => Ok (mkWalk (order st2 ++ [i]) (walking st2) ({[i]} ∪ walked st2))
               | r => r
               end
           end
  end.

(** [for _, cl := range cls { walk(cl) }] *)
Fixpoint walkAll (fuel : nat) (cls : list CL) (clByNum : gmap Z nat)
    (todo : list nat) (st : walkState) : Result walkState :=
  match todo with
  | [] => Ok st
  | i :: rest =>
      match walk fuel cls clByNum i st with
      | Ok st' => walkAll fuel cls clByNum rest st'
      | r => r
      end
  end.

(** [copy(dst, src)] *)
Definition copy {A} (dst src : list A) : list A :=
  take (length dst) src ++ drop (length src) dst.

(** [func(i, j int) bool { return cls[i].Order < cls[j].Order }] *)
Definition lessOrder (a b : CL) : bool := Order a <? Order b.

(** The pure core of [orderCLs], after [sort.Slice]: the new [w.CLs]. *)
Definition resolveOrder (cls : list CL) : Result (list CL) :=
  match walkAll (S (length cls)) cls (mkClByNum cls) (seq 0 (length cls))
                (mkWalk [] ∅ ∅) with
  | Ok st =>
      if decide (length (order st) = length cls)
      then Ok (copy cls (omap (fun i => cls !! i) (order st)))
      else Panic "dropped CLs during ordering" []
  | Panic f a => Panic f a
  | Diverge => Diverge
  end.

(** ** The methods of [*Work] in git.go *)

Section Methods.
Context {World : Type} `{!Externals World}.

Definition w_run (args : list string) : M World unit :=
  fun w => match run args (world w) with
           | Some x => Ok (tt, mkWork (CLs w) (ReleaseBranch w) x (log w ++ [Exec args]))
           | None => Panic "command failed: %s" (AStr <$> args)
           end.

Definition w_runErr (args : list string) : M World (string * option string) :=
  fun w => let '(x, r) := runErr args (world w) in
           Ok (r, mkWork (CLs w) (ReleaseBranch w) x (log w ++ [Exec args])).

Definition w_runOut (args : list string) : M World string :=
  fun w => match runOut args (world w) with
           | Some (x, out) => Ok (out, mkWork (CLs w) (ReleaseBranch w) x (log w ++ [Exec args]))
           | None => Panic "command failed: %s" (AStr <$> args)
           end.

Definition execCommand (args : list string) : M World (string * option string) :=
  fun w => let '(x, r) := CombinedOutput args (world w) in
           Ok (r, mkWork (CLs w) (ReleaseBranch w) x (log w ++ [Exec args])).

Definition gerritQueryChanges (q : string) : M World (option (list ChangeInfo)) :=
  fun w => Ok (QueryChanges q (world w),
               mkWork (CLs w) (ReleaseBranch w) (world w) (log w ++ [Query q])).

(** Modelled from the spec: [logError] is defined outside git.go; section 7
    has each failure "recorded" for the batch report against the one unit
    it concerns, and nothing else changed. *)
Definition logError (cl : option CL) (msg : string) : M World unit :=
  emit (LogError (Num <$> cl) msg).

Definition w_updateSummary : M World unit :=
  fun w => Ok (tt, mkWork (CLs w) (ReleaseBranch w) (updateSummary (CLs w) (world w)) (log w)).

(** [cl.field = v] through the pointer at position [i] of [w.CLs]. *)
Definition modifyCL (i : nat) (f : CL -> CL) : M World unit :=
  fun w => Ok (tt, mkWork (alter f i (CLs w)) (ReleaseBranch w) (world w) (log w)).

(** *** gitFetchCLs *)

(** [for _, ref := range args[3:]] *)
Fixpoint rankRefs (refs : list string) (order : gmap string Z) (next : Z)
    : M World (gmap string Z) :=
  match refs with
  | [] => mret order
  | ref :: rest =>
      out ← w_runOut ["git"; "log"; "--pretty=format:%H"; localRef ref];
      let '(order', next') := rankRef order next (GoStrings.Split out) in
      rankRefs rest order' next'
  end.

Definition gitFetchCLs : M World unit :=
  cls ← getCLs;
  releaseBranch ← getReleaseBranch;
  let args := ["git"; "fetch"; "origin"] ++ fetchRefspecs releaseBranch cls in
  _ ← w_runOut args;
  order ← rankRefs (drop 3 args) (initOrder cls) 0;
  cls ← getCLs;
  setCLs ((fun cl => setOrder (lookupOrder order (Commit cl)) cl) <$> cls).

(** *** orderCLs *)

Definition liftResult {A} (r : Result A) : M World A :=
  fun w => match r with
           | Ok a => Ok (a, w)
           | Panic f args => Panic f args
           | Diverge => Diverge
           end.

Definition orderCLs : M World unit :=
  cls ← getCLs;
  let cls := sortSlice lessOrder cls in
  setCLs cls;;
  cls' ← liftResult (resolveOrder cls);
  setCLs cls'.

(** *** treeAndParentOfCommit *)

Definition treeAndParentOfCommit (commit : string) : M World (string * string) :=
  out ← w_runOut ["git"; "cat-file"; "commit"; commit];
  match parseTreeAndParent out with
  | Some tp => mret tp
  | None => panic "getCommitInfo %s: malformed commit blob:\n%s" [AStr commit; AStr out]
  end.

(** *** topGerritCL *)

Definition topGerritCL : M World ChangeInfo :=
  '(out, err) ← execCommand ["git"; "rev-parse"; "HEAD"];
  match err with
  | Some e =>
      emit (WLog "git rev-parse HEAD failed: %s\n%s" [AStr e; AStr out]);;
      panic "git" []
  | None =>
      r ← gerritQueryChanges ("commit:" +:+ GoStrings.TrimSpace out);
      match r with
      | None => panic "QueryChanges" []
      | Some [change] => mret change
      | Some _ => panic "cannot find git HEAD on Gerrit" []
      end
  end.

(** *** cherryPickCLs *)

Definition nl : string := String GoStrings.newline "".

(** The reproduction recipe shared by the two error reports. *)
Definition cherryPickRecipe (lastRef lastCommit : string) (cl : CL) : string :=
  "    git fetch origin " +:+ lastRef +:+ nl +:+
  "    git checkout " +:+ lastCommit +:+ nl +:+
  "    git fetch origin " +:+ Ref cl +:+ nl +:+
  "    git cherry-pick " +:+ Commit cl.

Definition cherryPickFailed (lastRef lastCommit : string) (cl : CL) : string :=
  "git cherry-pick failed:" +:+ nl +:+ nl +:+ cherryPickRecipe lastRef lastCommit cl.

Definition makeBashFailed (lastRef lastCommit : string) (cl : CL) : string :=
  "make.bash after git cherry-pick failed:" +:+ nl +:+ nl +:+
  cherryPickRecipe lastRef lastCommit cl +:+ nl +:+ "    ./make.bash" +:+ nl.

(** Lines 230-247: look for the pending Gerrit CL this cherry-pick would
    update; the result is the local variable [change]. *)
Definition checkGerrit (i : nat) (cl : CL) : M World (option ChangeInfo) :=
  match ReleaseBranchGerrit cl with
  | Some change =>
      emit (StdLog "CHECK %d\n" [AInt (ChangeNumber change)]);;
      let ref := currentRef change in
      _ ← w_runOut ["git"; "fetch"; "origin"; ref];
      '(tree1, parent1) ← treeAndParentOfCommit "FETCH_HEAD";
      '(tree2, parent2) ← treeAndParentOfCommit "HEAD";
      if String.eqb tree1 tree2 && String.eqb parent1 parent2 then
        emit (WLog "reusing existing %s for CL %d" [AStr ref; AInt (Num cl)]);;
        w_run ["git"; "reset"; "--hard"; "FETCH_HEAD"];;
        modifyCL i (setReleaseBranchGerrit (Some change));;
        mret (Some change)
      else
        emit (StdLog "CHECK %d fail\n" [AInt (ChangeNumber change)]);;
        mret None
  | None =>
      emit (StdLog "NO GERRIT %d\n" [AInt (Num cl)]);;
      mret None
  end.

(** Lines 252-267: [true] when the loop goes on to push, [false] for the
    [continue] after a failed make.bash. *)
Definition buildGate (lastRef lastCommit : string) (cl : CL)
    (change : option ChangeInfo) : M World bool :=
  if match change with
     | Some c => 1 <=? labelValue c "TryBot-Result"
     | None => false
     end
  then
    emit (WLog "found trybot OK on Gerrit; skipping make.bash" []);;
    mret true
  else
    '(_, err) ← w_runErr ["./make.bash"];
    match err with
    | Some _ =>
        logError (Some cl) (makeBashFailed lastRef lastCommit cl);;
        w_run ["git"; "reset"; "--hard"; "HEAD^"];;
        mret false
    | None => mret true
    end.

(** Lines 269-284: push, record the Gerrit CL, and move the pointers used
    in later error reports. *)
Definition pushToGerrit (i : nat) (cl : CL) (change : option ChangeInfo)
    : M World (string * string) :=
  change ← match change with
           | None => w_run ["git"; "mail"; "-trybot"; "HEAD"];; topGerritCL
           | Some c => mret c
           end;
  modifyCL i (setReleaseBranchCL (ChangeNumber change));;
  modifyCL i (setReleaseBranchGerrit (Some change));;
  (if labelValue change "Code-Review" <? 2
   then logError (Some cl) "missing Code-Review +2"
   else mret tt);;
  w_updateSummary;;
  mret (currentRef change, CurrentRevision change).

(** The body of [for _, cl := range w.CLs]: the new [lastRef] and
    [lastCommit]. *)
Definition cherryPickCL (lastRef lastCommit : string) (i : nat) (cl : CL)
    : M World (string * string) :=
  emit (WLog "# CL %d\n" [AInt (Num cl)]);;
  if String.eqb (Commit cl) "" then
    emit (WLog "SKIP - missing commit\n" []);;
    mret (lastRef, lastCommit)
  else
    '(_, err) ← w_runErr ["git"; "cherry-pick"; Commit cl];
    match err with
    | Some _ =>
        logError (Some cl) (cherryPickFailed lastRef lastCommit cl);;
        w_run ["git"; "cherry-pick"; "--abort"];;
        mret (lastRef, lastCommit)
    | None =>
        w_run ["git"; "commit"; "--amend"];;
        change ← checkGerrit i cl;
        ok ← buildGate lastRef lastCommit cl change;
        if ok : bool then pushToGerrit i cl change
        else mret (lastRef, lastCommit)
    end.

(** The loop, over the positions [i], [i+1], ... of [w.CLs]; [n] is the
    number of iterations left. *)
Fixpoint cherryPickLoop (n : nat) (i : nat) (lastRef lastCommit : string)
    : M World unit :=
  match n with
  | O => mret tt
  | S n' =>
      cls ← getCLs;
      match cls !! i with
      | None => mret tt
      | Some cl =>
          '(lastRef', lastCommit') ← cherryPickCL lastRef lastCommit i cl;
          cherryPickLoop n' (S i) lastRef' lastCommit'
      end
  end.

Definition cherryPickCLs : M World unit :=
  releaseBranch ← getReleaseBranch;
  cls ← getCLs;
  cherryPickLoop (length cls) 0 releaseBranch ("origin/" +:+ releaseBranch).

End Methods.

(** ** A simulated git checkout and Gerrit server

    An instance of [Externals] to run the methods on.  Everything the
    program cannot compute is an oracle: what a cherry-pick produces, the
    commit that [git commit --amend] creates at a given time, the text of
    commit objects, whether make.bash passes, the output of [git log], and
    the number and votes Gerrit attaches to an upload. *)

Module Sim.

Record Oracle := mkOracle {
  pick : string -> string -> option string;
  amend : nat -> string -> string;
  object : string -> string;
  build : string -> bool;
  history : string -> string;
  number : string -> Z;
  votes : string -> gmap string Z;
  sorter : (CL -> CL -> bool) -> list CL -> list CL
}.

Record State := mkState {
  HEAD : string;
  FETCH_HEAD : string;
  clock : nat;
  gerrit : list ChangeInfo
}.

(** The ref under which Gerrit publishes a revision. *)
Definition refOf (commit : string) : string := "refs/changes/" +:+ commit.

Definition hasRevision (commit : string) (change : ChangeInfo) : bool :=
  bool_decide (is_Some (Revisions change !! commit)).

(** The commit a ref of the server points to. *)
Definition resolve (changes : list ChangeInfo) (ref : string) : option string :=
  if GoStrings.HasPrefix ref "refs/changes/" then
    let commit := GoStrings.TrimPrefix ref "refs/changes/" in
    if existsb (hasRevision commit) changes then Some commit else None
  else None.

(** What [git mail -trybot HEAD] adds to the server. *)
Definition upload (o : Oracle) (commit : string) : ChangeInfo :=
  mkChangeInfo (number o commit) commit {[ commit := refOf commit ]} (votes o commit).

(** The first ["parent "] header of a commit object: what [HEAD^] names. *)
Fixpoint firstParent (lines : list string) : option string :=
  match lines with
  | [] => None
  | line :: rest =>
      if String.eqb line "" then None
      else if GoStrings.HasPrefix line "parent "
           then Some (GoStrings.TrimPrefix line "parent ")
           else firstParent rest
  end.

Definition revName (s : State) (rev : string) : string :=
  if String.eqb rev "HEAD" then HEAD s
  else if String.eqb rev "FETCH_HEAD" then FETCH_HEAD s
  else rev.

Definition sim_run (o : Oracle) (args : list string) (s : State) : option State :=
  match args with
  | ["git"; "cherry-pick"; "--abort"] => Some s
  | ["git"; "commit"; "--amend"] =>
      Some (mkState (amend o (clock s) (HEAD s)) (FETCH_HEAD s) (S (clock s)) (gerrit s))
  | ["git"; "reset"; "--hard"; "FETCH_HEAD"] =>
      Some (mkState (FETCH_HEAD s) (FETCH_HEAD s) (clock s) (gerrit s))
  | ["git"; "reset"; "--hard"; "HEAD^"] =>
      match firstParent (GoStrings.Split (object o (HEAD s))) with
      | Some p => Some (mkState p (FETCH_HEAD s) (clock s) (gerrit s))
      | None => None
      end
  | ["git"; "mail"; "-trybot"; "HEAD"] =>
      Some (mkState (HEAD s) (FETCH_HEAD s) (clock s) (gerrit s ++ [upload o (HEAD s)]))
  | _ => None
  end.

Definition sim_runErr (o : Oracle) (args : list string) (s : State)
    : State * (string * option string) :=
  match args with
  | ["git"; "cherry-pick"; commit] =>
      match pick o (HEAD s) commit with
      | Some h => (mkState h (FETCH_HEAD s) (clock s) (gerrit s), ("", None))
      | None => (s, ("", Some "exit status 1"))
      end
  | ["./make.bash"] =>
      if build o (HEAD s) then (s, ("", None)) else (s, ("", Some "exit status 1"))
  | _ => (s, ("", Some "exit status 1"))
  end.

Definition sim_runOut (o : Oracle) (args : list string) (s : State)
    : option (State * string) :=
  match args with
  | ["git"; "fetch"; "origin"; ref] =>
      match resolve (gerrit s) ref with
      | Some c => Some (mkState (HEAD s) c (clock s) (gerrit s), "")
      | None => None
      end
  | "git" :: "fetch" :: "origin" :: _ => Some (s, "")
  | ["git"; "cat-file"; "commit"; rev] => Some (s, object o (revName s rev))
  | ["git"; "log"; "--pretty=format:%H"; ref] => Some (s, history o ref)
  | _ => None
  end.

Definition sim_CombinedOutput (args : list string) (s : State)
    : State * (string * option string) :=
  match args with
  | ["git"; "rev-parse"; "HEAD"] => (s, (HEAD s +:+ String GoStrings.newline "", None))
  | _ => (s, ("", Some "exit status 1"))
  end.

Definition sim_QueryChanges (q : string) (s : State) : option (list ChangeInfo) :=
  if GoStrings.HasPrefix q "commit:"
  then Some (filter (fun c => hasRevision (GoStrings.TrimPrefix q "commit:") c) (gerrit s))
  else None.

Definition sim_labelValue (change : ChangeInfo) (name : string) : Z :=
  default 0 (Labels change !! name).

Definition externals (o : Oracle) : Externals State := {|
  run := sim_run o;
  runErr := sim_runErr o;
  runOut := sim_runOut o;
  CombinedOutput := sim_CombinedOutput;
  QueryChanges := sim_QueryChanges;
  labelValue := sim_labelValue;
  updateSummary := fun _ s => s;
  sortSlice := sorter o
|}.

(** A fresh gitwork checkout of the release branch at [base], against the
    same server. *)
Definition checkout (base : string) (s : State) : State :=
  mkState base (FETCH_HEAD s) (clock s) (gerrit s).

End Sim.

(** ** Vocabulary of the statements *)

(** The header of a commit object: its lines before the first empty one. *)
Fixpoint headerLines (lines : list string) : list string :=
  match lines with
  | [] => []
  | line :: rest => if String.eqb line "" then [] else line :: headerLines rest
  end.

(** The values of the headers that start with [prefix], in order. *)
Definition headerValues (prefix : string) (out : string) : list string :=
  (fun line => GoStrings.TrimPrefix line prefix)
    <$> filter (fun line => GoStrings.HasPrefix line prefix = true)
               (headerLines (GoStrings.Split out)).

(** What [treeAndParentOfCommit] is said to compute: the last ["tree "] and
    the last ["parent "] header, both required and non-empty. *)
Definition lastTreeAndParent (out : string) : option (string * string) :=
  match last (headerValues "tree " out), last (headerValues "parent " out) with
  | Some tree, Some parent =>
      if String.eqb tree "" || String.eqb parent "" then None else Some (tree, parent)
  | _, _ => None
  end.


(** All passes of the ranking loop, over the walks [logs] in the order of
    [args[3:]]: the rank table and [next]. *)
Definition rankLogs (logs : list (list string)) (order : gmap string Z) (next : Z)
    : gmap string Z * Z :=
  foldl (fun on lines => rankRef on.1 on.2 lines) (order, next) logs.

(** The rank table after the first [i] references. *)
Definition rankTable (cls : list CL) (logs : list (list string)) (i : nat) : gmap string Z :=
  (rankLogs (take i logs) (initOrder cls) 0).1.

(** [commit] gets its rank while reference number [i] is processed. *)
Definition rankedInPass (cls : list CL) (logs : list (list string)) (i : nat)
    (commit : string) : Prop :=
  lookupOrder (rankTable cls logs i) commit = -1 /\
  lookupOrder (rankTable cls logs (S i)) commit <> -1.

Definition totalLines (logs : list (list string)) : Z :=
  Z.of_nat (length (concat logs)).

(** The walks that the [git log] calls of [gitFetchCLs] return, from the
    world [x] on, split into lines; [None] when one of them fails. *)
Fixpoint gitLogs `{!Externals World} (refs : list string) (x : World)
    : option (list (list string) * World) :=
  match refs with
  | [] => Some ([], x)
  | ref :: rest =>
      match runOut ["git"; "log"; "--pretty=format:%H"; localRef ref] x with
      | Some (x', out) =>
          match gitLogs rest x' with
          | Some (logs, x'') => Some (GoStrings.Split out :: logs, x'')
          | None => None
          end
      | None => None
      end
  end.

(** The invariant of the rank table between two references: ranks handed
    out so far lie in [1..next] and no rank is given twice. *)
Definition RankInv (order : gmap string Z) (next : Z) : Prop :=
  0 <= next /\
  (forall k v, order !! k = Some v -> v = -1 \/ 0 < v <= next) /\
  (forall k1 k2 v, order !! k1 = Some v -> order !! k2 = Some v -> 0 < v -> k1 = k2).

(** The same in the middle of the second inner loop: the ranks of this
    pass lie above the cursor [n], the older ones at or below [lo]. *)
Definition PassInv (lo hi n : Z) (order : gmap string Z) : Prop :=
  (forall k v, order !! k = Some v -> v = -1 \/ 0 < v <= lo \/ n < v <= hi) /\
  (forall k1 k2 v, order !! k1 = Some v -> order !! k2 = Some v -> 0 < v -> k1 = k2).

(** The [git fetch] and the [git log] calls of [gitFetchCLs] succeed on the
    world of [w]; the walks they return are [logs] and the world is left
    as [x]. *)
Definition fetched `{!Externals World} (w : Work World)
    (logs : list (list string)) (x : World) : Prop :=
  exists x0 out,
    runOut (["git"; "fetch"; "origin"] ++ fetchRefspecs (ReleaseBranch w) (CLs w)) (world w)
      = Some (x0, out) /\
    gitLogs (fetchRefspecs (ReleaseBranch w) (CLs w)) x0 = Some (logs, x).

(** The rank table when all references have been processed. *)
Definition finalRank (cls : list CL) (logs : list (list string)) (commit : string) : Z :=
  lookupOrder (rankTable cls logs (length logs)) commit.

(** The value of [next] after the first [i] references. *)
Definition rankNext (cls : list CL) (logs : list (list string)) (i : nat) : Z :=
  (rankLogs (take i logs) (initOrder cls) 0).2.

(** What [sort.Slice] promises for the comparison of [orderCLs]: the slice
    is rearranged, and afterwards no element is less than one before it.
    It does not promise to keep equal elements in their order. *)
Definition SortPermutes (sort : (CL -> CL -> bool) -> list CL -> list CL) : Prop :=
  forall cls, sort lessOrder cls ≡ₚ cls.

Definition SliceSorted (cls : list CL) : Prop :=
  forall i j x y, (i < j)%nat -> cls !! i = Some x -> cls !! j = Some y ->
    lessOrder y x = false.

Definition SortSliceSpec (sort : (CL -> CL -> bool) -> list CL -> list CL) : Prop :=
  SortPermutes sort /\ forall cls, SliceSorted (sort lessOrder cls).

(** [clByNum] only holds CLs of the slice, under their own number. *)
Definition ValidNums (cls : list CL) (clByNum : gmap Z nat) : Prop :=
  forall p j, clByNum !! p = Some j -> exists c, cls !! j = Some c /\ Num c = p.

(** Every prerequisite of every CL in [order] is resolved by [clByNum] to a
    CL that stands earlier in [order]. *)
Definition PrereqsPlaced (cls : list CL) (clByNum : gmap Z nat) (order : list nat) : Prop :=
  forall k i cl p, order !! k = Some i -> cls !! i = Some cl -> p ∈ Prereq cl ->
    exists j k', clByNum !! p = Some j /\ (k' < k)%nat /\ order !! k' = Some j.

(** The invariant of the walk. *)
Definition WalkInv (cls : list CL) (clByNum : gmap Z nat) (st : walkState) : Prop :=
  NoDup (order st) /\
  (forall i, i ∈ walked st <-> i ∈ order st) /\
  walked st ⊆ walking st /\
  (forall i, i ∈ walking st -> (i < length cls)%nat) /\
  PrereqsPlaced cls clByNum (order st).

(** What a call of [walk] or a run of the prerequisite loop does to the
    state: it appends CLs that were not being walked, and marks more. *)
Definition WalkStep (st st' : walkState) : Prop :=
  (exists suffix, order st' = order st ++ suffix /\ forall j, j ∈ suffix -> j ∉ walking st) /\
  walking st ⊆ walking st'.

(** The number of CLs not yet marked in [walking]. *)
Definition room (cls : list CL) (st : walkState) : nat :=
  (length cls - size (walking st))%nat.

(** What the prerequisite loop asks of the function it calls: from a state
    that satisfies the invariant and leaves room below [fuel], it does not
    run out of fuel, and when it returns, [j] has been walked. *)
Definition WalkOk (cls : list CL) (clByNum : gmap Z nat) (fuel : nat)
    (walk : nat -> walkState -> Result walkState) : Prop :=
  forall j st, WalkInv cls clByNum st -> (j < length cls)%nat -> (room cls st < fuel)%nat ->
    match walk j st with
    | Ok st' => WalkInv cls clByNum st' /\ WalkStep st st' /\ j ∈ walked st'
    | Panic _ _ => True
    | Diverge => False
    end.

(** Ascending by rank. *)
Definition leOrder (a b : CL) : Prop := Order a <= Order b.

(** No two different CLs of the batch share a rank. *)
Definition DistinctRanks (cls : list CL) : Prop :=
  forall x y, x ∈ cls -> y ∈ cls -> Order x = Order y -> x = y.

(** ** Vocabulary of the statements about [cherryPickCLs] *)

Definition isPanic {A} (r : Result A) : Prop := exists format args, r = Panic format args.

(** The state [w] with the world replaced and more events logged. *)
Definition extend {World} (w : Work World) (x : World) (evs : list Event) : Work World :=
  mkWork (CLs w) (ReleaseBranch w) x (log w ++ evs).

Definition isBuild (e : Event) : bool :=
  match e with
  | Exec ["./make.bash"] => true
  | _ => false
  end.

Definition isUpload (e : Event) : bool :=
  match e with
  | Exec ["git"; "mail"; "-trybot"; "HEAD"] => true
  | _ => false
  end.

Definition isReuse (e : Event) : bool :=
  match e with
  | WLog "reusing existing %s for CL %d" _ => true
  | _ => false
  end.

(** A unit that did not make it: skipped for want of a commit, or an error
    other than the Code-Review warning. *)
Definition isFailure (e : Event) : bool :=
  match e with
  | WLog "SKIP - missing commit\n" _ => true
  | LogError _ msg => negb (String.eqb msg "missing Code-Review +2")
  | _ => false
  end.

(** Runs of make.bash, uploads, reuses and failures in a stretch of log. *)
Definition builds (evs : list Event) : nat := length (filter (fun e => isBuild e = true) evs).
Definition uploads (evs : list Event) : nat := length (filter (fun e => isUpload e = true) evs).
Definition reuses (evs : list Event) : nat := length (filter (fun e => isReuse e = true) evs).
Definition failures (evs : list Event) : nat := length (filter (fun e => isFailure e = true) evs).

(** The events of the three ways through lines 230-247. *)
Definition eventsReused (cl : CL) (change : ChangeInfo) : list Event :=
  [StdLog "CHECK %d\n" [AInt (ChangeNumber change)];
   Exec ["git"; "fetch"; "origin"; currentRef change];
   Exec ["git"; "cat-file"; "commit"; "FETCH_HEAD"];
   Exec ["git"; "cat-file"; "commit"; "HEAD"];
   WLog "reusing existing %s for CL %d" [AStr (currentRef change); AInt (Num cl)];
   Exec ["git"; "reset"; "--hard"; "FETCH_HEAD"]].

Definition eventsCheckFailed (change : ChangeInfo) : list Event :=
  [StdLog "CHECK %d\n" [AInt (ChangeNumber change)];
   Exec ["git"; "fetch"; "origin"; currentRef change];
   Exec ["git"; "cat-file"; "commit"; "FETCH_HEAD"];
   Exec ["git"; "cat-file"; "commit"; "HEAD"];
   StdLog "CHECK %d fail\n" [AInt (ChangeNumber change)]].

Definition eventsNoGerrit (cl : CL) : list Event :=
  [StdLog "NO GERRIT %d\n" [AInt (Num cl)]].

(** The events of a failed make.bash and of its rollback. *)
Definition eventsBuildFailed (lastRef lastCommit : string) (cl : CL) : list Event :=
  [Exec ["./make.bash"];
   LogError (Some (Num cl)) (makeBashFailed lastRef lastCommit cl);
   Exec ["git"; "reset"; "--hard"; "HEAD^"]].

(** The events of a failed cherry-pick and of its rollback. *)
Definition eventsConflict (lastRef lastCommit : string) (cl : CL) : list Event :=
  [WLog "# CL %d\n" [AInt (Num cl)];
   Exec ["git"; "cherry-pick"; Commit cl];
   LogError (Some (Num cl)) (cherryPickFailed lastRef lastCommit cl);
   Exec ["git"; "cherry-pick"; "--abort"]].

(** The warning of line 277. *)
Definition eventsReview `{!Externals World} (cl : CL) (change : ChangeInfo) : list Event :=
  if labelValue change "Code-Review" <? 2
  then [LogError (Some (Num cl)) "missing Code-Review +2"] else [].

(** The two fingerprints compared on line 237 are equal. *)
Definition sameFingerprint (tp1 tp2 : string * string) : bool :=
  String.eqb tp1.1 tp2.1 && String.eqb tp1.2 tp2.2.

(** The test of line 252. *)
Definition trusted `{!Externals World} (change : option ChangeInfo) : bool :=
  match change with
  | Some c => 1 <=? labelValue c "TryBot-Result"
  | None => false
  end.

(** The state right after a clean [git cherry-pick] that made [h], and the
    [git commit --amend]. *)
Definition applied (o : Sim.Oracle) (w : Work Sim.State) (cl : CL) (h : string)
    : Work Sim.State :=
  extend w
    (Sim.mkState (Sim.amend o (Sim.clock (world w)) h) (Sim.FETCH_HEAD (world w))
                 (S (Sim.clock (world w))) (Sim.gerrit (world w)))
    [WLog "# CL %d\n" [AInt (Num cl)];
     Exec ["git"; "cherry-pick"; Commit cl];
     Exec ["git"; "commit"; "--amend"]].

(** Lines 226-284, the rest of the loop body after a clean apply. *)
Definition afterApply `{!Externals World} (lastRef lastCommit : string) (i : nat) (cl : CL)
    : M World (string * string) :=
  change ← checkGerrit i cl;
  ok ← buildGate lastRef lastCommit cl change;
  if ok : bool then pushToGerrit i cl change else mret (lastRef, lastCommit).

(** The commit that [topGerritCL] asks Gerrit about. *)
Definition queried (s : Sim.State) : string :=
  GoStrings.TrimSpace (Sim.HEAD s +:+ nl).

(** The fields [cherryPickCLs] sets on a CL that went through. *)
Definition integrated (change : ChangeInfo) (cl : CL) : CL :=
  setReleaseBranchGerrit (Some change) (setReleaseBranchCL (ChangeNumber change) cl).

(** What is assumed of git: a cherry-pick that succeeds on [tip] makes,
    once amended, a commit with one tree, with [tip] as its only parent,
    both the same whenever the amend happens, and with an id free of white
    space. *)
Definition CherryPickLaw (o : Sim.Oracle) : Prop :=
  forall tip commit h, Sim.pick o tip commit = Some h ->
    tip <> "" /\
    exists tree, tree <> "" /\
      forall time,
        headerValues "tree " (Sim.object o (Sim.amend o time h)) = [tree] /\
        headerValues "parent " (Sim.object o (Sim.amend o time h)) = [tip] /\
        GoStrings.TrimSpace (Sim.amend o time h +:+ nl) = Sim.amend o time h.

(** The commit is not a merge. *)
Definition SingleParent (o : Sim.Oracle) (commit : string) : Prop :=
  (length (headerValues "parent " (Sim.object o commit)) <= 1)%nat.

(** The state in which a second run starts: the CLs as the first run left
    them, a fresh checkout of the release branch at [base], the same
    Gerrit, an empty log. *)
Definition rerun (base : string) (w : Work Sim.State) : Work Sim.State :=
  mkWork (CLs w) (ReleaseBranch w) (Sim.checkout base (world w)) [].

(** ** A small repository to run the methods on

    Release branch at [base]; [c1] applies cleanly on [base] and [c2] on
    top of the result; [c3] applies on [base] but does not build; anything
    else conflicts.  Amending at time 0 and at a later time gives different
    commits with the same tree and parent.  [v] is the TryBot-Result vote
    Gerrit reports for every upload. *)

Module Demo.

Definition text (tree parent stamp : string) : string :=
  "tree " +:+ tree +:+ nl +:+ "parent " +:+ parent +:+ nl +:+
  "committer releasebot " +:+ stamp +:+ nl +:+ nl +:+ "[release-branch] change" +:+ nl.

Definition pick (tip commit : string) : option string :=
  if String.eqb tip "base" && String.eqb commit "c1" then Some "p1"
  else if String.eqb tip "a1" && String.eqb commit "c2" then Some "p2"
  else if String.eqb tip "base" && String.eqb commit "c3" then Some "p3"
  else None.

Definition amend (time : nat) (commit : string) : string :=
  if String.eqb commit "p1" then (if Nat.eqb time 0 then "a1" else "b1")
  else if String.eqb commit "p2" then (if Nat.eqb time 1 then "a2" else "b2")
  else if String.eqb commit "p3" then "a3"
  else commit.

Definition object (commit : string) : string :=
  if String.eqb commit "a1" then text "t1" "base" "0"
  else if String.eqb commit "b1" then text "t1" "base" "7"
  else if String.eqb commit "a2" then text "t2" "a1" "1"
  else if String.eqb commit "b2" then text "t2" "a1" "8"
  else if String.eqb commit "a3" then text "t3" "base" "0"
  else if String.eqb commit "merge" then
    "tree t1" +:+ nl +:+ "parent side" +:+ nl +:+ "parent base" +:+ nl +:+ nl +:+ "merge" +:+ nl
  else if String.eqb commit "root" then "tree t0" +:+ nl +:+ nl +:+ "initial commit" +:+ nl
  else "".

Definition build (commit : string) : bool := negb (String.eqb commit "a3").

Definition history (ref : string) : string :=
  if String.eqb ref "gerrit/master" then "c2" +:+ nl +:+ "m1" +:+ nl +:+ "c1"
  else if String.eqb ref "gerrit/release-branch.go1.9" then "r1" +:+ nl +:+ "r0"
  else if String.eqb ref "gerrit/refs/changes/6" then "c3" +:+ nl +:+ "r1" +:+ nl +:+ "r0"
  else "".

Definition number (commit : string) : Z :=
  if String.eqb commit "a1" then 101 else if String.eqb commit "a2" then 102 else 100.

Definition votes (v : Z) (commit : string) : gmap string Z :=
  {[ "TryBot-Result" := v; "Code-Review" := 2 ]}.

(** An insertion sort; equal ranks keep their order. *)
Fixpoint insert (less : CL -> CL -> bool) (x : CL) (l : list CL) : list CL :=
  match l with
  | [] => [x]
  | y :: l' => if less y x then y :: insert less x l' else x :: y :: l'
  end.
Definition sort (less : CL -> CL -> bool) (l : list CL) : list CL :=
  foldr (insert less) [] l.

(** An insertion sort that puts a unit behind the units of equal rank
    that follow it. *)
Fixpoint insertAfter (less : CL -> CL -> bool) (x : CL) (l : list CL) : list CL :=
  match l with
  | [] => [x]
  | y :: l' => if less x y then x :: y :: l' else y :: insertAfter less x l'
  end.
Definition sortAfter (less : CL -> CL -> bool) (l : list CL) : list CL :=
  foldr (insertAfter less) [] l.

Definition oracle (v : Z) : Sim.Oracle :=
  Sim.mkOracle pick amend object build history number (votes v) sort.

Definition start : Sim.State := Sim.mkState "base" "" 0 [].

Definition cl (num : Z) (commit : string) : CL := mkCL num "" commit 0 [] 0 None.

Definition work (cls : list CL) (s : Sim.State) : Work Sim.State :=
  mkWork cls "release-branch.go1.9" s [].

(** A batch for the ranker: [c1] and [c2] are on master, [c3] is the
    pending change 6, and [zz] is in no history at all. *)
Definition batch : list CL :=
  [cl 1 "c1"; cl 2 "c2"; mkCL 6 "refs/changes/6" "c3" 0 [] 0 None; cl 9 "zz"].

Definition logs : list (list string) :=
  [["c2"; "m1"; "c1"]; ["r1"; "r0"]; ["c3"; "r1"; "r0"]].

(** A second set of histories: change 8 sits on a merge of [x] (which is
    on master) and [y] (which is only in the pending change 7). *)
Definition history2 (ref : string) : string :=
  if String.eqb ref "gerrit/master" then "x"
  else if String.eqb ref "gerrit/refs/changes/8" then "z" +:+ nl +:+ "x" +:+ nl +:+ "y"
  else if String.eqb ref "gerrit/refs/changes/7" then "y"
  else "".

Definition oracle2 : Sim.Oracle :=
  Sim.mkOracle pick amend object build history2 number (votes 0) sort.

Definition batch2 : list CL :=
  [cl 1 "x"; mkCL 8 "refs/changes/8" "z" 0 [] 0 None; mkCL 7 "refs/changes/7" "y" 0 [] 0 None].

Definition logs2 : list (list string) :=
  [["x"]; [""]; ["z"; "x"; "y"]; ["y"]].

(** The scenario of the design notes: A (rank 3), B (rank 1, after C) and
    C (rank 5), numbered 1, 2 and 3. *)
Definition scenario : list CL :=
  [mkCL 1 "" "a" 3 [] 0 None; mkCL 2 "" "b" 1 [3] 0 None; mkCL 3 "" "c" 5 [] 0 None].

(** Two CLs of equal rank. *)
Definition tied : list CL :=
  [mkCL 1 "" "a" 1 [] 0 None; mkCL 2 "" "b" 1 [] 0 None].

(** The demo repository with the other insertion sort. *)
Definition oracleAfter : Sim.Oracle :=
  Sim.mkOracle pick amend object build history number (votes 0) sortAfter.

(** The batch [c1], [c2] integrated twice: the state the first run ends
    in, and the state the second run starts from. *)
Definition twoCLs : list CL := [cl 1 "c1"; cl 2 "c2"].

Definition first (v : Z) : Result (unit * Work Sim.State) :=
  @cherryPickCLs _ (Sim.externals (oracle v)) (work twoCLs start).

Definition second (v : Z) : Work Sim.State :=
  match first v with
  | Ok (_, w1) => rerun "base" w1
  | _ => work [] start
  end.

(** The change Gerrit holds for [c1] after the first run, and the CL that
    carries it. *)
Definition change1 (v : Z) : ChangeInfo := Sim.upload (oracle v) "a1".
Definition cl1 (v : Z) : CL := integrated (change1 v) (cl 1 "c1").

(** A batch whose CLs have no commit, and one that starts with a commit
    that does not apply. *)
Definition unpicked : list CL := [cl 1 ""; cl 2 ""].
Definition conflicting : list CL := [cl 9 "zz"; cl 1 "c1"].

(** Batches for the order resolver: one that names a prerequisite outside
    the batch, one in which two CLs require each other, and one whose only
    prerequisite has the lower rank. *)
Definition dangling : list CL := [mkCL 1 "" "a" 1 [7] 0 None].
Definition cyclic : list CL :=
  [mkCL 1 "" "a" 1 [2] 0 None; mkCL 2 "" "b" 2 [1] 0 None].
Definition agreeing : list CL :=
  [mkCL 1 "" "a" 3 [2] 0 None; mkCL 2 "" "b" 1 [] 0 None].

(** A commit object whose message holds a line that looks like a header,
    in a repository where every commit reads like that. *)
Definition forgedHeader : string := "tree t1" +:+ nl +:+ "parent base".
Definition forgedMessage : string := "parent evil" +:+ nl.
Definition oracleForged : Sim.Oracle :=
  Sim.mkOracle pick amend (fun _ => forgedHeader +:+ nl +:+ nl +:+ forgedMessage)
    build history number (votes 0) sort.

(** A commit text with one Change-Id in the body of the message and
    another in its last paragraph, and a machine on which every command
    prints a given text. *)
Definition message : string :=
  "tree t1" +:+ nl +:+ "parent base" +:+ nl +:+ nl +:+
  "subject" +:+ nl +:+ nl +:+ "Change-Id: I0" +:+ nl +:+ "explained" +:+ nl +:+ nl +:+
  "Change-Id: I123" +:+ nl +:+ "Reviewed-by: gopher" +:+ nl.

Definition reader (text : string) : Externals unit := {|
  run := fun _ x => Some x;
  runErr := fun _ x => (x, (text, None));
  runOut := fun _ x => Some (x, text);
  CombinedOutput := fun _ x => (x, (text, None));
  QueryChanges := fun _ _ => Some [];
  labelValue := fun _ _ => 0;
  updateSummary := fun _ x => x;
  sortSlice := sort
|}.

(** The state in which [gitFetchCLs] leaves the batch of the ranker. *)
Definition ranked : Work Sim.State :=
  match @gitFetchCLs _ (Sim.externals (oracle 0)) (work batch start) with
  | Ok (_, w1) => w1
  | _ => work [] start
  end.

(** The state in which [orderCLs] leaves the scenario. *)
Definition ordered : Work Sim.State :=
  match @orderCLs _ (Sim.externals (oracle 0)) (work scenario start) with
  | Ok (_, w1) => w1
  | _ => work [] start
  end.

(** The state in which the first run over [twoCLs] ends. *)
Definition finished (v : Z) : Work Sim.State :=
  match first v with
  | Ok (_, w1) => w1
  | _ => work [] start
  end.

(** A machine on which no command succeeds. *)
Definition broken : Externals unit := {|
  run := fun _ _ => None;
  runErr := fun _ x => (x, ("", Some "exit status 127"));
  runOut := fun _ _ => None;
  CombinedOutput := fun _ x => (x, ("", Some "exit status 127"));
  QueryChanges := fun _ _ => None;
  labelValue := fun _ _ => 0;
  updateSummary := fun _ x => x;
  sortSlice := fun _ cls => cls
|}.

End Demo.

(** ** Vocabulary of the frame statements *)

(** Two CLs that agree on everything the driver is given: number, ref,
    commit, rank and prerequisites. *)
Definition sameRequest (a b : CL) : Prop :=
  Num a = Num b /\ Ref a = Ref b /\ Commit a = Commit b /\
  Order a = Order b /\ Prereq a = Prereq b.

(** From [w] to [w']: the release branch is the same, the CLs are the same
    requests in the same positions, and the log has only grown. *)
Definition Frame {World} (w w' : Work World) : Prop :=
  ReleaseBranch w' = ReleaseBranch w /\
  Forall2 sameRequest (CLs w) (CLs w') /\
  exists evs, log w' = log w ++ evs.

(** Every normal return of [m] is related to its start by [R]. *)
Definition Keeps {World A} (R : Work World -> Work World -> Prop) (m : M World A) : Prop :=
  forall w a w', m w = Ok (a, w') -> R w w'.

(** The simulated server has only gained changes, each of them the upload
    of a commit on which make.bash passes. *)
Definition UploadsBuilt (o : Sim.Oracle) (w w' : Work Sim.State) : Prop :=
  exists new,
    Sim.gerrit (world w') = Sim.gerrit (world w) ++ new /\
    Forall (fun c => exists commit, c = Sim.upload o commit /\ Sim.build o commit = true) new.

(** ** Vocabulary of the statements about prerequisites *)

(** In the batch [cls], [a] names [b] as a prerequisite. *)
Definition requires (cls : list CL) (a b : CL) : Prop :=
  a ∈ cls /\ b ∈ cls /\ Num b ∈ Prereq a.

(** Every prerequisite named in the batch is the number of a CL of the
    batch. *)
Definition PrereqsKnown (cls : list CL) : Prop :=
  forall cl p, cl ∈ cls -> p ∈ Prereq cl -> exists c, c ∈ cls /\ Num c = p.

(** Every CL that carries a prerequisite number has a lower rank than the
    CL that names it. *)
Definition PrereqsRankedLower (cls : list CL) : Prop :=
  forall cl p c, cl ∈ cls -> p ∈ Prereq cl -> c ∈ cls -> Num c = p -> Order c < Order cl.

(** The state of the walk when the first [k] CLs of the slice have been
    walked in turn and nothing else. *)
Definition walkedUpTo (k : nat) : walkState :=
  mkWalk (seq 0 k) (set_seq 0 k) (set_seq 0 k).

(** The prerequisite relation as the walk sees it, on positions of the
    slice: a prerequisite of the CL at [i] is resolved by [clByNum] to the
    CL at [j]. *)
Definition edge (cls : list CL) (clByNum : gmap Z nat) (i j : nat) : Prop :=
  exists cl p, cls !! i = Some cl /\ p ∈ Prereq cl /\ clByNum !! p = Some j.

(** Some CL of the slice names the CL at [j] as a prerequisite, as
    [clByNum] resolves it. *)
Definition pulled (cls : list CL) (clByNum : gmap Z nat) (j : nat) : Prop :=
  exists k, edge cls clByNum k j.

(** The CLs whose walk has started and not finished: the recursion stack. *)
Definition inProgress (st : walkState) : gset nat := walking st ∖ walked st.

(** What the prerequisite loop asks of the function it calls when the
    batch has no cycle: called on [j] while every CL in progress leads to
    [j], it returns, and the same CLs are in progress afterwards. *)
Definition WalkFine (cls : list CL) (clByNum : gmap Z nat) (fuel : nat)
    (walk : nat -> walkState -> Result walkState) : Prop :=
  forall j st, WalkInv cls clByNum st -> (j < length cls)%nat -> (room cls st < fuel)%nat ->
    (forall x, x ∈ inProgress st -> tc (edge cls clByNum) x j) ->
    exists st', walk j st = Ok st' /\ inProgress st' = inProgress st.

(** ** [topChangeID] *)

(** The loop of [topChangeID] over the lines of the commit object. *)
Fixpoint scanChangeID (lines : list string) (id : string) : string :=
  match lines with
  | [] => id
  | line :: rest =>
      let id := if String.eqb line "" then "" else id in
      let id := if GoStrings.HasPrefix line "Change-Id: "
                then GoStrings.TrimPrefix line "Change-Id: " else id in
      scanChangeID rest id
  end.

Definition topChangeID {World : Type} `{!Externals World} : M World string :=
  '(out, err) ← execCommand ["git"; "cat-file"; "commit"; "HEAD"];
  match err with
  | Some e =>
      emit (WLog "git cat-file commit HEAD failed: %s\n%s" [AStr e; AStr out]);;
      panic "git" []
  | None =>
      let id := scanChangeID (GoStrings.Split (GoStrings.TrimSpace out)) "" in
      if String.eqb id "" then panic "cannot find Change-Id in HEAD" [] else mret id
  end.

(** The lines after the last empty line. *)
Fixpoint lastParagraph (lines : list string) : list string :=
  match lines with
  | [] => []
  | line :: rest =>
      if existsb (String.eqb "") rest then lastParagraph rest
      else if String.eqb line "" then rest else line :: rest
  end.

(** The values of the lines that start with ["Change-Id: "], in order. *)
Definition changeIDs (lines : list string) : list string :=
  (fun line => GoStrings.TrimPrefix line "Change-Id: ")
    <$> filter (fun line => GoStrings.HasPrefix line "Change-Id: " = true) lines.

(** The histories [gitFetchCLs] walks: master, the release branch, and the
    refs of the CLs that have one. *)
Definition fetchedNames (releaseBranch : string) (cls : list CL) : list string :=
  "master" :: releaseBranch ::
    flat_map (fun cl => if String.eqb (Ref cl) "" then [] else [Ref cl]) cls.

(** ** [gitCheckout] and [gitTagVersion]

    The two methods that set up and close the work use more of [Work] than
    the three phases: the milestone title, the flags of the run, and the
    directories.  [Release] adds these fields to the [Work] above, and
    [Host] lists what the two methods ask of the machine: the environment,
    the file system, [filepath.Join], [strings.ToLower], and [w.run] and
    [w.runErr] with the directory [w.runDir] they start the command in. *)

(** [strings.LastIndex(s, ".")]: byte index of the last dot, or -1. *)
Fixpoint LastIndexDot (s : string) : Z :=
  match s with
  | EmptyString => -1
  | String c s' =>
      let i := LastIndexDot s' in
      if 0 <=? i then i + 1 else if Ascii.eqb c "."%char then 0 else -1
  end.

(** [s[:n]] for [n <= len(s)] *)
Fixpoint sliceTo (n : nat) (s : string) : string :=
  match n, s with
  | O, _ => EmptyString
  | S n', String c s' => String c (sliceTo n' s')
  | S _, EmptyString => EmptyString
  end.

Class Host (World : Type) := {
  Getenv : string -> World -> string;
  MkdirAll : string -> World -> World * option string;
  Stat : string -> World -> option string;
  RemoveAll : string -> World -> World * option string;
  Join : string -> string -> string;
  ToLower : string -> string;
  runIn : string -> list string -> World -> option World;
  runErrIn : string -> list string -> World -> World * (string * option string)
}.

Record Release (World : Type) := mkRelease {
  MilestoneTitle : string;
  CloseMilestone : bool;
  FinalRelease : bool;
  Version : string;
  Dir : string;
  runDir : string;
  base : Work World
}.
Arguments mkRelease {World}.
Arguments MilestoneTitle {World}.
Arguments CloseMilestone {World}.
Arguments FinalRelease {World}.
Arguments Version {World}.
Arguments Dir {World}.
Arguments runDir {World}.
Arguments base {World}.

Definition MR (World : Type) (A : Type) : Type :=
  Release World -> Result (A * Release World).

#[global] Instance MR_ret {World} : MRet (MR World) := fun A a r => Ok (a, r).
#[global] Instance MR_bind {World} : MBind (MR World) :=
  fun A B k m r => match m r with
                   | Ok (a, r') => k a r'
                   | Panic f args => Panic f args
                   | Diverge => Diverge
                   end.

Section Setup.
Context {World : Type} `{!Host World}.

Definition r_panic {A} (format : string) (args : list Arg) : MR World A :=
  fun _ => Panic format args.

Definition withBase (f : Work World -> Work World) (r : Release World) : Release World :=
  mkRelease (MilestoneTitle r) (CloseMilestone r) (FinalRelease r) (Version r)
            (Dir r) (runDir r) (f (base r)).

Definition r_emit (e : Event) : MR World unit :=
  fun r => Ok (tt, withBase (fun w => mkWork (CLs w) (ReleaseBranch w) (world w) (log w ++ [e])) r).

Definition r_setWorld (x : World) : MR World unit :=
  fun r => Ok (tt, withBase (fun w => mkWork (CLs w) (ReleaseBranch w) x (log w)) r).

Definition setReleaseBranch (b : string) : MR World unit :=
  fun r => Ok (tt, withBase (fun w => mkWork (CLs w) b (world w) (log w)) r).

Definition setDir (d : string) : MR World unit :=
  fun r => Ok (tt, mkRelease (MilestoneTitle r) (CloseMilestone r) (FinalRelease r)
                             (Version r) d (runDir r) (base r)).

Definition setRunDir (d : string) : MR World unit :=
  fun r => Ok (tt, mkRelease (MilestoneTitle r) (CloseMilestone r) (FinalRelease r)
                             (Version r) (Dir r) d (base r)).

Definition get {A} (f : Release World -> A) : MR World A := fun r => Ok (f r, r).

(** [w.logError(nil, msg)]: an error of the whole release, recorded as
    [logError] above records the errors of a CL. *)
Definition r_logError (msg : string) : MR World unit := r_emit (LogError None msg).

(** [w.run] and [w.runErr], in [w.runDir]. *)
Definition r_run (args : list string) : MR World unit :=
  fun r => match runIn (runDir r) args (world (base r)) with
           | Some x => (r_setWorld x;; r_emit (Exec args)) r
           | None => Panic "command failed: %s" (AStr <$> args)
           end.

Definition r_runErr (args : list string) : MR World (string * option string) :=
  fun r => let '(x, res) := runErrIn (runDir r) args (world (base r)) in
           (r_setWorld x;; r_emit (Exec args);; mret res) r.

(** [os.MkdirAll] and [os.RemoveAll]: the error, [None] for [nil]. *)
Definition r_mkdirAll (path : string) : MR World (option string) :=
  fun r => let '(x, err) := MkdirAll path (world (base r)) in (r_setWorld x;; mret err) r.

Definition r_removeAll (path : string) : MR World (option string) :=
  fun r => let '(x, err) := RemoveAll path (world (base r)) in (r_setWorld x;; mret err) r.

(** [if err != nil { w.log.Panic(err) }] *)
Definition panicOn (err : option string) : MR World unit :=
  match err with
  | Some e => r_panic "%v" [AStr e]
  | None => mret tt
  end.

Definition upstream : string := "https://go.googlesource.com/go".

(** Lines 40-50: check out or refresh the local mirror, then fetch the
    release branch into it. *)
Definition updateMirror (mirror : string) : MR World unit :=
  statErr ← get (fun r => Stat mirror (world (base r)));
  match statErr with
  | Some _ =>
      r_run ["git"; "clone"; upstream; mirror];;
      setRunDir mirror;;
      r_run ["git"; "config"; "gc.auto"; "0"]
  | None =>
      setRunDir mirror;;
      r_run ["git"; "fetch"; "origin"; "master"]
  end;;
  releaseBranch ← get (fun r => ReleaseBranch (base r));
  r_run ["git"; "fetch"; "origin"; releaseBranch].

(** Lines 52-61: clone Gerrit into a fresh [gitwork], using the mirror for
    most objects. *)
Definition cloneWork (mirror gitDir : string) : MR World unit :=
  err ← r_removeAll gitDir;
  panicOn err;;
  releaseBranch ← get (fun r => ReleaseBranch (base r));
  r_run ["git"; "clone"; "--reference"; mirror; "-b"; releaseBranch; upstream; gitDir];;
  setRunDir gitDir;;
  r_run ["git"; "change"; "relwork"];;
  r_run ["git"; "config"; "gc.auto"; "0"];;
  setRunDir (Join gitDir "src").

(** Lines 63-71: the release tag must exist exactly when the run closes
    the milestone. *)
Definition releaseGate (version : string) : MR World unit :=
  '(_, err) ← r_runErr ["git"; "rev-parse"; version];
  close ← get CloseMilestone;
  (if bool_decide (err = None) && negb close then
     r_logError (version +:+ " tag already exists in Go repository!");;
     r_panic "already released" []
   else mret tt);;
  if bool_decide (err <> None) && close then r_panic "not yet released" [] else mret tt.

Definition gitCheckout : MR World unit :=
  title ← get MilestoneTitle;
  let shortRel := ToLower title in
  let i := LastIndexDot shortRel in
  if i <? 0 then r_panic "runtime error: slice bounds out of range [:%d]" [AInt i] else
  let shortRel := sliceTo (Z.to_nat i) shortRel in
  setReleaseBranch ("release-branch." +:+ shortRel);;
  home ← get (fun r => Getenv "HOME" (world (base r)));
  setDir (Join home ("go-releasebot-work/" +:+ ToLower title));;
  dir ← get Dir;
  r_emit (WLog "working in %s\n" [AStr dir]);;
  err ← r_mkdirAll dir;
  panicOn err;;
  updateMirror (Join dir "gitmirror");;
  cloneWork (Join dir "gitmirror") (Join dir "gitwork");;
  releaseGate (ToLower title).

Definition gitTagVersion : MR World unit :=
  dir ← get Dir;
  setRunDir (Join dir "gitwork");;
  final ← get FinalRelease;
  (if final : bool then
     r_run ["git"; "submit"; "-i"];;
     r_run ["git"; "sync"]
   else mret tt);;
  version ← get Version;
  '(out, err) ← r_runErr ["git"; "tag"; version];
  match err with
  | Some e =>
      r_logError ("git tag failed: " +:+ e +:+ nl +:+ out)
  | None => r_run ["git"; "push"; "origin"; version]
  end.

End Setup.

(** ** A machine to run [gitCheckout] and [gitTagVersion] on

    Every command succeeds, the mirror exists, paths are joined with a
    slash, and [git rev-parse] and [git tag] succeed or fail as [tagged]
    says. *)

Module DemoHost.

Fixpoint lower (s : string) : string :=
  match s with
  | EmptyString => EmptyString
  | String c s' =>
      let n := nat_of_ascii c in
      String (if (65 <=? n)%nat && (n <=? 90)%nat then ascii_of_nat (n + 32) else c)
             (lower s')
  end.

Definition host (tagged : bool) : Host unit := {|
  Getenv := fun _ _ => "/home/gopher";
  MkdirAll := fun _ x => (x, None);
  Stat := fun _ _ => None;
  RemoveAll := fun _ x => (x, None);
  Join := fun a b => a +:+ "/" +:+ b;
  ToLower := lower;
  runIn := fun _ _ x => Some x;
  runErrIn := fun _ _ x => (x, ("", if tagged then None else Some "exit status 128"))
|}.

Definition release (title : string) (close : bool) : Release unit :=
  mkRelease title close false "go1.9.2rc1" "" "" (mkWork [] "" tt []).

(** The state in which [gitCheckout] leaves the release [Go1.9.2]. *)
Definition checkedOut : Release unit :=
  match @gitCheckout _ (host false) (release "Go1.9.2" false) with
  | Ok (_, r) => r
  | _ => release "" false
  end.

(** The state in which [gitTagVersion] leaves it, when the tag can be
    made and when it cannot. *)
Definition tagged (ok : bool) : Release unit :=
  match @gitTagVersion _ (host ok) checkedOut with
  | Ok (_, r) => r
  | _ => release "" false
  end.

End DemoHost.

(** * Properties *)

(** ** treeAndParentOfCommit *)

Lemma default_last_cons {A} (l : list A) (x d : A) :
  default d (last (x :: l)) = default x (last l).
Proof. rewrite last_cons. by destruct (last l). Qed.

Lemma scanHeaders_last (lines : list string) (tree parent : string) :
  scanHeaders lines tree parent =
    (default tree (last ((fun l => GoStrings.TrimPrefix l "tree ")
        <$> filter (fun l => GoStrings.HasPrefix l "tree " = true) (headerLines lines))),
     default parent (last ((fun l => GoStrings.TrimPrefix l "parent ")
        <$> filter (fun l => GoStrings.HasPrefix l "parent " = true) (headerLines lines)))).
Proof.
  revert tree parent. induction lines as [|line rest IH]; intros tree parent; [done|].
  cbn [scanHeaders headerLines].
  destruct (String.eqb line "") eqn:Hempty.
  - apply String.eqb_eq in Hempty. subst line. done.
  - rewrite IH, !filter_cons.
    f_equal.
    + destruct (GoStrings.HasPrefix line "tree ") eqn:Ht.
      * rewrite decide_True by done. by rewrite fmap_cons, default_last_cons.
      * by rewrite decide_False by done.
    + destruct (GoStrings.HasPrefix line "parent ") eqn:Hp.
      * rewrite decide_True by done. by rewrite fmap_cons, default_last_cons.
      * by rewrite decide_False by done.
Qed.

Lemma parseTreeAndParent_last (out : string) :
  parseTreeAndParent out = lastTreeAndParent out.
Proof.
  unfold parseTreeAndParent, lastTreeAndParent, headerValues.
  rewrite scanHeaders_last.
  destruct (last (_ <$> filter (fun l => GoStrings.HasPrefix l "tree " = true) _)) as [tree|];
    destruct (last (_ <$> filter (fun l => GoStrings.HasPrefix l "parent " = true) _)) as [parent|];
    cbn [default from_option id]; try done.
  destruct (String.eqb tree ""); done.
Qed.

Lemma treeAndParentOfCommit_unfold `{!Externals World} (commit : string) (w : Work World) :
  treeAndParentOfCommit commit w =
    match runOut ["git"; "cat-file"; "commit"; commit] (world w) with
    | Some (x, out) =>
        match lastTreeAndParent out with
        | Some tp => Ok (tp, mkWork (CLs w) (ReleaseBranch w) x
                               (log w ++ [Exec ["git"; "cat-file"; "commit"; commit]]))
        | None => Panic "getCommitInfo %s: malformed commit blob:\n%s" [AStr commit; AStr out]
        end
    | None => Panic "command failed: %s" (AStr <$> ["git"; "cat-file"; "commit"; commit])
    end.
Proof.
  unfold treeAndParentOfCommit, mbind, M_bind, bind, w_runOut.
  destruct (runOut _ _) as [[x out]|]; [|done].
  rewrite parseTreeAndParent_last. by destruct (lastTreeAndParent out).
Qed.

(** C10. Given the text [out] that [git cat-file commit] prints,
    [treeAndParentOfCommit] returns the value of the last ["tree "] header
    and of the last ["parent "] header found before the first empty line
    (for a merge commit: the final parent listed); it panics as soon as one
    of the two headers is missing, so for a root commit, which has no
    parent; and it does return whenever both are there with a value. *)
Theorem treeAndParentOfCommit_last_headers `{!Externals World}
    (commit : string) (w : Work World) (x : World) (out : string) :
  runOut ["git"; "cat-file"; "commit"; commit] (world w) = Some (x, out) ->
  (forall tree parent w',
      treeAndParentOfCommit commit w = Ok ((tree, parent), w') ->
      last (headerValues "tree " out) = Some tree /\
      last (headerValues "parent " out) = Some parent) /\
  (headerValues "tree " out = [] \/ headerValues "parent " out = [] ->
      exists format args, treeAndParentOfCommit commit w = Panic format args) /\
  (forall tree parent,
      last (headerValues "tree " out) = Some tree ->
      last (headerValues "parent " out) = Some parent ->
      tree <> "" -> parent <> "" ->
      exists w', treeAndParentOfCommit commit w = Ok ((tree, parent), w') /\
                 world w' = x /\ CLs w' = CLs w).
Proof.
  intros Hout. rewrite treeAndParentOfCommit_unfold, Hout.
  unfold lastTreeAndParent. split; [|split].
  - intros tree parent w'.
    destruct (last (headerValues "tree " out)) as [t|]; [|done].
    destruct (last (headerValues "parent " out)) as [p|]; [|done].
    destruct (String.eqb t "" || String.eqb p ""); [done|].
    intros [= -> -> _]. done.
  - intros [-> | ->]; cbn [last].
    + eauto.
    + destruct (last (headerValues "tree " out)); eauto.
  - intros tree parent -> -> Ht Hp.
    apply String.eqb_neq in Ht, Hp. rewrite Ht, Hp. cbn [orb].
    eexists. split; [reflexivity|]. done.
Qed.

(** On the merge commit of the demo repository (parents [side], [base])
    the parent returned is [base]. *)
Lemma treeAndParentOfCommit_last_headers_witness :
  let E := Sim.externals (Demo.oracle 0) in
  let w := Demo.work [] (Sim.mkState "merge" "" 0 []) in
  (forall tree parent w',
      treeAndParentOfCommit "HEAD" w = Ok ((tree, parent), w') ->
      last (headerValues "tree " (Demo.object "merge")) = Some tree /\
      last (headerValues "parent " (Demo.object "merge")) = Some parent) /\
  (headerValues "tree " (Demo.object "merge") = [] \/
   headerValues "parent " (Demo.object "merge") = [] ->
      exists format args, treeAndParentOfCommit "HEAD" w = Panic format args) /\
  (forall tree parent,
      last (headerValues "tree " (Demo.object "merge")) = Some tree ->
      last (headerValues "parent " (Demo.object "merge")) = Some parent ->
      tree <> "" -> parent <> "" ->
      exists w', treeAndParentOfCommit "HEAD" w = Ok ((tree, parent), w') /\
                 world w' = Sim.mkState "merge" "" 0 [] /\ CLs w' = CLs w).
Proof.
  intros E w.
  apply (@treeAndParentOfCommit_last_headers _ E "HEAD" w (Sim.mkState "merge" "" 0 [])
           (Demo.object "merge")).
  reflexivity.
Defined.

(** ** gitFetchCLs: the rank table *)

Lemma wrap_small (z : Z) : (- 2 ^ 63) <= z < 2 ^ 63 -> wrap z = z.
Proof.
  intros Hz. unfold wrap.
  rewrite Z.mod_small by lia. lia.
Qed.

Lemma lookupOrder_insert (order : gmap string Z) (k k' : string) (v : Z) :
  lookupOrder (<[k := v]> order) k' = if decide (k = k') then v else lookupOrder order k'.
Proof.
  unfold lookupOrder. rewrite lookup_insert.
  by destruct (decide (k = k')).
Qed.

Lemma countLoop_bounds (order : gmap string Z) (lines : list string) (acc : Z) :
  0 <= acc -> acc + Z.of_nat (length lines) < 2 ^ 63 ->
  acc <= countLoop order lines acc <= acc + Z.of_nat (length lines).
Proof.
  revert acc. induction lines as [|line rest IH]; intros acc Hacc Hlen; cbn [countLoop length] in *.
  - lia.
  - destruct (0 <? lookupOrder order line); [lia|].
    destruct (lookupOrder order line =? -1).
    + rewrite wrap_small by lia.
      specialize (IH (acc + 1)). lia.
    + specialize (IH acc). lia.
Qed.

Lemma countLoop_acc (order : gmap string Z) (lines : list string) (acc : Z) :
  0 <= acc -> acc + Z.of_nat (length lines) < 2 ^ 63 ->
  countLoop order lines acc = acc + countLoop order lines 0.
Proof.
  revert acc. induction lines as [|line rest IH]; intros acc Hacc Hlen; cbn [countLoop length] in *.
  - lia.
  - destruct (0 <? lookupOrder order line); [lia|].
    destruct (lookupOrder order line =? -1).
    + rewrite !wrap_small by lia.
      rewrite (IH (acc + 1)) by lia. rewrite (IH (0 + 1)) by lia. lia.
    + apply IH; lia.
Qed.

(** Ranking one more line can only shorten the scanned prefix. *)
Lemma countLoop_insert (order : gmap string Z) (lines : list string) (k : string) (v : Z) :
  Z.of_nat (length lines) < 2 ^ 63 ->
  0 < v -> lookupOrder order k = -1 ->
  countLoop (<[k := v]> order) lines 0 <= countLoop order lines 0.
Proof.
  intros Hlen Hv Hk.
  induction lines as [|line rest IH]; cbn [countLoop length] in *; [lia|].
  rewrite lookupOrder_insert.
  destruct (decide (k = line)) as [->|Hne].
  - assert ((0 <? v) = true) as -> by lia.
    rewrite Hk. cbn.
    pose proof (countLoop_bounds order rest (wrap (0 + 1))) as Hb.
    rewrite wrap_small in * by lia. lia.
  - destruct (0 <? lookupOrder order line); [lia|].
    destruct (lookupOrder order line =? -1).
    + rewrite wrap_small by lia.
      rewrite (countLoop_acc _ rest (0 + 1)) by lia.
      rewrite (countLoop_acc order rest (0 + 1)) by lia. lia.
    + apply IH. lia.
Qed.

Lemma lookupOrder_unranked (order : gmap string Z) (k : string) :
  lookupOrder order k = -1 <-> order !! k = Some (-1).
Proof.
  unfold lookupOrder. destruct (order !! k) as [v|]; cbn; split; intros Hk; try done.
  - by subst.
  - by injection Hk.
Qed.

(** A rank, once handed out, is never overwritten by the second loop. *)
Lemma assignLoop_stable (lines : list string) (order : gmap string Z) (n : Z)
    (k : string) (v : Z) :
  order !! k = Some v -> v <> -1 -> assignLoop order lines n !! k = Some v.
Proof.
  revert order n. induction lines as [|line rest IH]; intros order n Hk Hv;
    cbn [assignLoop]; [done|].
  destruct (0 <? lookupOrder order line); [done|].
  destruct (lookupOrder order line =? -1) eqn:Hl; [|by apply IH].
  apply IH; [|done].
  rewrite lookup_insert_ne; [done|].
  intros ->. apply Z.eqb_eq, lookupOrder_unranked in Hl. congruence.
Qed.

(** Lines that are not in the walk keep their entry. *)
Lemma assignLoop_not_in (lines : list string) (order : gmap string Z) (n : Z) (k : string) :
  k ∉ lines -> assignLoop order lines n !! k = order !! k.
Proof.
  revert order n. induction lines as [|line rest IH]; intros order n Hk;
    cbn [assignLoop]; [done|].
  apply not_elem_of_cons in Hk as [Hne Hk].
  destruct (0 <? lookupOrder order line); [done|].
  destruct (lookupOrder order line =? -1); [|by apply IH].
  rewrite IH by done. by rewrite lookup_insert_ne.
Qed.

(** Only unranked targets receive a value. *)
Lemma assignLoop_changed (lines : list string) (order : gmap string Z) (n : Z) (k : string) :
  assignLoop order lines n !! k <> order !! k -> order !! k = Some (-1) /\ k ∈ lines.
Proof.
  intros Hne. split.
  - destruct (order !! k) as [v|] eqn:Hk.
    + destruct (decide (v = -1)) as [->|Hv]; [done|].
      by rewrite (assignLoop_stable lines order n k v) in Hne.
    + exfalso. apply Hne. clear Hne.
      revert order n Hk. induction lines as [|line rest IH]; intros order n Hk;
        cbn [assignLoop]; [done|].
      destruct (0 <? lookupOrder order line); [done|].
      destruct (lookupOrder order line =? -1) eqn:Hl; [|by apply IH].
      apply IH. rewrite lookup_insert_ne; [done|].
      intros ->. apply Z.eqb_eq, lookupOrder_unranked in Hl. congruence.
  - destruct (decide (k ∈ lines)); [done|].
    by rewrite assignLoop_not_in in Hne.
Qed.

Lemma assignLoop_PassInv (lo hi : Z) (lines : list string) (order : gmap string Z) (n : Z) :
  0 <= lo -> hi < 2 ^ 63 -> Z.of_nat (length lines) < 2 ^ 63 ->
  PassInv lo hi n order ->
  lo <= n - countLoop order lines 0 -> n <= hi ->
  exists n', lo <= n' /\ n' <= n /\ PassInv lo hi n' (assignLoop order lines n).
Proof.
  intros Hlo Hhi. revert order n.
  induction lines as [|line rest IH]; intros order n Hlen Hinv Hroom Hn;
    cbn [assignLoop countLoop length] in *.
  - exists n. repeat split; try lia; apply Hinv.
  - destruct (0 <? lookupOrder order line) eqn:Hpos.
    { exists n. repeat split; try lia; apply Hinv. }
    destruct (lookupOrder order line =? -1) eqn:Hl.
    + apply Z.eqb_eq in Hl.
      rewrite wrap_small in Hroom by lia.
      rewrite (countLoop_acc order rest (0 + 1)) in Hroom by lia.
      pose proof (countLoop_bounds order rest 0) as Hc.
      pose proof (countLoop_insert order rest line n) as Hi.
      rewrite wrap_small by lia.
      destruct (IH (<[line := n]> order) (n - 1)) as (n' & ? & ? & Hinv'); try lia.
      * destruct Hinv as [Hrange Hinj]. split.
        -- intros k v. rewrite lookup_insert. destruct (decide (line = k)) as [->|Hne].
           ++ intros [= <-]. lia.
           ++ intros Hk. destruct (Hrange k v Hk) as [?|[?|?]]; lia.
        -- intros k1 k2 v. rewrite !lookup_insert.
           destruct (decide (line = k1)) as [<-|Hne1];
             destruct (decide (line = k2)) as [<-|Hne2]; try done.
           ++ intros [= <-] Hk2 _. destruct (Hrange k2 n Hk2) as [?|[?|?]]; lia.
           ++ intros Hk1 [= <-] _. destruct (Hrange k1 n Hk1) as [?|[?|?]]; lia.
           ++ apply Hinj.
      * exists n'. repeat split; try lia; apply Hinv'.
    + destruct (IH order n) as (n' & ? & ? & Hinv'); try lia; try done.
      exists n'. repeat split; try lia; apply Hinv'.
Qed.

(** The values handed out by one run of the second loop lie between the
    cursor it stops at and the cursor it starts from. *)
Lemma assignLoop_new_range (lines : list string) (order : gmap string Z) (n : Z)
    (k : string) (v : Z) :
  Z.of_nat (length lines) < 2 ^ 63 -> n < 2 ^ 63 ->
  0 <= n - countLoop order lines 0 ->
  order !! k = Some (-1) -> assignLoop order lines n !! k = Some v -> v <> -1 ->
  n - countLoop order lines 0 < v <= n.
Proof.
  revert order n. induction lines as [|line rest IH]; intros order n Hlen Hn Hroom Hk Hv Hne;
    cbn [assignLoop countLoop length] in *; [congruence|].
  destruct (0 <? lookupOrder order line) eqn:Hpos; [congruence|].
  pose proof (countLoop_bounds order rest 0) as Hc.
  destruct (lookupOrder order line =? -1) eqn:Hl.
  - apply Z.eqb_eq in Hl.
    rewrite wrap_small in Hroom |- * by lia.
    rewrite (countLoop_acc order rest (0 + 1)) in Hroom |- * by lia.
    pose proof (countLoop_insert order rest line n) as Hi.
    rewrite wrap_small in Hv by lia.
    destruct (decide (line = k)) as [->|Hnek].
    + rewrite (assignLoop_stable rest _ _ k n) in Hv.
      * injection Hv as <-. lia.
      * apply lookup_insert_eq.
      * lia.
    + pose proof (countLoop_bounds (<[line := n]> order) rest 0) as Hc'.
      apply (IH (<[line := n]> order) (n - 1)) in Hv; try lia.
      by rewrite lookup_insert_ne.
  - apply (IH order n) in Hv; try lia. done.
Qed.

Lemma rankRef_inv (order : gmap string Z) (next : Z) (lines : list string) :
  RankInv order next -> next + Z.of_nat (length lines) < 2 ^ 63 ->
  RankInv (rankRef order next lines).1 (rankRef order next lines).2 /\
  next <= (rankRef order next lines).2 <= next + Z.of_nat (length lines).
Proof.
  intros (Hnext & Hrange & Hinj) Hlen. unfold rankRef. cbn [fst snd].
  pose proof (countLoop_bounds order lines 0) as Hc.
  rewrite wrap_small by lia.
  set (n := countLoop order lines 0 + next).
  destruct (assignLoop_PassInv next n lines order n) as (n' & ? & ? & Hr' & Hi'); try lia.
  { split; [|done]. intros k v Hk. destruct (Hrange k v Hk); lia. }
  split; [|lia]. split; [lia|]. split; [|done].
  intros k v Hk. destruct (Hr' k v Hk) as [?|[?|?]]; lia.
Qed.

Lemma rankRef_stable (order : gmap string Z) (next : Z) (lines : list string)
    (k : string) (v : Z) :
  order !! k = Some v -> v <> -1 -> (rankRef order next lines).1 !! k = Some v.
Proof. apply assignLoop_stable. Qed.

Lemma rankRef_new_range (order : gmap string Z) (next : Z) (lines : list string)
    (k : string) (v : Z) :
  0 <= next -> next + Z.of_nat (length lines) < 2 ^ 63 ->
  order !! k = Some (-1) -> (rankRef order next lines).1 !! k = Some v -> v <> -1 ->
  next < v <= (rankRef order next lines).2.
Proof.
  intros Hnext Hlen Hk Hv Hne. unfold rankRef in *. cbn [fst snd] in *.
  pose proof (countLoop_bounds order lines 0) as Hc.
  rewrite wrap_small in Hv |- * by lia.
  apply assignLoop_new_range in Hv; try lia. done.
Qed.

Lemma rankLogs_app (l1 l2 : list (list string)) (order : gmap string Z) (next : Z) :
  rankLogs (l1 ++ l2) order next =
    rankLogs l2 (rankLogs l1 order next).1 (rankLogs l1 order next).2.
Proof. unfold rankLogs. rewrite foldl_app. by destruct (foldl _ _ l1). Qed.

Lemma rankLogs_cons (lines : list string) (logs : list (list string))
    (order : gmap string Z) (next : Z) :
  rankLogs (lines :: logs) order next =
    rankLogs logs (rankRef order next lines).1 (rankRef order next lines).2.
Proof. unfold rankLogs. cbn [foldl fst snd]. by destruct (rankRef order next lines). Qed.

Lemma totalLines_cons (lines : list string) (logs : list (list string)) :
  totalLines (lines :: logs) = Z.of_nat (length lines) + totalLines logs.
Proof. unfold totalLines. cbn [concat]. rewrite length_app. lia. Qed.

Lemma totalLines_nonneg (logs : list (list string)) : 0 <= totalLines logs.
Proof. unfold totalLines. lia. Qed.

Lemma totalLines_app (l1 l2 : list (list string)) :
  totalLines (l1 ++ l2) = totalLines l1 + totalLines l2.
Proof. unfold totalLines. rewrite concat_app, length_app. lia. Qed.

Lemma rankLogs_inv (logs : list (list string)) (order : gmap string Z) (next : Z) :
  RankInv order next -> next + totalLines logs < 2 ^ 63 ->
  RankInv (rankLogs logs order next).1 (rankLogs logs order next).2 /\
  next <= (rankLogs logs order next).2 <= next + totalLines logs.
Proof.
  revert order next. induction logs as [|lines logs IH]; intros order next Hinv Hlen.
  - cbn. unfold totalLines. cbn. split; [done|lia].
  - rewrite rankLogs_cons. rewrite totalLines_cons in Hlen |- *.
    pose proof (totalLines_nonneg logs).
    destruct (rankRef_inv order next lines) as [Hinv' Hn']; [done|lia|].
    destruct (IH _ _ Hinv') as [Hinv'' Hn'']; [lia|].
    split; [done|lia].
Qed.

Lemma rankLogs_stable (logs : list (list string)) (order : gmap string Z) (next : Z)
    (k : string) (v : Z) :
  order !! k = Some v -> v <> -1 -> (rankLogs logs order next).1 !! k = Some v.
Proof.
  revert order next. induction logs as [|lines logs IH]; intros order next Hk Hv; [done|].
  rewrite rankLogs_cons. apply IH; [|done]. by apply rankRef_stable.
Qed.

Lemma rankLogs_not_in (logs : list (list string)) (order : gmap string Z) (next : Z)
    (k : string) :
  (forall lines, lines ∈ logs -> k ∉ lines) ->
  (rankLogs logs order next).1 !! k = order !! k.
Proof.
  revert order next. induction logs as [|lines logs IH]; intros order next Hk; [done|].
  rewrite rankLogs_cons, IH.
  - apply assignLoop_not_in, Hk. by left.
  - intros l Hl. apply Hk. by right.
Qed.

Lemma initOrder_lookup (cls : list CL) (k : string) (v : Z) :
  initOrder cls !! k = Some v -> v = -1.
Proof.
  unfold initOrder. revert v.
  induction cls as [|cl cls IH] using rev_ind; intros v.
  - cbn. by rewrite lookup_empty.
  - rewrite foldl_snoc, lookup_insert.
    destruct (decide (Commit cl = k)); [by intros [= <-]|apply IH].
Qed.

Lemma initOrder_elem (cls : list CL) (cl : CL) :
  cl ∈ cls -> initOrder cls !! Commit cl = Some (-1).
Proof.
  unfold initOrder. induction cls as [|c cls IH] using rev_ind; intros Hin.
  - by apply elem_of_nil in Hin.
  - rewrite foldl_snoc, lookup_insert.
    destruct (decide (Commit c = Commit cl)); [done|].
    apply elem_of_app in Hin as [Hin|Hin]; [by apply IH|].
    apply list_elem_of_singleton in Hin. by subst.
Qed.

Lemma RankInv_init (cls : list CL) : RankInv (initOrder cls) 0.
Proof.
  split; [lia|]. split.
  - intros k v Hk. left. by eapply initOrder_lookup.
  - intros k1 k2 v Hk1 _ Hv. apply initOrder_lookup in Hk1. lia.
Qed.

Lemma rankRefs_gitLogs `{!Externals World} (refs : list string) (order : gmap string Z)
    (next : Z) (w : Work World) (logs : list (list string)) (x : World) :
  gitLogs refs (world w) = Some (logs, x) ->
  exists evs, rankRefs refs order next w =
    Ok ((rankLogs logs order next).1, mkWork (CLs w) (ReleaseBranch w) x (log w ++ evs)).
Proof.
  revert order next w logs x.
  induction refs as [|ref rest IH]; intros order next w logs x Hlogs; cbn [gitLogs] in Hlogs.
  - injection Hlogs as <- <-. exists []. rewrite app_nil_r. by destruct w.
  - destruct (runOut _ (world w)) as [[x1 out]|] eqn:Hout; [|done].
    destruct (gitLogs rest x1) as [[logs' x2]|] eqn:Hrest; [|done].
    injection Hlogs as <- <-.
    cbn [rankRefs]. unfold mbind, M_bind, bind, w_runOut. rewrite Hout.
    rewrite rankLogs_cons. destruct (rankRef order next (GoStrings.Split out)) as [o' n'].
    destruct (IH o' n' (mkWork (CLs w) (ReleaseBranch w) x1
                (log w ++ [Exec ["git"; "log"; "--pretty=format:%H"; localRef ref]]))
                logs' x2 Hrest) as [evs ->].
    cbn [fst snd CLs ReleaseBranch log]. eexists. by rewrite <-app_assoc.
Qed.

Lemma rankTable_all (cls : list CL) (logs : list (list string)) :
  rankTable cls logs (length logs) = (rankLogs logs (initOrder cls) 0).1.
Proof. unfold rankTable. by rewrite firstn_all. Qed.

(** [gitFetchCLs] writes the final rank table into the [Order] fields. *)
Lemma gitFetchCLs_finalRank `{!Externals World} (w : Work World)
    (logs : list (list string)) (x : World) :
  fetched w logs x ->
  exists evs, gitFetchCLs w =
    Ok (tt, mkWork ((fun cl => setOrder (finalRank (CLs w) logs (Commit cl)) cl) <$> CLs w)
                   (ReleaseBranch w) x (log w ++ evs)).
Proof.
  intros (x0 & out & Hfetch & Hlogs).
  unfold gitFetchCLs, mbind, M_bind, bind, getCLs, getReleaseBranch, w_runOut, setCLs.
  rewrite Hfetch. cbn [drop app].
  destruct (rankRefs_gitLogs (fetchRefspecs (ReleaseBranch w) (CLs w)) (initOrder (CLs w)) 0
              (mkWork (CLs w) (ReleaseBranch w) x0
                 (log w ++ [Exec (["git"; "fetch"; "origin"]
                                   ++ fetchRefspecs (ReleaseBranch w) (CLs w))]))
              logs x Hlogs) as [evs Hr].
  cbn [app CLs ReleaseBranch world log] in Hr. rewrite drop_0, Hr.
  cbn [CLs ReleaseBranch world log]. eexists.
  unfold finalRank. rewrite rankTable_all. by rewrite <-app_assoc.
Qed.

Lemma finalRank_inv (cls : list CL) (logs : list (list string)) :
  totalLines logs < 2 ^ 63 ->
  RankInv (rankTable cls logs (length logs)) (rankLogs logs (initOrder cls) 0).2.
Proof.
  intros Hlen. rewrite rankTable_all.
  apply rankLogs_inv; [apply RankInv_init|lia].
Qed.

Lemma assignLoop_is_Some (lines : list string) (order : gmap string Z) (n : Z) (k : string) :
  is_Some (order !! k) -> is_Some (assignLoop order lines n !! k).
Proof.
  revert order n. induction lines as [|line rest IH]; intros order n Hk;
    cbn [assignLoop]; [done|].
  destruct (0 <? lookupOrder order line); [done|].
  destruct (lookupOrder order line =? -1); [|by apply IH].
  apply IH. rewrite lookup_insert. by destruct (decide (line = k)).
Qed.

Lemma rankLogs_is_Some (logs : list (list string)) (order : gmap string Z) (next : Z)
    (k : string) :
  is_Some (order !! k) -> is_Some ((rankLogs logs order next).1 !! k).
Proof.
  revert order next. induction logs as [|lines logs IH]; intros order next Hk; [done|].
  rewrite rankLogs_cons. apply IH. by apply assignLoop_is_Some.
Qed.

Lemma finalRank_elem (cls : list CL) (logs : list (list string)) (cl : CL) :
  cl ∈ cls ->
  rankTable cls logs (length logs) !! Commit cl = Some (finalRank cls logs (Commit cl)).
Proof.
  intros Hin. unfold finalRank, lookupOrder. rewrite rankTable_all.
  destruct (rankLogs_is_Some logs (initOrder cls) 0 (Commit cl)) as [v ->]; [|done].
  by rewrite (initOrder_elem cls cl Hin).
Qed.

Lemma rankTable_S (cls : list CL) (logs : list (list string)) (i : nat) (lines : list string) :
  logs !! i = Some lines ->
  rankTable cls logs (S i) = (rankRef (rankTable cls logs i) (rankNext cls logs i) lines).1 /\
  rankNext cls logs (S i) = (rankRef (rankTable cls logs i) (rankNext cls logs i) lines).2.
Proof.
  intros Hi. unfold rankTable, rankNext.
  rewrite (take_S_r _ _ _ Hi), rankLogs_app. cbn. done.
Qed.

Lemma rankTable_ge (cls : list CL) (logs : list (list string)) (i : nat) :
  (length logs <= i)%nat -> rankTable cls logs i = rankTable cls logs (length logs).
Proof. intros Hi. unfold rankTable. by rewrite !take_ge by lia. Qed.

Lemma take_totalLines (logs : list (list string)) (i : nat) :
  totalLines logs = totalLines (take i logs) + totalLines (drop i logs).
Proof. by rewrite <-totalLines_app, take_drop. Qed.

Lemma rankTable_inv (cls : list CL) (logs : list (list string)) (i : nat) :
  totalLines logs < 2 ^ 63 ->
  RankInv (rankTable cls logs i) (rankNext cls logs i) /\
  0 <= rankNext cls logs i <= totalLines (take i logs).
Proof.
  intros Hlen. unfold rankTable, rankNext.
  pose proof (take_totalLines logs i). pose proof (totalLines_nonneg (drop i logs)).
  destruct (rankLogs_inv (take i logs) (initOrder cls) 0) as [Hinv Hn];
    [apply RankInv_init|lia|].
  split; [done|lia].
Qed.

Lemma rankTable_stable (cls : list CL) (logs : list (list string)) (i : nat)
    (k : string) (v : Z) :
  rankTable cls logs i !! k = Some v -> v <> -1 ->
  rankTable cls logs (length logs) !! k = Some v.
Proof.
  intros Hk Hv. rewrite rankTable_all.
  rewrite <-(take_drop i logs) at 1. rewrite rankLogs_app.
  by apply rankLogs_stable.
Qed.

Lemma rankNext_mono (cls : list CL) (logs : list (list string)) (i j : nat) :
  totalLines logs < 2 ^ 63 -> (i <= j)%nat -> rankNext cls logs i <= rankNext cls logs j.
Proof.
  intros Hlen Hij. unfold rankNext.
  replace j with (i + (j - i))%nat by lia.
  rewrite <-take_take_drop, rankLogs_app.
  set (l2 := take (j - i) (drop i logs)).
  destruct (rankTable_inv cls logs i Hlen) as [Hinv Hn].
  unfold rankTable, rankNext in Hinv, Hn.
  destruct (rankLogs_inv l2 _ _ Hinv) as [_ ?]; [|lia].
  pose proof (take_totalLines logs i). pose proof (take_totalLines (drop i logs) (j - i)).
  pose proof (totalLines_nonneg (drop (j - i) (drop i logs))).
  subst l2. lia.
Qed.

(** A commit ranked in pass [i] gets a rank of that pass and keeps it. *)
Lemma rankedInPass_range (cls : list CL) (logs : list (list string)) (i : nat)
    (commit : string) :
  totalLines logs < 2 ^ 63 -> rankedInPass cls logs i commit ->
  rankNext cls logs i < finalRank cls logs commit <= rankNext cls logs (S i) /\
  rankTable cls logs (S i) !! commit = Some (finalRank cls logs commit).
Proof.
  intros Hlen [Hbefore Hafter].
  destruct (logs !! i) as [lines|] eqn:Hi.
  - destruct (rankTable_S cls logs i lines Hi) as [Htab Hnext].
    apply lookupOrder_unranked in Hbefore.
    destruct (rankTable_inv cls logs i Hlen) as [Hinv Hn].
    assert (totalLines (take i logs) + Z.of_nat (length lines) <= totalLines logs) as Hroom.
    { rewrite (take_totalLines logs (S i)), (take_S_r _ _ _ Hi), totalLines_app.
      pose proof (totalLines_nonneg (drop (S i) logs)).
      unfold totalLines at 3. cbn [concat]. rewrite app_nil_r. lia. }
    destruct (rankTable cls logs (S i) !! commit) as [v|] eqn:Hv.
    + assert (v <> -1) as Hne.
      { intros ->. apply Hafter. unfold lookupOrder. by rewrite Hv. }
      assert (finalRank cls logs commit = v) as ->.
      { unfold finalRank, lookupOrder.
        by rewrite (rankTable_stable cls logs (S i) commit v Hv Hne). }
      split; [|done]. rewrite Hnext. rewrite Htab in Hv.
      apply (rankRef_new_range _ _ _ commit v); try done; lia.
    + exfalso. rewrite Htab in Hv.
      destruct (assignLoop_is_Some lines (rankTable cls logs i)
                  (wrap (countLoop (rankTable cls logs i) lines 0 + rankNext cls logs i))
                  commit) as [v' Hv']; [by rewrite Hbefore|].
      unfold rankRef in Hv. cbn [fst] in Hv. congruence.
  - exfalso. apply lookup_ge_None in Hi. apply Hafter.
    rewrite rankTable_ge by lia. rewrite rankTable_ge in Hbefore by lia. done.
Qed.

Lemma elem_of_ranked (cls : list CL) (logs : list (list string)) (cl' : CL) :
  cl' ∈ (fun cl => setOrder (finalRank cls logs (Commit cl)) cl) <$> cls ->
  exists cl, cl ∈ cls /\ Commit cl' = Commit cl /\ Order cl' = finalRank cls logs (Commit cl).
Proof.
  intros (cl & -> & Hin)%list_elem_of_fmap. by exists cl.
Qed.

(** C9. When [gitFetchCLs] has run, every CL carries either the sentinel
    -1 (nothing was assigned) or a strictly positive rank; a commit that was
    assigned a rank in some pass holds a strictly positive one, so never
    -1; and two CLs with different commits never share an assigned rank. *)
Theorem gitFetchCLs_ranks_positive_distinct `{!Externals World} (w : Work World)
    (logs : list (list string)) (x : World) :
  fetched w logs x -> totalLines logs < 2 ^ 63 ->
  exists w', gitFetchCLs w = Ok (tt, w') /\
    (forall cl, cl ∈ CLs w' -> Order cl = -1 \/ 0 < Order cl) /\
    (forall i commit, rankedInPass (CLs w) logs i commit ->
        0 < finalRank (CLs w) logs commit) /\
    (forall cl1 cl2, cl1 ∈ CLs w' -> cl2 ∈ CLs w' ->
        Order cl1 <> -1 -> Commit cl1 <> Commit cl2 -> Order cl1 <> Order cl2).
Proof.
  intros Hfetched Hlen.
  destruct (gitFetchCLs_finalRank w logs x Hfetched) as [evs ->].
  eexists. split; [reflexivity|]. cbn [CLs].
  destruct (finalRank_inv (CLs w) logs Hlen) as (_ & Hrange & Hinj).
  split; [|split].
  - intros cl' (cl & Hin & _ & ->)%elem_of_ranked.
    destruct (Hrange _ _ (finalRank_elem (CLs w) logs cl Hin)); [by left|right; lia].
  - intros i commit Hranked.
    pose proof (rankedInPass_range _ _ _ _ Hlen Hranked) as [? _].
    destruct (rankTable_inv (CLs w) logs i Hlen) as [_ ?]. lia.
  - intros cl1' cl2' (cl1 & Hin1 & Hc1 & ->)%elem_of_ranked
                     (cl2 & Hin2 & Hc2 & ->)%elem_of_ranked Hne Hcommit Heq.
    apply Hcommit. rewrite Hc1, Hc2.
    pose proof (finalRank_elem (CLs w) logs cl1 Hin1) as H1.
    pose proof (finalRank_elem (CLs w) logs cl2 Hin2) as H2.
    rewrite <-Heq in H2.
    apply (Hinj _ _ _ H1 H2).
    destruct (Hrange _ _ H1); [done|lia].
Qed.

(** C3, as the code has it. A rank handed out while an earlier (higher
    priority) reference is processed is strictly smaller than any rank
    handed out while a later reference is processed. *)
Theorem gitFetchCLs_earlier_reference_lower_rank `{!Externals World} (w : Work World)
    (logs : list (list string)) (x : World) :
  fetched w logs x -> totalLines logs < 2 ^ 63 ->
  exists w', gitFetchCLs w = Ok (tt, w') /\
    forall i j cl1 cl2, cl1 ∈ CLs w' -> cl2 ∈ CLs w' -> (i < j)%nat ->
      rankedInPass (CLs w) logs i (Commit cl1) ->
      rankedInPass (CLs w) logs j (Commit cl2) ->
      Order cl1 < Order cl2.
Proof.
  intros Hfetched Hlen.
  destruct (gitFetchCLs_finalRank w logs x Hfetched) as [evs ->].
  eexists. split; [reflexivity|]. cbn [CLs].
  intros i j cl1' cl2' (cl1 & Hin1 & Hc1 & ->)%elem_of_ranked
                       (cl2 & Hin2 & Hc2 & ->)%elem_of_ranked Hij Hr1 Hr2.
  rewrite Hc1 in Hr1. rewrite Hc2 in Hr2.
  destruct (rankedInPass_range _ _ _ _ Hlen Hr1) as [? _].
  destruct (rankedInPass_range _ _ _ _ Hlen Hr2) as [? _].
  pose proof (rankNext_mono (CLs w) logs (S i) j Hlen). lia.
Qed.

(** A CL whose commit shows up in none of the
    walks leaves [gitFetchCLs] with [Order = -1]; the function returns
    normally, records no error and keeps the CL in [w.CLs]. *)
Theorem gitFetchCLs_unfound_keeps_sentinel `{!Externals World} (w : Work World)
    (logs : list (list string)) (x : World) (i : nat) (cl : CL) :
  fetched w logs x ->
  CLs w !! i = Some cl ->
  (forall lines, lines ∈ logs -> Commit cl ∉ lines) ->
  exists w', gitFetchCLs w = Ok (tt, w') /\
    CLs w' !! i = Some (setOrder (-1) cl) /\
    length (CLs w') = length (CLs w) /\
    (forall n msg, LogError n msg ∈ log w' -> LogError n msg ∈ log w).
Proof.
  intros Hfetched Hi Hnot.
  destruct Hfetched as (x0 & out & Hfetch & Hlogs).
  unfold gitFetchCLs, mbind, M_bind, bind, getCLs, getReleaseBranch, w_runOut, setCLs.
  rewrite Hfetch. cbn [drop app]. rewrite drop_0.
  assert (forall refs order next (w0 : Work World) logs x,
    gitLogs refs (world w0) = Some (logs, x) ->
    exists w1, rankRefs refs order next w0 = Ok ((rankLogs logs order next).1, w1) /\
      CLs w1 = CLs w0 /\
      (forall n msg, LogError n msg ∈ log w1 -> LogError n msg ∈ log w0)) as Hrank.
  { clear. induction refs as [|ref rest IH]; intros order next w0 logs x Hlogs;
      cbn [gitLogs] in Hlogs.
    - injection Hlogs as <- <-. by exists w0.
    - destruct (runOut _ (world w0)) as [[x1 out]|] eqn:Hout; [|done].
      destruct (gitLogs rest x1) as [[logs' x2]|] eqn:Hrest; [|done].
      injection Hlogs as <- <-.
      cbn [rankRefs]. unfold mbind, M_bind, bind, w_runOut. rewrite Hout.
      rewrite rankLogs_cons. destruct (rankRef order next (GoStrings.Split out)) as [o' n'].
      destruct (IH o' n' (mkWork (CLs w0) (ReleaseBranch w0) x1
                  (log w0 ++ [Exec ["git"; "log"; "--pretty=format:%H"; localRef ref]]))
                  logs' x2 Hrest) as (w1 & -> & Hcls & Hlog).
      exists w1. split; [done|]. split; [done|].
      intros n msg Hin. apply Hlog in Hin. cbn [log] in Hin.
      apply elem_of_app in Hin as [Hin|Hin]; [done|].
      by apply list_elem_of_singleton in Hin. }
  destruct (Hrank (fetchRefspecs (ReleaseBranch w) (CLs w)) (initOrder (CLs w)) 0
              (mkWork (CLs w) (ReleaseBranch w) x0
                 (log w ++ [Exec ("git" :: "fetch" :: "origin"
                                   :: fetchRefspecs (ReleaseBranch w) (CLs w))]))
              logs x Hlogs) as (w1 & -> & Hcls & Hlog).
  eexists. split; [reflexivity|]. cbn [CLs log]. rewrite Hcls. cbn [CLs].
  split; [|split].
  - rewrite list_lookup_fmap, Hi. cbn. do 2 f_equal.
    unfold lookupOrder. rewrite rankLogs_not_in by done.
    rewrite (initOrder_elem (CLs w) cl); [done|].
    by eapply list_elem_of_lookup_2.
  - by rewrite length_fmap.
  - intros n msg Hin. apply Hlog in Hin. cbn [log] in Hin.
    apply elem_of_app in Hin as [Hin|Hin]; [done|].
    by apply list_elem_of_singleton in Hin.
Qed.

(** ** gitFetchCLs: the order inside one walk *)

(** Behind a line that is already ranked the second loop changes nothing. *)
Lemma assignLoop_blocked (a rest : list string) (order : gmap string Z) (n : Z)
    (x y : string) (v : Z) :
  order !! x = Some v -> 0 < v -> y ∉ a -> y <> x ->
  assignLoop order (a ++ x :: rest) n !! y = order !! y.
Proof.
  revert order n. induction a as [|l a IH]; intros order n Hx Hv Hy Hne; cbn [app assignLoop].
  - unfold lookupOrder at 1. rewrite Hx. cbn.
    by assert ((0 <? v) = true) as -> by lia.
  - apply not_elem_of_cons in Hy as [Hyl Hy].
    destruct (0 <? lookupOrder order l); [done|].
    destruct (lookupOrder order l =? -1) eqn:Hl; [|by apply IH].
    apply Z.eqb_eq, lookupOrder_unranked in Hl.
    rewrite IH; try done.
    + by rewrite lookup_insert_ne.
    + rewrite lookup_insert_ne; [done|]. intros ->. rewrite Hx in Hl. injection Hl. lia.
Qed.

(** Inside one run of the second loop, the line met first gets the greater
    value. *)
Lemma assignLoop_decreasing (a rest : list string) (order : gmap string Z) (n : Z)
    (x y : string) (vx vy : Z) :
  Z.of_nat (length (a ++ x :: rest)) < 2 ^ 63 -> n < 2 ^ 63 ->
  0 <= n - countLoop order (a ++ x :: rest) 0 ->
  y ∉ a -> y <> x ->
  order !! x = Some (-1) -> order !! y = Some (-1) ->
  assignLoop order (a ++ x :: rest) n !! x = Some vx -> vx <> -1 ->
  assignLoop order (a ++ x :: rest) n !! y = Some vy -> vy <> -1 ->
  vy < vx.
Proof.
  revert order n. induction a as [|l a IH];
    intros order n Hlen Hn Hroom Hya Hne Hx Hy Hvx Hnx Hvy Hny;
    cbn [app assignLoop countLoop length] in *.
  - assert (lookupOrder order x = -1) as Hlx by by apply lookupOrder_unranked.
    rewrite Hlx in *. cbn in Hvx, Hvy, Hroom.
    pose proof (countLoop_bounds order rest 0) as Hc.
    rewrite wrap_small in Hroom by lia.
    rewrite (countLoop_acc order rest (0 + 1)) in Hroom by lia.
    rewrite wrap_small in Hvx, Hvy by lia.
    rewrite (assignLoop_stable rest _ _ x n) in Hvx; [|apply lookup_insert_eq|lia].
    injection Hvx as <-.
    pose proof (countLoop_insert order rest x n) as Hi.
    pose proof (countLoop_bounds (<[x := n]> order) rest 0) as Hc'.
    apply (assignLoop_new_range rest _ (n - 1) y vy) in Hvy; try lia.
    by rewrite lookup_insert_ne.
  - apply not_elem_of_cons in Hya as [Hyl Hya].
    destruct (0 <? lookupOrder order l) eqn:Hpos; [congruence|].
    pose proof (countLoop_bounds order (a ++ x :: rest) 0) as Hc.
    destruct (lookupOrder order l =? -1) eqn:Hl.
    + apply Z.eqb_eq in Hl.
      rewrite wrap_small in Hroom by lia.
      rewrite (countLoop_acc order _ (0 + 1)) in Hroom by lia.
      rewrite wrap_small in Hvx, Hvy by lia.
      pose proof (countLoop_insert order (a ++ x :: rest) l n) as Hi.
      destruct (decide (l = x)) as [->|Hlx].
      * exfalso.
        rewrite (assignLoop_blocked a rest _ _ x y n) in Hvy; try done; try lia.
        -- rewrite lookup_insert_ne in Hvy by done. congruence.
        -- apply lookup_insert_eq.
      * apply (IH (<[l := n]> order) (n - 1)); try done; try lia.
        -- by rewrite lookup_insert_ne.
        -- by rewrite lookup_insert_ne.
    + apply (IH order n); try done; lia.
Qed.

(** C4, as the code has it. Of two commits that get their ranks while the
    same reference is processed, the one met first in that reference's
    newest-first walk gets the strictly greater rank. *)
Theorem gitFetchCLs_same_pass_decreasing `{!Externals World} (w : Work World)
    (logs : list (list string)) (x : World) :
  fetched w logs x -> totalLines logs < 2 ^ 63 ->
  exists w', gitFetchCLs w = Ok (tt, w') /\
    forall i before between after cl1 cl2, cl1 ∈ CLs w' -> cl2 ∈ CLs w' ->
      logs !! i = Some (before ++ Commit cl1 :: between ++ Commit cl2 :: after) ->
      Commit cl2 ∉ before -> Commit cl2 <> Commit cl1 ->
      rankedInPass (CLs w) logs i (Commit cl1) ->
      rankedInPass (CLs w) logs i (Commit cl2) ->
      Order cl2 < Order cl1.
Proof.
  intros Hfetched Hlen.
  destruct (gitFetchCLs_finalRank w logs x Hfetched) as [evs ->].
  eexists. split; [reflexivity|]. cbn [CLs].
  intros i a b c cl1' cl2' (cl1 & Hin1 & Hc1 & ->)%elem_of_ranked
                           (cl2 & Hin2 & Hc2 & ->)%elem_of_ranked Hi Hnotin Hne Hr1 Hr2.
  rewrite Hc1, Hc2 in *.
  destruct (rankedInPass_range _ _ _ _ Hlen Hr1) as [_ Hv1].
  destruct (rankedInPass_range _ _ _ _ Hlen Hr2) as [_ Hv2].
  destruct Hr1 as [Hb1 Ha1], Hr2 as [Hb2 Ha2].
  destruct (rankTable_S (CLs w) logs i _ Hi) as [Htab _].
  destruct (rankTable_inv (CLs w) logs i Hlen) as [_ Hnext].
  assert (totalLines (take i logs)
          + Z.of_nat (length (a ++ Commit cl1 :: b ++ Commit cl2 :: c)) <= totalLines logs)
    as Hroom.
  { rewrite (take_totalLines logs (S i)), (take_S_r _ _ _ Hi), totalLines_app.
    pose proof (totalLines_nonneg (drop (S i) logs)).
    unfold totalLines at 3. cbn [concat]. rewrite app_nil_r. lia. }
  rewrite Htab in Hv1, Hv2. unfold rankRef in Hv1, Hv2. cbn [fst] in Hv1, Hv2.
  pose proof (countLoop_bounds (rankTable (CLs w) logs i)
                (a ++ Commit cl1 :: b ++ Commit cl2 :: c) 0) as Hc.
  rewrite wrap_small in Hv1, Hv2 by lia.
  apply lookupOrder_unranked in Hb1, Hb2.
  eapply (assignLoop_decreasing a (b ++ Commit cl2 :: c)); try exact Hv1; try exact Hv2;
    try done; try lia.
  - intros Heq. apply Ha1. rewrite Htab. unfold rankRef, lookupOrder. cbn [fst].
    rewrite wrap_small by lia. rewrite Hv1. cbn. done.
  - intros Heq. apply Ha2. rewrite Htab. unfold rankRef, lookupOrder. cbn [fst].
    rewrite wrap_small by lia. rewrite Hv2. cbn. done.
Qed.

(** ** gitFetchCLs on the demo repository *)

Lemma demo_fetched :
  @fetched _ (Sim.externals (Demo.oracle 0)) (Demo.work Demo.batch Demo.start)
           Demo.logs Demo.start.
Proof. exists Demo.start, "". split; reflexivity. Qed.

Lemma demo_totalLines : totalLines Demo.logs < 2 ^ 63.
Proof. reflexivity. Qed.

Lemma demo2_fetched :
  @fetched _ (Sim.externals Demo.oracle2) (Demo.work Demo.batch2 Demo.start)
           Demo.logs2 Demo.start.
Proof. exists Demo.start, "". split; reflexivity. Qed.

Lemma gitFetchCLs_ranks_positive_distinct_witness :
  @fetched _ (Sim.externals (Demo.oracle 0)) (Demo.work Demo.batch Demo.start)
           Demo.logs Demo.start /\
  totalLines Demo.logs < 2 ^ 63 /\
  exists w', @gitFetchCLs _ (Sim.externals (Demo.oracle 0))
               (Demo.work Demo.batch Demo.start) = Ok (tt, w') /\
    (forall cl, cl ∈ CLs w' -> Order cl = -1 \/ 0 < Order cl) /\
    (forall i commit, rankedInPass Demo.batch Demo.logs i commit ->
        0 < finalRank Demo.batch Demo.logs commit) /\
    (forall cl1 cl2, cl1 ∈ CLs w' -> cl2 ∈ CLs w' ->
        Order cl1 <> -1 -> Commit cl1 <> Commit cl2 -> Order cl1 <> Order cl2).
Proof.
  split; [exact demo_fetched|]. split; [exact demo_totalLines|].
  exact (@gitFetchCLs_ranks_positive_distinct _ (Sim.externals (Demo.oracle 0))
           (Demo.work Demo.batch Demo.start) Demo.logs Demo.start
           demo_fetched demo_totalLines).
Defined.

Lemma gitFetchCLs_earlier_reference_lower_rank_witness :
  @fetched _ (Sim.externals (Demo.oracle 0)) (Demo.work Demo.batch Demo.start)
           Demo.logs Demo.start /\
  totalLines Demo.logs < 2 ^ 63 /\
  exists w', @gitFetchCLs _ (Sim.externals (Demo.oracle 0))
               (Demo.work Demo.batch Demo.start) = Ok (tt, w') /\
    forall i j cl1 cl2, cl1 ∈ CLs w' -> cl2 ∈ CLs w' -> (i < j)%nat ->
      rankedInPass Demo.batch Demo.logs i (Commit cl1) ->
      rankedInPass Demo.batch Demo.logs j (Commit cl2) ->
      Order cl1 < Order cl2.
Proof.
  split; [exact demo_fetched|]. split; [exact demo_totalLines|].
  exact (@gitFetchCLs_earlier_reference_lower_rank _ (Sim.externals (Demo.oracle 0))
           (Demo.work Demo.batch Demo.start) Demo.logs Demo.start
           demo_fetched demo_totalLines).
Defined.

(** C3 as written fails: [c2] is ranked from master, the first reference,
    [c3] from the third, and the rank of [c2] is the smaller one. *)
Lemma higher_priority_rank_not_greater :
  match @gitFetchCLs _ (Sim.externals (Demo.oracle 0)) (Demo.work Demo.batch Demo.start) with
  | Ok (_, w') => Order <$> CLs w' = [1; 2; 3; -1]
  | _ => False
  end /\
  rankedInPass Demo.batch Demo.logs 0 "c2" /\
  rankedInPass Demo.batch Demo.logs 2 "c3" /\
  finalRank Demo.batch Demo.logs "c2" = 2 /\
  finalRank Demo.batch Demo.logs "c3" = 3 /\
  ~ (finalRank Demo.batch Demo.logs "c3" <= finalRank Demo.batch Demo.logs "c2").
Proof.
  split; [vm_compute; reflexivity|].
  repeat split; try reflexivity; vm_compute; congruence.
Qed.

Lemma gitFetchCLs_same_pass_decreasing_witness :
  @fetched _ (Sim.externals (Demo.oracle 0)) (Demo.work Demo.batch Demo.start)
           Demo.logs Demo.start /\
  totalLines Demo.logs < 2 ^ 63 /\
  exists w', @gitFetchCLs _ (Sim.externals (Demo.oracle 0))
               (Demo.work Demo.batch Demo.start) = Ok (tt, w') /\
    forall i before between after cl1 cl2, cl1 ∈ CLs w' -> cl2 ∈ CLs w' ->
      Demo.logs !! i = Some (before ++ Commit cl1 :: between ++ Commit cl2 :: after) ->
      Commit cl2 ∉ before -> Commit cl2 <> Commit cl1 ->
      rankedInPass Demo.batch Demo.logs i (Commit cl1) ->
      rankedInPass Demo.batch Demo.logs i (Commit cl2) ->
      Order cl2 < Order cl1.
Proof.
  split; [exact demo_fetched|]. split; [exact demo_totalLines|].
  exact (@gitFetchCLs_same_pass_decreasing _ (Sim.externals (Demo.oracle 0))
           (Demo.work Demo.batch Demo.start) Demo.logs Demo.start
           demo_fetched demo_totalLines).
Defined.

(** C4 as written fails: [x] comes before [y] in the walk of change 8, both
    are commits of the batch, but [x] was ranked from master and [y] only
    from change 7, so [x] has the smaller rank. *)
Lemma earlier_in_walk_not_greater :
  match @gitFetchCLs _ (Sim.externals Demo.oracle2) (Demo.work Demo.batch2 Demo.start) with
  | Ok (_, w') =>
      (fun cl => (Commit cl, Order cl)) <$> CLs w' = [("x", 1); ("z", 2); ("y", 3)]
  | _ => False
  end /\
  Demo.logs2 !! 2%nat = Some ([] ++ "z" :: [] ++ "x" :: [] ++ "y" :: []) /\
  finalRank Demo.batch2 Demo.logs2 "x" = 1 /\
  finalRank Demo.batch2 Demo.logs2 "y" = 3 /\
  ~ (finalRank Demo.batch2 Demo.logs2 "y" < finalRank Demo.batch2 Demo.logs2 "x").
Proof.
  split; [vm_compute; reflexivity|].
  repeat split; try reflexivity; vm_compute; congruence.
Qed.

Lemma gitFetchCLs_unfound_keeps_sentinel_witness :
  @fetched _ (Sim.externals (Demo.oracle 0)) (Demo.work Demo.batch Demo.start)
           Demo.logs Demo.start /\
  Demo.batch !! 3%nat = Some (Demo.cl 9 "zz") /\
  (forall lines, lines ∈ Demo.logs -> "zz" ∉ lines) /\
  exists w', @gitFetchCLs _ (Sim.externals (Demo.oracle 0))
               (Demo.work Demo.batch Demo.start) = Ok (tt, w') /\
    CLs w' !! 3%nat = Some (setOrder (-1) (Demo.cl 9 "zz")) /\
    length (CLs w') = length Demo.batch /\
    (forall n msg, LogError n msg ∈ log w' -> LogError n msg ∈ []).
Proof.
  assert (forall lines, lines ∈ Demo.logs -> "zz" ∉ lines) as Hnot.
  { intros lines Hin. unfold Demo.logs in Hin.
    repeat (apply elem_of_cons in Hin as [->|Hin]);
      [..|by apply elem_of_nil in Hin];
      intros Hzz; repeat (apply elem_of_cons in Hzz as [Hzz|Hzz]; [discriminate|]);
      by apply elem_of_nil in Hzz. }
  split; [exact demo_fetched|]. split; [reflexivity|]. split; [exact Hnot|].
  exact (@gitFetchCLs_unfound_keeps_sentinel _ (Sim.externals (Demo.oracle 0))
           (Demo.work Demo.batch Demo.start) Demo.logs Demo.start 3 (Demo.cl 9 "zz")
           demo_fetched eq_refl Hnot).
Defined.

(** ** orderCLs: the depth-first walk *)

Section Walk.
Context (cls : list CL) (clByNum : gmap Z nat).
Hypothesis Hnums : ValidNums cls clByNum.

Lemma walking_size (st : walkState) :
  WalkInv cls clByNum st -> (size (walking st) <= length cls)%nat.
Proof.
  intros (_ & _ & _ & Hlt & _).
  rewrite <-(size_set_seq (C:=gset nat) 0 (length cls)).
  apply subseteq_size. intros i Hi. apply elem_of_set_seq. specialize (Hlt i Hi). lia.
Qed.

Lemma WalkStep_refl (st : walkState) : WalkStep st st.
Proof.
  split; [|done]. exists []. split; [by rewrite app_nil_r|].
  intros j Hj. by apply elem_of_nil in Hj.
Qed.

Lemma WalkStep_trans (st1 st2 st3 : walkState) :
  WalkStep st1 st2 -> WalkStep st2 st3 -> WalkStep st1 st3.
Proof.
  intros [(s1 & Ho1 & Hs1) Hw1] [(s2 & Ho2 & Hs2) Hw2]. split; [|set_solver].
  exists (s1 ++ s2). split; [by rewrite Ho2, Ho1, app_assoc|].
  intros j [Hj|Hj]%elem_of_app; [by apply Hs1|].
  intros Hin. apply (Hs2 j Hj). by apply Hw1.
Qed.

Lemma WalkStep_room (st st' : walkState) :
  WalkInv cls clByNum st' -> WalkStep st st' -> (room cls st' <= room cls st)%nat.
Proof.
  intros Hinv [_ Hsub]. unfold room.
  pose proof (subseteq_size _ _ Hsub). lia.
Qed.

Lemma WalkStep_walked (st st' : walkState) (j : nat) :
  WalkInv cls clByNum st -> WalkInv cls clByNum st' -> WalkStep st st' ->
  j ∈ walked st -> j ∈ walked st'.
Proof.
  intros (_ & Hw & _) (_ & Hw' & _) [(s & Ho & _) _] Hj.
  apply Hw'. rewrite Ho. apply elem_of_app. left. by apply Hw.
Qed.

Lemma walkPrereqs_spec (fuel : nat) (rec : nat -> walkState -> Result walkState)
    (cl : CL) (prereqs : list Z) (st : walkState) :
  WalkOk cls clByNum fuel rec ->
  WalkInv cls clByNum st -> (room cls st < fuel)%nat ->
  match walkPrereqs rec clByNum cl prereqs st with
  | Ok st' =>
      WalkInv cls clByNum st' /\ WalkStep st st' /\
      forall p, p ∈ prereqs -> exists j, clByNum !! p = Some j /\ j ∈ walked st'
  | Panic _ _ => True
  | Diverge => False
  end.
Proof.
  intros Hrec. revert st.
  induction prereqs as [|p rest IH]; intros st Hinv Hroom; cbn [walkPrereqs].
  - split; [done|]. split; [apply WalkStep_refl|].
    intros p Hp. by apply elem_of_nil in Hp.
  - destruct (clByNum !! p) as [j|] eqn:Hp; [|done].
    destruct (Hnums p j Hp) as (c & Hc & _).
    apply lookup_lt_Some in Hc.
    specialize (Hrec j st Hinv Hc Hroom).
    destruct (rec j st) as [st1| |]; [|done|done].
    destruct Hrec as (Hinv1 & Hstep1 & Hj).
    pose proof (WalkStep_room st st1 Hinv1 Hstep1).
    specialize (IH st1 Hinv1 ltac:(lia)).
    destruct (walkPrereqs rec clByNum cl rest st1) as [st2| |]; [|done|done].
    destruct IH as (Hinv2 & Hstep2 & Hrest).
    split; [done|]. split; [by eapply WalkStep_trans|].
    intros q [->|Hq]%elem_of_cons; [|by apply Hrest].
    exists j. split; [done|]. exact (WalkStep_walked st1 st2 j Hinv1 Hinv2 Hstep2 Hj).
Qed.

Lemma walk_spec (fuel : nat) : WalkOk cls clByNum fuel (walk fuel cls clByNum).
Proof.
  induction fuel as [|fuel IH]; intros i st Hinv Hi Hroom; [lia|].
  cbn [walk].
  destruct (decide (i ∈ walked st)) as [Hwalked|Hnew].
  { split; [done|]. split; [apply WalkStep_refl|done]. }
  destruct (decide (i ∈ walking st)) as [|Hfree]; [done|].
  destruct (cls !! i) as [cl|] eqn:Hcl; [|done].
  set (st1 := mkWalk (order st) ({[i]} ∪ walking st) (walked st)).
  pose proof Hinv as (Hnodup & Hiff & Hsub & Hlt & Hplaced).
  assert (WalkInv cls clByNum st1) as Hinv1.
  { split; [done|]. split; [done|]. split; [cbn; set_solver|]. split; [|done].
    cbn. intros j [->%elem_of_singleton|Hj]%elem_of_union; [done|by apply Hlt]. }
  assert (size (walking st1) = S (size (walking st))) as Hsize.
  { cbn. rewrite size_union by set_solver. by rewrite size_singleton. }
  pose proof (walking_size st1 Hinv1) as Hbound.
  assert (room cls st1 < fuel)%nat as Hroom1.
  { unfold room in *. lia. }
  pose proof (walkPrereqs_spec fuel (walk fuel cls clByNum) cl (Prereq cl) st1 IH Hinv1 Hroom1)
    as Hpre.
  destruct (walkPrereqs _ clByNum cl (Prereq cl) st1) as [st2| |]; [|done|done].
  destruct Hpre as (Hinv2 & Hstep2 & Hprereqs).
  pose proof Hinv2 as (Hnodup2 & Hiff2 & Hsub2 & Hlt2 & Hplaced2).
  pose proof Hstep2 as [(suffix & Horder2 & Hsuffix) Hwalking2].
  assert (i ∉ order st2) as Hi2.
  { rewrite Horder2. cbn. intros [Hin|Hin]%elem_of_app.
    - by apply Hnew, Hiff.
    - apply (Hsuffix i Hin). cbn. set_solver. }
  split; [|split].
  - split; [|split; [|split; [|split]]]; cbn.
    + apply NoDup_app. split; [done|]. split; [|apply NoDup_singleton].
      intros j Hj ->%list_elem_of_singleton. done.
    + intros j. rewrite elem_of_union, elem_of_singleton, elem_of_app,
        list_elem_of_singleton, Hiff2. tauto.
    + intros j [->%elem_of_singleton|Hj]%elem_of_union.
      * apply Hwalking2. cbn. set_solver.
      * by apply Hsub2.
    + done.
    + intros k j c p Hk Hc Hp.
      apply lookup_app_Some in Hk as [Hk|[Hlen Hk]].
      * destruct (Hplaced2 k j c p Hk Hc Hp) as (j' & k' & ? & ? & Hk').
        exists j', k'. split; [done|]. split; [done|].
        by apply lookup_app_l_Some.
      * apply list_lookup_singleton_Some in Hk as [Hk0 <-].
        rewrite Hcl in Hc. injection Hc as <-.
        destruct (Hprereqs p Hp) as (j' & Hj' & Hw').
        apply Hiff2, list_elem_of_lookup in Hw' as [k' Hk'].
        exists j', k'. split; [done|]. split.
        -- apply lookup_lt_Some in Hk'. lia.
        -- by apply lookup_app_l_Some.
  - split.
    + exists (suffix ++ [i]). cbn. split.
      * rewrite Horder2. cbn. by rewrite app_assoc.
      * intros j [Hj| ->%list_elem_of_singleton]%elem_of_app; [|done].
        intros Hin. apply (Hsuffix j Hj). cbn. set_solver.
    + cbn. intros j Hj. apply Hwalking2. cbn. set_solver.
  - cbn. set_solver.
Qed.

Lemma walkAll_spec (fuel : nat) (todo : list nat) (st : walkState) :
  WalkInv cls clByNum st -> (room cls st < fuel)%nat ->
  (forall i, i ∈ todo -> (i < length cls)%nat) ->
  match walkAll fuel cls clByNum todo st with
  | Ok st' =>
      WalkInv cls clByNum st' /\ WalkStep st st' /\ forall i, i ∈ todo -> i ∈ walked st'
  | Panic _ _ => True
  | Diverge => False
  end.
Proof.
  revert st. induction todo as [|i rest IH]; intros st Hinv Hroom Htodo; cbn [walkAll].
  - split; [done|]. split; [apply WalkStep_refl|].
    intros i Hi. by apply elem_of_nil in Hi.
  - pose proof (walk_spec fuel i st Hinv (Htodo i ltac:(by left)) Hroom) as Hw.
    destruct (walk fuel cls clByNum i st) as [st1| |]; [|done|done].
    destruct Hw as (Hinv1 & Hstep1 & Hi1).
    pose proof (WalkStep_room st st1 Hinv1 Hstep1).
    specialize (IH st1 Hinv1 ltac:(lia) ltac:(intros j Hj; apply Htodo; by right)).
    destruct (walkAll fuel cls clByNum rest st1) as [st2| |]; [|done|done].
    destruct IH as (Hinv2 & Hstep2 & Hrest).
    split; [done|]. split; [by eapply WalkStep_trans|].
    intros j [->|Hj]%elem_of_cons; [|by apply Hrest].
    exact (WalkStep_walked st1 st2 i Hinv1 Hinv2 Hstep2 Hi1).
Qed.

End Walk.

Lemma mkClByNum_snoc (cls : list CL) (c : CL) :
  mkClByNum (cls ++ [c]) = <[Num c := length cls]> (mkClByNum cls).
Proof.
  unfold mkClByNum. rewrite imap_app, foldl_app. cbn. by rewrite Nat.add_0_r.
Qed.

Lemma mkClByNum_valid (cls : list CL) : ValidNums cls (mkClByNum cls).
Proof.
  induction cls as [|c cls IH] using rev_ind; intros p j.
  - unfold mkClByNum. cbn. by rewrite lookup_empty.
  - rewrite mkClByNum_snoc, lookup_insert.
    destruct (decide (Num c = p)) as [<-|Hne].
    + intros [= <-]. exists c. split; [|done].
      by rewrite lookup_app_r, Nat.sub_diag.
    + intros Hj. destruct (IH p j Hj) as (c' & Hc' & Hn).
      exists c'. split; [|done]. by apply lookup_app_l_Some.
Qed.

Lemma omap_lookup_seq {A} (pre l : list A) :
  omap (fun i => (pre ++ l) !! i) (seq (length pre) (length l)) = l.
Proof.
  revert pre. induction l as [|x l IH]; intros pre; [done|].
  cbn -[lookup].
  rewrite lookup_app_r, Nat.sub_diag by lia. cbn -[lookup].
  f_equal. specialize (IH (pre ++ [x])).
  rewrite length_app, <-app_assoc in IH. cbn in IH.
  by rewrite Nat.add_1_r in IH.
Qed.

Lemma omap_lookup_all {A} (l : list A) :
  omap (fun i => l !! i) (seq 0 (length l)) = l.
Proof. apply (omap_lookup_seq [] l). Qed.

Lemma omap_lookup_valid {A} (l : list A) (idx : list nat) (k : nat) :
  (forall i, i ∈ idx -> (i < length l)%nat) ->
  omap (fun i => l !! i) idx !! k = idx !! k ≫= fun i => l !! i.
Proof.
  revert k. induction idx as [|i idx IH]; intros k Hvalid; [done|].
  cbn -[lookup].
  destruct (lookup_lt_is_Some_2 l i (Hvalid i ltac:(by left))) as [x Hx].
  rewrite Hx. destruct k as [|k]; cbn.
  - by rewrite Hx.
  - apply IH. intros j Hj. apply Hvalid. by right.
Qed.

(** The pure core of [orderCLs]: it never runs out of fuel, the
    completeness check never fires, and every accepted batch comes out as
    a rearrangement in which each prerequisite stands before its CL. *)
Lemma resolveOrder_spec (cls : list CL) :
  match resolveOrder cls with
  | Ok out =>
      out ≡ₚ cls /\
      forall k u p, out !! k = Some u -> p ∈ Prereq u ->
        exists k' c, (k' < k)%nat /\ out !! k' = Some c /\ Num c = p
  | Panic _ _ => True
  | Diverge => False
  end.
Proof.
  unfold resolveOrder.
  pose proof (mkClByNum_valid cls) as Hnums.
  assert (WalkInv cls (mkClByNum cls) (mkWalk [] ∅ ∅)) as Hinit.
  { split; [apply NoDup_nil_2|]. split; [cbn; set_solver|]. split; [done|].
    split; [cbn; set_solver|]. intros k i cl p Hk. cbn in Hk. by destruct k. }
  pose proof (walkAll_spec cls (mkClByNum cls) Hnums (S (length cls)) (seq 0 (length cls))
                (mkWalk [] ∅ ∅) Hinit) as Hall.
  destruct (walkAll _ cls _ _ _) as [st|format args|].
  - destruct Hall as ((Hnodup & Hiff & Hsub & Hlt & Hplaced) & _ & Hwalked).
    { unfold room. cbn. lia. }
    { intros i Hi%elem_of_seq. lia. }
    assert (order st ≡ₚ seq 0 (length cls)) as Hperm.
    { apply NoDup_Permutation; [done|apply NoDup_seq|].
      intros i. split.
      - intros Hi%Hiff%Hsub%Hlt. apply elem_of_seq. lia.
      - intros Hi. by apply Hiff, Hwalked. }
    assert (length (order st) = length cls) as Hlen.
    { by rewrite Hperm, length_seq. }
    rewrite decide_True by done.
    assert (forall i, i ∈ order st -> (i < length cls)%nat) as Hvalid.
    { intros i Hi%Hiff%Hsub%Hlt. done. }
    assert (length (omap (fun i => cls !! i) (order st)) = length cls) as Hlen'.
    { rewrite Hperm, omap_lookup_all. done. }
    assert (copy cls (omap (fun i => cls !! i) (order st))
            = omap (fun i => cls !! i) (order st)) as ->.
    { unfold copy. rewrite Hlen', drop_all, app_nil_r. rewrite <-Hlen' at 1. apply firstn_all. }
    split.
    + rewrite Hperm. by rewrite omap_lookup_all.
    + intros k u p Hk Hp.
      rewrite omap_lookup_valid in Hk by done.
      destruct (order st !! k) as [i|] eqn:Hi; [|done]. cbn in Hk.
      destruct (Hplaced k i u p Hi Hk Hp) as (j & k' & Hj & Hlt' & Hk').
      destruct (Hnums p j Hj) as (c & Hc & Hnum).
      exists k', c. split; [done|]. split; [|done].
      rewrite omap_lookup_valid by done. rewrite Hk'. done.
  - done.
  - apply Hall; [unfold room; cbn; lia|]. intros i Hi%elem_of_seq. lia.
Qed.

(** ** orderCLs *)

Lemma orderCLs_unfold `{!Externals World} (w : Work World) :
  orderCLs w =
    match resolveOrder (sortSlice lessOrder (CLs w)) with
    | Ok cls' => Ok (tt, mkWork cls' (ReleaseBranch w) (world w) (log w))
    | Panic format args => Panic format args
    | Diverge => Diverge
    end.
Proof.
  unfold orderCLs, mbind, M_bind, bind, getCLs, setCLs, liftResult. cbn.
  by destruct (resolveOrder _).
Qed.


(** The insertion sorts of the demo meet the contract of [sort.Slice]. *)
Lemma Demo_insert_perm (less : CL -> CL -> bool) (x : CL) (l : list CL) :
  Demo.insert less x l ≡ₚ x :: l.
Proof.
  induction l as [|y l IH]; cbn; [done|].
  destruct (less y x); [|done]. rewrite IH. apply Permutation_swap.
Qed.

Lemma Demo_sort_perm : SortPermutes Demo.sort.
Proof.
  intros cls. unfold Demo.sort.
  induction cls as [|x cls IH]; cbn; [done|].
  by rewrite Demo_insert_perm, IH.
Qed.

Lemma Demo_insertAfter_perm (less : CL -> CL -> bool) (x : CL) (l : list CL) :
  Demo.insertAfter less x l ≡ₚ x :: l.
Proof.
  induction l as [|y l IH]; cbn; [done|].
  destruct (less x y); [done|]. rewrite IH. apply Permutation_swap.
Qed.

Lemma Demo_sortAfter_perm : SortPermutes Demo.sortAfter.
Proof.
  intros cls. unfold Demo.sortAfter.
  induction cls as [|x cls IH]; cbn; [done|].
  by rewrite Demo_insertAfter_perm, IH.
Qed.


(** The scenario of the design notes comes out as C, B, A. *)
Example orderCLs_scenario :
  match @orderCLs _ (Sim.externals (Demo.oracle 0)) (Demo.work Demo.scenario Demo.start) with
  | Ok (_, w') => Num <$> CLs w' = [3; 2; 1]
  | _ => False
  end.
Proof. vm_compute. reflexivity. Qed.

(** ** orderCLs: the initial sort *)

Lemma SliceSorted_cons (x : CL) (l : list CL) :
  SliceSorted (x :: l) -> Forall (leOrder x) l /\ SliceSorted l.
Proof.
  intros Hs. split.
  - apply Forall_lookup. intros j y Hy.
    specialize (Hs 0%nat (S j) x y ltac:(lia) eq_refl Hy).
    unfold lessOrder in Hs. unfold leOrder. lia.
  - intros i j a b Hij Ha Hb. apply (Hs (S i) (S j)); [lia|done|done].
Qed.

Lemma SliceSorted_StronglySorted (l : list CL) :
  SliceSorted l -> StronglySorted leOrder l.
Proof.
  induction l as [|x l IH]; intros Hs; [constructor|].
  apply SliceSorted_cons in Hs as [Hx Hl]. constructor; [by apply IH|done].
Qed.

Lemma StronglySorted_SliceSorted (l : list CL) :
  StronglySorted leOrder l -> SliceSorted l.
Proof.
  induction 1 as [|x l Hl IH Hx]; intros i j a b Hij Ha Hb.
  - by destruct i.
  - destruct j as [|j]; [lia|]. cbn in Hb. destruct i as [|i]; cbn in Ha.
    + injection Ha as <-. rewrite Forall_lookup in Hx. specialize (Hx j b Hb).
      unfold leOrder in Hx. unfold lessOrder. lia.
    + apply (IH i j); [lia|done|done].
Qed.

Lemma Demo_insert_sorted (x : CL) (l : list CL) :
  StronglySorted leOrder l -> StronglySorted leOrder (Demo.insert lessOrder x l).
Proof.
  induction 1 as [|y l Hl IH Hy]; cbn; [repeat constructor|].
  destruct (lessOrder y x) eqn:Hless; unfold lessOrder in Hless.
  - constructor; [done|]. rewrite Demo_insert_perm. constructor; [|done].
    unfold leOrder. lia.
  - constructor; [by constructor|]. constructor; [unfold leOrder; lia|].
    eapply Forall_impl; [exact Hy|]. unfold leOrder. intros; lia.
Qed.

Lemma Demo_insertAfter_sorted (x : CL) (l : list CL) :
  StronglySorted leOrder l -> StronglySorted leOrder (Demo.insertAfter lessOrder x l).
Proof.
  induction 1 as [|y l Hl IH Hy]; cbn; [repeat constructor|].
  destruct (lessOrder x y) eqn:Hless; unfold lessOrder in Hless.
  - constructor; [by constructor|]. constructor; [unfold leOrder; lia|].
    eapply Forall_impl; [exact Hy|]. unfold leOrder. intros; lia.
  - constructor; [done|]. rewrite Demo_insertAfter_perm. constructor; [|done].
    unfold leOrder. lia.
Qed.

Lemma Demo_sort_spec : SortSliceSpec Demo.sort.
Proof.
  split; [exact Demo_sort_perm|].
  intros cls. apply StronglySorted_SliceSorted. unfold Demo.sort.
  induction cls as [|x cls IH]; cbn; [constructor|by apply Demo_insert_sorted].
Qed.

Lemma Demo_sortAfter_spec : SortSliceSpec Demo.sortAfter.
Proof.
  split; [exact Demo_sortAfter_perm|].
  intros cls. apply StronglySorted_SliceSorted. unfold Demo.sortAfter.
  induction cls as [|x cls IH]; cbn; [constructor|by apply Demo_insertAfter_sorted].
Qed.

(** With pairwise distinct ranks there is only one way to sort. *)
Lemma sorted_unique (cls l1 l2 : list CL) :
  DistinctRanks cls -> l1 ≡ₚ cls -> l2 ≡ₚ cls ->
  SliceSorted l1 -> SliceSorted l2 -> l1 = l2.
Proof.
  intros Hdist Hp1 Hp2 Hs1 Hs2.
  apply (StronglySorted_unique_strong leOrder).
  - intros x1 x2 Hx1 Hx2 H12 H21. apply Hdist.
    + by rewrite <-Hp1.
    + by rewrite <-Hp2.
    + unfold leOrder in *. lia.
  - by apply SliceSorted_StronglySorted.
  - by apply SliceSorted_StronglySorted.
  - by rewrite Hp1, Hp2.
Qed.


Lemma Demo_scenario_distinct : DistinctRanks Demo.scenario.
Proof.
  intros x y Hx Hy. unfold Demo.scenario in *.
  repeat (apply elem_of_cons in Hx as [->|Hx]); [..|by apply elem_of_nil in Hx];
    repeat (apply elem_of_cons in Hy as [->|Hy]); try (by apply elem_of_nil in Hy);
    cbn; intros; done.
Qed.



(** ** cherryPickCLs on the simulated repository *)

Lemma bind_step {World A B} (m : M World A) (k : A -> M World B)
    (w w' : Work World) (a : A) :
  m w = Ok (a, w') -> bind m k w = k a w'.
Proof. intros Hm. unfold bind. by rewrite Hm. Qed.

Section OnSim.
Context (o : Sim.Oracle).
Local Existing Instance Sim.externals.
Local Notation "'E'" := (Sim.externals o).

Lemma checkGerrit_sim (i : nat) (cl : CL) (w : Work Sim.State) :
  let s := world w in
  match ReleaseBranchGerrit cl with
  | None => @checkGerrit _ E i cl w = Ok (None, extend w s (eventsNoGerrit cl))
  | Some change =>
      match Sim.resolve (Sim.gerrit s) (currentRef change) with
      | None => isPanic (@checkGerrit _ E i cl w)
      | Some f =>
          match parseTreeAndParent (Sim.object o f),
                parseTreeAndParent (Sim.object o (Sim.HEAD s)) with
          | Some tp1, Some tp2 =>
              if sameFingerprint tp1 tp2
              then @checkGerrit _ E i cl w =
                     Ok (Some change,
                         mkWork (alter (setReleaseBranchGerrit (Some change)) i (CLs w))
                           (ReleaseBranch w)
                           (Sim.mkState f f (Sim.clock s) (Sim.gerrit s))
                           (log w ++ eventsReused cl change))
              else @checkGerrit _ E i cl w =
                     Ok (None,
                         extend w (Sim.mkState (Sim.HEAD s) f (Sim.clock s) (Sim.gerrit s))
                           (eventsCheckFailed change))
          | _, _ => isPanic (@checkGerrit _ E i cl w)
          end
      end
  end.
Proof.
  intros s. subst s.
  unfold checkGerrit, treeAndParentOfCommit, emit, w_run, w_runOut, modifyCL,
    mbind, mret, M_bind, M_ret, bind, ret, panic, isPanic, extend.
  destruct (ReleaseBranchGerrit cl) as [change|]; [|done].
  cbn [run runOut Sim.externals Sim.sim_runOut Sim.sim_run world CLs ReleaseBranch log].
  destruct (Sim.resolve _ _) as [f|]; [|by eauto].
  cbn [world CLs ReleaseBranch log Sim.revName Sim.FETCH_HEAD Sim.HEAD Sim.clock Sim.gerrit].
  change (Sim.revName _ "FETCH_HEAD") with f.
  destruct (parseTreeAndParent (Sim.object o f)) as [[tree1 parent1]|]; [|by eauto].
  cbn [world CLs ReleaseBranch log].
  change (Sim.revName _ "HEAD") with (Sim.HEAD (world w)).
  destruct (parseTreeAndParent (Sim.object o (Sim.HEAD (world w)))) as [[tree2 parent2]|];
    [|by eauto].
  unfold sameFingerprint. cbn [fst snd].
  destruct (String.eqb tree1 tree2 && String.eqb parent1 parent2).
  - cbn. unfold eventsReused. by rewrite <-!app_assoc.
  - cbn. unfold eventsCheckFailed. by rewrite <-!app_assoc.
Qed.

Lemma buildGate_sim (lastRef lastCommit : string) (cl : CL) (change : option ChangeInfo)
    (w : Work Sim.State) :
  let s := world w in
  if @trusted _ E change
  then @buildGate _ E lastRef lastCommit cl change w =
         Ok (true, extend w s [WLog "found trybot OK on Gerrit; skipping make.bash" []])
  else if Sim.build o (Sim.HEAD s)
  then @buildGate _ E lastRef lastCommit cl change w = Ok (true, extend w s [Exec ["./make.bash"]])
  else match Sim.firstParent (GoStrings.Split (Sim.object o (Sim.HEAD s))) with
       | Some p =>
           @buildGate _ E lastRef lastCommit cl change w =
             Ok (false, extend w (Sim.mkState p (Sim.FETCH_HEAD s) (Sim.clock s) (Sim.gerrit s))
                          (eventsBuildFailed lastRef lastCommit cl))
       | None => isPanic (@buildGate _ E lastRef lastCommit cl change w)
       end.
Proof.
  intros s. subst s.
  unfold buildGate, trusted, logError, emit, w_run, w_runErr,
    mbind, mret, M_bind, M_ret, bind, ret, panic, isPanic, extend.
  destruct (match change with Some c => 1 <=? labelValue c "TryBot-Result" | None => false end);
    [done|].
  cbn [run runErr Sim.externals Sim.sim_runErr Sim.sim_run world CLs ReleaseBranch log].
  destruct (Sim.build o (Sim.HEAD (world w))); [done|].
  cbn [world CLs ReleaseBranch log fmap option_fmap option_map].
  destruct (Sim.firstParent _) as [p|]; [|by eauto].
  cbn. unfold eventsBuildFailed. by rewrite <-!app_assoc.
Qed.

Lemma HasPrefix_app (p x : string) : GoStrings.HasPrefix (p +:+ x) p = true.
Proof.
  induction p as [|c p IH]; [by destruct x|].
  change (String c p +:+ x) with (String c (p +:+ x)). cbn [GoStrings.HasPrefix].
  by rewrite IH, Ascii.eqb_refl.
Qed.

Lemma sliceFrom_app (p x : string) : GoStrings.sliceFrom (String.length p) (p +:+ x) = x.
Proof.
  induction p as [|c p IH]; [by destruct x|].
  change (String c p +:+ x) with (String c (p +:+ x)). exact IH.
Qed.

Lemma TrimPrefix_app (p x : string) : GoStrings.TrimPrefix (p +:+ x) p = x.
Proof. unfold GoStrings.TrimPrefix. by rewrite HasPrefix_app, sliceFrom_app. Qed.

Lemma pushToGerrit_sim (i : nat) (cl : CL) (change : option ChangeInfo) (w : Work Sim.State) :
  let s := world w in
  match change with
  | Some c =>
      @pushToGerrit _ E i cl change w =
        Ok ((currentRef c, CurrentRevision c),
            mkWork (alter (integrated c) i (CLs w)) (ReleaseBranch w) s
                   (log w ++ @eventsReview _ E cl c))
  | None =>
      let s' := Sim.mkState (Sim.HEAD s) (Sim.FETCH_HEAD s) (Sim.clock s)
                  (Sim.gerrit s ++ [Sim.upload o (Sim.HEAD s)]) in
      match filter (fun c => Sim.hasRevision (queried s) c) (Sim.gerrit s') with
      | [c] =>
          @pushToGerrit _ E i cl change w =
            Ok ((currentRef c, CurrentRevision c),
                mkWork (alter (integrated c) i (CLs w)) (ReleaseBranch w) s'
                       (log w ++ [Exec ["git"; "mail"; "-trybot"; "HEAD"];
                                  Exec ["git"; "rev-parse"; "HEAD"];
                                  Query ("commit:" +:+ queried s)]
                              ++ @eventsReview _ E cl c))
      | _ => isPanic (@pushToGerrit _ E i cl change w)
      end
  end.
Proof.
  intros s. subst s.
  unfold pushToGerrit. unfold mbind at 1, M_bind at 1.
  match goal with |- context [bind _ ?k] => set (tail := k) end.
  assert (forall c (w0 : Work Sim.State),
    tail c w0 =
    Ok ((currentRef c, CurrentRevision c),
        mkWork (alter (integrated c) i (CLs w0)) (ReleaseBranch w0) (world w0)
               (log w0 ++ @eventsReview _ E cl c))) as Htail.
  { intros c w0. subst tail.
    unfold logError, emit, w_updateSummary, modifyCL, eventsReview, integrated,
      mbind, mret, M_bind, M_ret, bind, ret.
    cbn [world CLs ReleaseBranch log updateSummary Sim.externals].
    rewrite list_alter_alter_eq.
    destruct (@labelValue _ E c "Code-Review" <? 2); cbn; [done|].
    by rewrite app_nil_r. }
  clearbody tail. destruct change as [c|].
  - unfold mret, M_ret, bind, ret. apply Htail.
  - cbn zeta. unfold queried.
    unfold topGerritCL, w_run, execCommand, gerritQueryChanges, mbind, M_bind, mret, M_ret,
      bind, ret, panic, emit, isPanic.
    cbn [run CombinedOutput QueryChanges Sim.externals Sim.sim_run
         Sim.sim_CombinedOutput world CLs ReleaseBranch log
         Sim.HEAD Sim.FETCH_HEAD Sim.clock Sim.gerrit].
    unfold Sim.sim_QueryChanges. rewrite HasPrefix_app, TrimPrefix_app.
    fold nl.
    cbn [world CLs ReleaseBranch log Sim.HEAD Sim.FETCH_HEAD Sim.clock Sim.gerrit].
    destruct (filter _ _) as [|c [|c' rest]].
    + eauto.
    + rewrite Htail.
      cbn [world CLs ReleaseBranch log]. by rewrite <-!app_assoc.
    + eauto.
Qed.

Lemma cherryPickCL_applied (lastRef lastCommit : string) (i : nat) (cl : CL)
    (w : Work Sim.State) :
  let s := world w in
  if String.eqb (Commit cl) ""
  then @cherryPickCL _ E lastRef lastCommit i cl w =
         Ok ((lastRef, lastCommit),
             extend w s [WLog "# CL %d\n" [AInt (Num cl)]; WLog "SKIP - missing commit\n" []])
  else match Sim.pick o (Sim.HEAD s) (Commit cl) with
       | None =>
           @cherryPickCL _ E lastRef lastCommit i cl w =
             Ok ((lastRef, lastCommit), extend w s (eventsConflict lastRef lastCommit cl))
       | Some h =>
           @cherryPickCL _ E lastRef lastCommit i cl w =
             @afterApply _ E lastRef lastCommit i cl (applied o w cl h)
       end.
Proof.
  intros s. subst s.
  unfold cherryPickCL, afterApply, applied, eventsConflict, extend,
    mbind, M_bind, mret, M_ret, bind, emit, w_runErr, w_run, logError, ret.
  cbn [world CLs ReleaseBranch log].
  destruct (String.eqb (Commit cl) "").
  { cbn [world CLs ReleaseBranch log]. by rewrite <-?app_assoc. }
  cbn [runErr Sim.externals Sim.sim_runErr world CLs ReleaseBranch log].
  destruct (Sim.pick o _ _) as [h|].
  - cbn [run Sim.externals Sim.sim_run world CLs ReleaseBranch log
         Sim.HEAD Sim.FETCH_HEAD Sim.clock Sim.gerrit].
    rewrite <-?app_assoc. reflexivity.
  - unfold emit.
    cbn [run Sim.externals Sim.sim_run world CLs ReleaseBranch log
         fmap option_fmap option_map].
    rewrite <-?app_assoc. reflexivity.
Qed.

Lemma sameFingerprint_true (tp1 tp2 : string * string) :
  sameFingerprint tp1 tp2 = true <-> tp1 = tp2.
Proof.
  destruct tp1 as [t1 p1], tp2 as [t2 p2]. unfold sameFingerprint. cbn.
  rewrite andb_true_iff, !String.eqb_eq. split; [by intros [-> ->]|by intros [= -> ->]].
Qed.

Lemma firstParent_head (out : string) :
  Sim.firstParent (GoStrings.Split out) = head (headerValues "parent " out).
Proof.
  unfold headerValues. induction (GoStrings.Split out) as [|line rest IH]; [done|].
  cbn [Sim.firstParent headerLines]. destruct (String.eqb line ""); [done|].
  rewrite filter_cons. destruct (GoStrings.HasPrefix line "parent ") eqn:Hp.
  - by rewrite decide_True by done.
  - by rewrite decide_False by (by intros ?).
Qed.

Lemma parsed_has_parent (out : string) (tp : string * string) :
  parseTreeAndParent out = Some tp ->
  exists p, Sim.firstParent (GoStrings.Split out) = Some p.
Proof.
  rewrite parseTreeAndParent_last, firstParent_head. unfold lastTreeAndParent.
  destruct (last (headerValues "tree " out)); [|done].
  destruct (headerValues "parent " out) as [|p ps]; [done|]. intros _. by exists p.
Qed.

Lemma single_parent_first_last (commit : string) (tp : string * string) :
  SingleParent o commit ->
  parseTreeAndParent (Sim.object o commit) = Some tp ->
  Sim.firstParent (GoStrings.Split (Sim.object o commit)) = Some tp.2.
Proof.
  unfold SingleParent. rewrite parseTreeAndParent_last, firstParent_head.
  unfold lastTreeAndParent.
  destruct (last (headerValues "tree " _)) as [t|]; [|done].
  destruct (headerValues "parent " _) as [|p [|p' ps]]; cbn; [done| |lia].
  intros _. destruct (String.eqb t "" || String.eqb p ""); [done|]. by intros [= <-].
Qed.

Lemma law_fingerprint (tip commit h : string) :
  CherryPickLaw o -> Sim.pick o tip commit = Some h ->
  exists tree, forall time,
    parseTreeAndParent (Sim.object o (Sim.amend o time h)) = Some (tree, tip) /\
    Sim.firstParent (GoStrings.Split (Sim.object o (Sim.amend o time h))) = Some tip /\
    GoStrings.TrimSpace (Sim.amend o time h +:+ nl) = Sim.amend o time h.
Proof.
  intros Hlaw Hpick. destruct (Hlaw tip commit h Hpick) as (Htip & tree & Htree & Hall).
  exists tree. intros time. destruct (Hall time) as (Ht & Hp & Hid).
  rewrite parseTreeAndParent_last, firstParent_head. unfold lastTreeAndParent.
  rewrite Ht, Hp. cbn.
  apply String.eqb_neq in Htip, Htree. rewrite Htip, Htree. done.
Qed.

(** The loop body after a clean apply, when the candidate matches. *)
Lemma afterApply_reuse (lastRef lastCommit : string) (i : nat) (cl : CL)
    (w : Work Sim.State) (change : ChangeInfo) (f : string) (tp : string * string) :
  let s := world w in
  ReleaseBranchGerrit cl = Some change ->
  Sim.resolve (Sim.gerrit s) (currentRef change) = Some f ->
  parseTreeAndParent (Sim.object o f) = Some tp ->
  parseTreeAndParent (Sim.object o (Sim.HEAD s)) = Some tp ->
  let cls' := alter (setReleaseBranchGerrit (Some change)) i (CLs w) in
  let reused := Sim.mkState f f (Sim.clock s) (Sim.gerrit s) in
  if @trusted _ E (Some change)
  then @afterApply _ E lastRef lastCommit i cl w =
         Ok ((currentRef change, CurrentRevision change),
             mkWork (alter (integrated change) i cls') (ReleaseBranch w) reused
               (log w ++ eventsReused cl change
                  ++ [WLog "found trybot OK on Gerrit; skipping make.bash" []]
                  ++ @eventsReview _ E cl change))
  else if Sim.build o f
  then @afterApply _ E lastRef lastCommit i cl w =
         Ok ((currentRef change, CurrentRevision change),
             mkWork (alter (integrated change) i cls') (ReleaseBranch w) reused
               (log w ++ eventsReused cl change ++ [Exec ["./make.bash"]]
                  ++ @eventsReview _ E cl change))
  else exists p, Sim.firstParent (GoStrings.Split (Sim.object o f)) = Some p /\
         @afterApply _ E lastRef lastCommit i cl w =
           Ok ((lastRef, lastCommit),
               mkWork cls' (ReleaseBranch w)
                 (Sim.mkState p f (Sim.clock s) (Sim.gerrit s))
                 (log w ++ eventsReused cl change ++ eventsBuildFailed lastRef lastCommit cl)).
Proof.
  intros s Hcand Hresolve Hf Hhead cls' reused. subst s cls' reused.
  pose proof (checkGerrit_sim i cl w) as Hcheck. cbn zeta in Hcheck.
  rewrite Hcand, Hresolve, Hf, Hhead in Hcheck.
  rewrite (proj2 (sameFingerprint_true tp tp) eq_refl) in Hcheck.
  unfold afterApply, mbind, M_bind. rewrite (bind_step _ _ _ _ _ Hcheck).
  pose proof (buildGate_sim lastRef lastCommit cl (Some change)
                (mkWork (alter (setReleaseBranchGerrit (Some change)) i (CLs w))
                   (ReleaseBranch w)
                   (Sim.mkState f f (Sim.clock (world w)) (Sim.gerrit (world w)))
                   (log w ++ eventsReused cl change))) as Hgate.
  cbn zeta in Hgate. cbn [world Sim.HEAD Sim.FETCH_HEAD Sim.clock Sim.gerrit] in Hgate.
  pose proof (pushToGerrit_sim i cl (Some change)) as Hpush. cbn zeta in Hpush.
  destruct (@trusted _ E (Some change)).
  - rewrite (bind_step _ _ _ _ _ Hgate), Hpush. unfold extend.
    cbn [world CLs ReleaseBranch log]. by rewrite <-!app_assoc.
  - destruct (Sim.build o f).
    + rewrite (bind_step _ _ _ _ _ Hgate), Hpush. unfold extend.
      cbn [world CLs ReleaseBranch log]. by rewrite <-!app_assoc.
    + destruct (parsed_has_parent _ _ Hf) as [p Hp]. rewrite Hp in Hgate.
      exists p. split; [done|].
      rewrite (bind_step _ _ _ _ _ Hgate). unfold extend, mret, M_ret, ret.
      cbn [world CLs ReleaseBranch log]. by rewrite <-!app_assoc.
Qed.

Lemma eventsReview_counts (cl : CL) (change : ChangeInfo) :
  builds (@eventsReview _ E cl change) = 0%nat /\
  uploads (@eventsReview _ E cl change) = 0%nat /\
  reuses (@eventsReview _ E cl change) = 0%nat /\
  failures (@eventsReview _ E cl change) = 0%nat.
Proof. unfold eventsReview. by destruct (_ <? _). Qed.

Lemma builds_app (l1 l2 : list Event) : builds (l1 ++ l2) = (builds l1 + builds l2)%nat.
Proof. unfold builds. by rewrite filter_app, length_app. Qed.
Lemma uploads_app (l1 l2 : list Event) : uploads (l1 ++ l2) = (uploads l1 + uploads l2)%nat.
Proof. unfold uploads. by rewrite filter_app, length_app. Qed.
Lemma reuses_app (l1 l2 : list Event) : reuses (l1 ++ l2) = (reuses l1 + reuses l2)%nat.
Proof. unfold reuses. by rewrite filter_app, length_app. Qed.
Lemma failures_app (l1 l2 : list Event) :
  failures (l1 ++ l2) = (failures l1 + failures l2)%nat.
Proof. unfold failures. by rewrite filter_app, length_app. Qed.

(** When the commit just applied has the same
    (tree, parent) as the current revision of the CL's pending Gerrit
    change, the loop body resets the branch to that revision, logs the
    reuse and never uploads; make.bash is skipped exactly when the change
    carries TryBot-Result >= +1 and is run otherwise; and unless that run
    of make.bash fails, the branch stays on the candidate's commit and the
    CL ends up recorded with the candidate. *)
Theorem cherryPickCL_matching_candidate (lastRef lastCommit : string) (i : nat) (cl : CL)
    (w : Work Sim.State) (h f : string) (change : ChangeInfo) (tp : string * string) :
  let s := world w in
  CLs w !! i = Some cl -> Commit cl <> "" ->
  Sim.pick o (Sim.HEAD s) (Commit cl) = Some h ->
  ReleaseBranchGerrit cl = Some change ->
  Sim.resolve (Sim.gerrit s) (currentRef change) = Some f ->
  parseTreeAndParent (Sim.object o f) = Some tp ->
  parseTreeAndParent (Sim.object o (Sim.amend o (Sim.clock s) h)) = Some tp ->
  exists r w' evs,
    @cherryPickCL _ E lastRef lastCommit i cl w = Ok (r, w') /\
    log w' = log w ++ evs /\
    Exec ["git"; "reset"; "--hard"; "FETCH_HEAD"] ∈ evs /\
    reuses evs = 1%nat /\
    uploads evs = 0%nat /\
    builds evs = (if @trusted _ E (Some change) then 0%nat else 1%nat) /\
    (@trusted _ E (Some change) = true \/ Sim.build o f = true ->
       r = (currentRef change, CurrentRevision change) /\
       Sim.HEAD (world w') = f /\
       CLs w' !! i = Some (integrated change cl) /\
       forall j, j <> i -> CLs w' !! j = CLs w !! j).
Proof.
  intros s Hi Hcommit Hpick Hcand Hresolve Hf Hhead. subst s.
  pose proof (cherryPickCL_applied lastRef lastCommit i cl w) as Hbody. cbn zeta in Hbody.
  apply String.eqb_neq in Hcommit. rewrite Hcommit, Hpick in Hbody. rewrite Hbody.
  pose proof (afterApply_reuse lastRef lastCommit i cl (applied o w cl h) change f tp
                Hcand Hresolve Hf Hhead) as Hafter.
  cbn zeta in Hafter. cbn [applied extend world CLs ReleaseBranch log Sim.clock Sim.gerrit]
    in Hafter.
  destruct (eventsReview_counts cl change) as (Hb & Hu & Hr & _).
  assert (forall g, alter g i (alter (setReleaseBranchGerrit (Some change)) i (CLs w)) !! i
                    = Some (g (setReleaseBranchGerrit (Some change) cl))) as Halter.
  { intros g. by rewrite !list_lookup_alter_eq, Hi. }
  assert (forall g j, j <> i ->
            alter g i (alter (setReleaseBranchGerrit (Some change)) i (CLs w)) !! j
            = CLs w !! j) as Hframe.
  { intros g j Hj. by rewrite !list_lookup_alter_ne. }
  destruct (@trusted _ E (Some change)).
  - eexists _, _, _. split; [exact Hafter|]. cbn [log].
    split; [by rewrite <-!app_assoc|].
    split; [apply list_elem_of_In; cbn; tauto|].
    rewrite !reuses_app, !uploads_app, !builds_app, Hb, Hu, Hr.
    split; [reflexivity|]. split; [reflexivity|]. split; [reflexivity|].
    intros _. split; [done|]. split; [done|]. split; [apply Halter|].
    intros j Hj. by apply Hframe.
  - destruct (Sim.build o f).
    + eexists _, _, _. split; [exact Hafter|]. cbn [log].
      split; [by rewrite <-!app_assoc|].
      split; [apply list_elem_of_In; cbn; tauto|].
      rewrite !reuses_app, !uploads_app, !builds_app, Hb, Hu, Hr.
      split; [reflexivity|]. split; [reflexivity|]. split; [reflexivity|].
      intros _. split; [done|]. split; [done|]. split; [apply Halter|].
      intros j Hj. by apply Hframe.
    + destruct Hafter as (p & _ & Hafter).
      eexists _, _, _. split; [exact Hafter|]. cbn [log].
      split; [by rewrite <-!app_assoc|].
      split; [apply list_elem_of_In; cbn; tauto|].
      rewrite !reuses_app, !uploads_app, !builds_app.
      split; [reflexivity|]. split; [reflexivity|]. split; [reflexivity|].
      intros [?|?]; done.
Qed.

End OnSim.

Lemma cherryPickCL_matching_candidate_witness :
  let o := Demo.oracle 1 in
  let w := Demo.second 1 in
  let cl := Demo.cl1 1 in
  let change := Demo.change1 1 in
  CLs w !! 0%nat = Some cl /\ Commit cl <> "" /\
  Sim.pick o (Sim.HEAD (world w)) (Commit cl) = Some "p1" /\
  ReleaseBranchGerrit cl = Some change /\
  Sim.resolve (Sim.gerrit (world w)) (currentRef change) = Some "a1" /\
  parseTreeAndParent (Sim.object o "a1") = Some ("t1", "base") /\
  parseTreeAndParent (Sim.object o (Sim.amend o (Sim.clock (world w)) "p1"))
    = Some ("t1", "base") /\
  exists r w' evs,
    @cherryPickCL _ (Sim.externals o) "" "" 0 cl w = Ok (r, w') /\
    log w' = log w ++ evs /\
    Exec ["git"; "reset"; "--hard"; "FETCH_HEAD"] ∈ evs /\
    reuses evs = 1%nat /\
    uploads evs = 0%nat /\
    builds evs = (if @trusted _ (Sim.externals o) (Some change) then 0%nat else 1%nat) /\
    (@trusted _ (Sim.externals o) (Some change) = true \/ Sim.build o "a1" = true ->
       r = (currentRef change, CurrentRevision change) /\
       Sim.HEAD (world w') = "a1" /\
       CLs w' !! 0%nat = Some (integrated change cl) /\
       forall j, j <> 0%nat -> CLs w' !! j = CLs w !! j).
Proof.
  intros o w cl change.
  assert (CLs w !! 0%nat = Some cl) as H1 by (vm_compute; reflexivity).
  assert (Commit cl <> "") as H2 by (vm_compute; discriminate).
  assert (Sim.pick o (Sim.HEAD (world w)) (Commit cl) = Some "p1") as H3
    by (vm_compute; reflexivity).
  assert (ReleaseBranchGerrit cl = Some change) as H4 by (vm_compute; reflexivity).
  assert (Sim.resolve (Sim.gerrit (world w)) (currentRef change) = Some "a1") as H5
    by (vm_compute; reflexivity).
  assert (parseTreeAndParent (Sim.object o "a1") = Some ("t1", "base")) as H6
    by (vm_compute; reflexivity).
  assert (parseTreeAndParent (Sim.object o (Sim.amend o (Sim.clock (world w)) "p1"))
          = Some ("t1", "base")) as H7 by (vm_compute; reflexivity).
  repeat (split; [assumption|]).
  pose proof (cherryPickCL_matching_candidate o "" "" 0 cl w "p1" "a1" change
                ("t1", "base") H1 H2 H3 H4 H5 H6 H7) as Hrun.
  exact Hrun.
Defined.

(** C1 as written fails: in the second run over the demo batch the commit
    applied for [c1] has the fingerprint of the pending change, whose
    TryBot-Result vote is 0, and make.bash is run all the same. *)
Lemma matching_candidate_still_built :
  let o := Demo.oracle 0 in
  let w := Demo.second 0 in
  let cl := Demo.cl1 0 in
  CLs w !! 0%nat = Some cl /\
  ReleaseBranchGerrit cl = Some (Demo.change1 0) /\
  Sim.resolve (Sim.gerrit (world w)) (currentRef (Demo.change1 0)) = Some "a1" /\
  Sim.pick o (Sim.HEAD (world w)) (Commit cl) = Some "p1" /\
  parseTreeAndParent (Sim.object o "a1")
    = parseTreeAndParent (Sim.object o (Sim.amend o (Sim.clock (world w)) "p1")) /\
  match @cherryPickCL _ (Sim.externals o) "" "" 0 cl w with
  | Ok (_, w') =>
      reuses (log w') = 1%nat /\ builds (log w') = 1%nat /\
      Exec ["./make.bash"] ∈ log w'
  | _ => False
  end.
Proof.
  intros o w cl.
  do 5 (split; [vm_compute; reflexivity|]).
  vm_compute. split; [reflexivity|]. split; [reflexivity|].
  apply list_elem_of_In. cbn. tauto.
Qed.

(** C2 as written fails: the first run over the demo batch uploads both
    CLs without any failure; Gerrit reports TryBot-Result 0 for them; the
    second run reuses both and still runs make.bash twice. *)
Lemma second_run_still_builds :
  match Demo.first 0 with
  | Ok (_, w1) =>
      failures (log w1) = 0%nat /\ uploads (log w1) = 2%nat /\
      match @cherryPickCLs _ (Sim.externals (Demo.oracle 0)) (rerun "base" w1) with
      | Ok (_, w2) =>
          reuses (log w2) = 2%nat /\ uploads (log w2) = 0%nat /\ builds (log w2) = 2%nat
      | _ => False
      end
  | _ => False
  end.
Proof. vm_compute. split; [reflexivity|]. split; [reflexivity|]. repeat split. Qed.

(** ** cherryPickCLs: units that are skipped or do not apply *)

Lemma cherryPickLoop_step `{!Externals World} (n k : nat) (lastRef lastCommit : string)
    (w : Work World) (cl : CL) :
  CLs w !! k = Some cl ->
  cherryPickLoop (S n) k lastRef lastCommit w =
    bind (cherryPickCL lastRef lastCommit k cl)
         (fun r => cherryPickLoop n (S k) r.1 r.2) w.
Proof.
  intros Hk. cbn [cherryPickLoop]. unfold mbind, M_bind, bind at 1, getCLs.
  rewrite Hk. unfold bind. destruct (cherryPickCL _ _ _ _ _) as [[[r1 r2] w']| |]; done.
Qed.

(** A CL without a commit is passed over: two log lines, no command, and
    the loop goes on in the same world with the same pointers. *)
Lemma cherryPickCL_skip `{!Externals World} (lastRef lastCommit : string) (k : nat)
    (cl : CL) (w : Work World) :
  Commit cl = "" ->
  cherryPickCL lastRef lastCommit k cl w =
    Ok ((lastRef, lastCommit),
        extend w (world w) [WLog "# CL %d\n" [AInt (Num cl)];
                            WLog "SKIP - missing commit\n" []]).
Proof.
  intros Hc. unfold cherryPickCL. rewrite Hc. cbn [String.eqb].
  unfold mbind, M_bind, mret, M_ret, bind, emit, ret, extend.
  cbn [world CLs ReleaseBranch log]. by rewrite <-app_assoc.
Qed.

(** A batch in which no CL has a commit leaves the checkout, Gerrit and the
    CLs alone: [cherryPickCLs] runs no command at all and only writes two
    log lines per CL. *)
Theorem cherryPickCLs_all_skipped `{!Externals World} (w : Work World) :
  Forall (fun cl => Commit cl = "") (CLs w) ->
  exists evs,
    cherryPickCLs w = Ok (tt, extend w (world w) evs) /\
    length evs = (2 * length (CLs w))%nat /\
    Forall (fun e => exists format args, e = WLog format args) evs.
Proof.
  intros Hall. unfold cherryPickCLs, mbind, M_bind, bind, getReleaseBranch, getCLs.
  generalize (ReleaseBranch w) at 1 as lastRef.
  generalize ("origin/" +:+ ReleaseBranch w) as lastCommit.
  assert (forall n k lastRef lastCommit (w0 : Work World),
    CLs w0 = CLs w -> (n + k = length (CLs w))%nat ->
    exists evs, cherryPickLoop n k lastRef lastCommit w0 = Ok (tt, extend w0 (world w0) evs) /\
      length evs = (2 * n)%nat /\
      Forall (fun e => exists format args, e = WLog format args) evs) as Hloop.
  { induction n as [|n IH]; intros k lastRef lastCommit w0 Hcls Hlen.
    - exists []. split; [|by split].
      unfold extend. rewrite app_nil_r. by destruct w0.
    - destruct (lookup_lt_is_Some_2 (CLs w) k ltac:(lia)) as [cl Hk].
      rewrite <-Hcls in Hk. rewrite (cherryPickLoop_step n k _ _ w0 cl Hk).
      assert (Commit cl = "") as Hc.
      { rewrite Forall_forall in Hall. apply Hall. rewrite <-Hcls.
        by eapply list_elem_of_lookup_2. }
      rewrite (bind_step _ _ _ _ _ (cherryPickCL_skip lastRef lastCommit k cl w0 Hc)).
      cbn [fst snd].
      destruct (IH (S k) lastRef lastCommit
                  (extend w0 (world w0) [WLog "# CL %d\n" [AInt (Num cl)];
                                         WLog "SKIP - missing commit\n" []]))
        as (evs & -> & Hlen' & Hev); [done|lia|].
      eexists (_ :: _ :: evs). split; [|split].
      + unfold extend. cbn [world CLs ReleaseBranch log]. by rewrite <-app_assoc.
      + cbn. lia.
      + repeat (constructor; [by eauto|]). done. }
  intros lastCommit lastRef. apply Hloop; [done|lia].
Qed.

Lemma cherryPickCL_conflict `{!Externals World} (lastRef lastCommit : string) (k : nat)
    (cl : CL) (w : Work World) (x x' : World) (out e : string) :
  Commit cl <> "" ->
  runErr ["git"; "cherry-pick"; Commit cl] (world w) = (x, (out, Some e)) ->
  run ["git"; "cherry-pick"; "--abort"] x = Some x' ->
  cherryPickCL lastRef lastCommit k cl w =
    Ok ((lastRef, lastCommit), extend w x' (eventsConflict lastRef lastCommit cl)).
Proof.
  intros Hc Hpick Habort. apply String.eqb_neq in Hc.
  unfold cherryPickCL. rewrite Hc.
  unfold mbind, M_bind, mret, M_ret, bind, emit, w_runErr, logError, emit, w_run, ret,
    extend, eventsConflict.
  cbn [world CLs ReleaseBranch log]. rewrite Hpick.
  cbn [world CLs ReleaseBranch log fmap option_fmap option_map]. rewrite Habort.
  by rewrite <-!app_assoc.
Qed.

(** A cherry-pick that fails is recorded against its CL, with the recipe to
    reproduce it, and aborted; no CL is written to, the pointers used in
    later reports stay, and the loop goes on with the next CL. *)
Theorem cherryPickLoop_conflict_goes_on `{!Externals World} (n k : nat)
    (lastRef lastCommit : string) (w : Work World) (cl : CL)
    (x x' : World) (out e : string) :
  CLs w !! k = Some cl -> Commit cl <> "" ->
  runErr ["git"; "cherry-pick"; Commit cl] (world w) = (x, (out, Some e)) ->
  run ["git"; "cherry-pick"; "--abort"] x = Some x' ->
  cherryPickLoop (S n) k lastRef lastCommit w =
    cherryPickLoop n (S k) lastRef lastCommit
      (extend w x' (eventsConflict lastRef lastCommit cl)).
Proof.
  intros Hk Hc Hpick Habort. rewrite (cherryPickLoop_step n k _ _ w cl Hk).
  by rewrite (bind_step _ _ _ _ _
                (cherryPickCL_conflict lastRef lastCommit k cl w x x' out e Hc Hpick Habort)).
Qed.

(** When the abort of a failed cherry-pick fails too, the whole run stops
    with a panic. *)
Theorem cherryPickLoop_abort_fails `{!Externals World} (n k : nat)
    (lastRef lastCommit : string) (w : Work World) (cl : CL)
    (x : World) (out e : string) :
  CLs w !! k = Some cl -> Commit cl <> "" ->
  runErr ["git"; "cherry-pick"; Commit cl] (world w) = (x, (out, Some e)) ->
  run ["git"; "cherry-pick"; "--abort"] x = None ->
  isPanic (cherryPickLoop (S n) k lastRef lastCommit w).
Proof.
  intros Hk Hc Hpick Habort. rewrite (cherryPickLoop_step n k _ _ w cl Hk).
  apply String.eqb_neq in Hc.
  unfold bind at 1. unfold cherryPickCL. rewrite Hc.
  unfold mbind, M_bind, mret, M_ret, bind, emit, w_runErr, logError, emit, w_run, ret.
  cbn [world CLs ReleaseBranch log]. rewrite Hpick.
  cbn [world CLs ReleaseBranch log fmap option_fmap option_map]. rewrite Habort.
  unfold isPanic. eauto.
Qed.

Lemma cherryPickCLs_all_skipped_witness :
  let w := Demo.work Demo.unpicked Demo.start in
  Forall (fun cl => Commit cl = "") (CLs w) /\
  exists evs,
    @cherryPickCLs _ (Sim.externals (Demo.oracle 0)) w = Ok (tt, extend w (world w) evs) /\
    length evs = (2 * length (CLs w))%nat /\
    Forall (fun e => exists format args, e = WLog format args) evs.
Proof.
  intros w.
  assert (Forall (fun cl => Commit cl = "") (CLs w)) as H1 by (repeat constructor).
  split; [exact H1|].
  pose proof (@cherryPickCLs_all_skipped _ (Sim.externals (Demo.oracle 0)) w H1) as Hrun.
  exact Hrun.
Defined.

Lemma cherryPickLoop_conflict_goes_on_witness :
  let E := Sim.externals (Demo.oracle 0) in
  let w := Demo.work Demo.conflicting Demo.start in
  let cl := Demo.cl 9 "zz" in
  CLs w !! 0%nat = Some cl /\ Commit cl <> "" /\
  @runErr _ E ["git"; "cherry-pick"; Commit cl] (world w)
    = (Demo.start, ("", Some "exit status 1")) /\
  @run _ E ["git"; "cherry-pick"; "--abort"] Demo.start = Some Demo.start /\
  @cherryPickLoop _ E 2 0 "r" "c" w =
    @cherryPickLoop _ E 1 1 "r" "c" (extend w Demo.start (eventsConflict "r" "c" cl)).
Proof.
  intros E w cl.
  assert (CLs w !! 0%nat = Some cl) as H1 by reflexivity.
  assert (Commit cl <> "") as H2 by discriminate.
  assert (@runErr _ E ["git"; "cherry-pick"; Commit cl] (world w)
          = (Demo.start, ("", Some "exit status 1"))) as H3 by (vm_compute; reflexivity).
  assert (@run _ E ["git"; "cherry-pick"; "--abort"] Demo.start = Some Demo.start) as H4
    by (vm_compute; reflexivity).
  repeat (split; [assumption|]).
  pose proof (@cherryPickLoop_conflict_goes_on _ E 1 0 "r" "c" w cl Demo.start Demo.start
                "" "exit status 1" H1 H2 H3 H4) as Hrun.
  exact Hrun.
Defined.

Lemma cherryPickLoop_abort_fails_witness :
  let w := mkWork Demo.conflicting "release-branch.go1.9" tt [] in
  let cl := Demo.cl 9 "zz" in
  CLs w !! 0%nat = Some cl /\ Commit cl <> "" /\
  @runErr _ Demo.broken ["git"; "cherry-pick"; Commit cl] (world w)
    = (tt, ("", Some "exit status 127")) /\
  @run _ Demo.broken ["git"; "cherry-pick"; "--abort"] tt = None /\
  isPanic (@cherryPickLoop _ Demo.broken 2 0 "r" "c" w).
Proof.
  intros w cl.
  assert (CLs w !! 0%nat = Some cl) as H1 by reflexivity.
  assert (Commit cl <> "") as H2 by discriminate.
  repeat (split; [done|]).
  pose proof (@cherryPickLoop_abort_fails _ Demo.broken 1 0 "r" "c" w cl tt
                "" "exit status 127" H1 H2 eq_refl eq_refl) as Hrun.
  exact Hrun.
Defined.

(** ** cherryPickCLs: what it leaves alone *)

Lemma sameRequest_refl (a : CL) : sameRequest a a.
Proof. by repeat split. Qed.

Lemma sameRequest_trans (a b c : CL) : sameRequest a b -> sameRequest b c -> sameRequest a c.
Proof.
  intros (?&?&?&?&?) (?&?&?&?&?). repeat split; congruence.
Qed.

Lemma Forall2_sameRequest_refl (l : list CL) : Forall2 sameRequest l l.
Proof. induction l; constructor; [apply sameRequest_refl|done]. Qed.

Lemma Forall2_sameRequest_alter (f : CL -> CL) (i : nat) (l : list CL) :
  (forall x, sameRequest x (f x)) -> Forall2 sameRequest l (alter f i l).
Proof.
  intros Hf. revert i. induction l as [|x l IH]; intros i; [constructor|].
  destruct i as [|i]; cbn.
  - constructor; [apply Hf|apply Forall2_sameRequest_refl].
  - constructor; [apply sameRequest_refl|apply IH].
Qed.

Lemma Frame_refl {World} (w : Work World) : Frame w w.
Proof.
  split; [done|]. split; [apply Forall2_sameRequest_refl|].
  exists []. by rewrite app_nil_r.
Qed.

Lemma Frame_trans {World} (w1 w2 w3 : Work World) : Frame w1 w2 -> Frame w2 w3 -> Frame w1 w3.
Proof.
  intros (Hb1 & Hc1 & evs1 & Hl1) (Hb2 & Hc2 & evs2 & Hl2).
  split; [congruence|]. split.
  - eapply Forall2_trans; [|exact Hc1|exact Hc2]. apply sameRequest_trans.
  - exists (evs1 ++ evs2). by rewrite Hl2, Hl1, <-app_assoc.
Qed.

Lemma Frame_extend {World} (w : Work World) (x : World) (evs : list Event) :
  Frame w (mkWork (CLs w) (ReleaseBranch w) x (log w ++ evs)).
Proof.
  split; [done|]. split; [apply Forall2_sameRequest_refl|]. by exists evs.
Qed.

Lemma Frame_world {World} (w : Work World) (x : World) :
  Frame w (mkWork (CLs w) (ReleaseBranch w) x (log w)).
Proof.
  split; [done|]. split; [apply Forall2_sameRequest_refl|].
  exists []. by rewrite app_nil_r.
Qed.

Section Keeps.
Context {World : Type} `{!Externals World}.

Section Relation.
Context (R : Work World -> Work World -> Prop).
Hypothesis R_refl : forall w, R w w.
Hypothesis R_trans : forall w1 w2 w3, R w1 w2 -> R w2 w3 -> R w1 w3.

Lemma Keeps_ret {A} (a : A) : Keeps R (mret a : M World A).
Proof. intros w a' w' [= _ <-]. apply R_refl. Qed.

Lemma Keeps_panic {A} (format : string) (args : list Arg) :
  Keeps R (panic format args : M World A).
Proof. intros w a w' [=]. Qed.

Lemma Keeps_bind {A B} (m : M World A) (k : A -> M World B) :
  Keeps R m -> (forall a, Keeps R (k a)) -> Keeps R (mbind k m).
Proof.
  intros Hm Hk w b w'. unfold mbind, M_bind, bind.
  destruct (m w) as [[a w1]| |] eqn:Hw; [|done|done].
  intros Hb. eapply R_trans; [by eapply Hm|by eapply Hk].
Qed.

Lemma Keeps_getCLs : Keeps R (getCLs : M World (list CL)).
Proof. intros w a w' [= _ <-]. apply R_refl. Qed.

Lemma Keeps_getReleaseBranch : Keeps R (getReleaseBranch : M World string).
Proof. intros w a w' [= _ <-]. apply R_refl. Qed.

(** What holds of every return of the loop body holds of the loop. *)
Lemma Keeps_cherryPickLoop (n i : nat) (lastRef lastCommit : string) :
  (forall lastRef lastCommit i cl, Keeps R (cherryPickCL lastRef lastCommit i cl)) ->
  Keeps R (cherryPickLoop n i lastRef lastCommit).
Proof.
  intros Hbody. revert i lastRef lastCommit.
  induction n as [|n IH]; intros i lastRef lastCommit;
    cbn [cherryPickLoop]; [apply Keeps_ret|].
  apply Keeps_bind; [apply Keeps_getCLs|]. intros cls.
  destruct (cls !! i) as [cl|]; [|apply Keeps_ret].
  apply Keeps_bind; [apply Hbody|]. intros [lastRef' lastCommit']. apply IH.
Qed.

Lemma Keeps_cherryPickCLs :
  (forall lastRef lastCommit i cl, Keeps R (cherryPickCL lastRef lastCommit i cl)) ->
  Keeps R cherryPickCLs.
Proof.
  intros Hbody. unfold cherryPickCLs.
  apply Keeps_bind; [apply Keeps_getReleaseBranch|]. intros releaseBranch.
  apply Keeps_bind; [apply Keeps_getCLs|]. intros cls.
  by apply Keeps_cherryPickLoop.
Qed.

End Relation.

Lemma Keeps_emit (e : Event) : Keeps Frame (emit e : M World unit).
Proof. intros w a w' [= _ <-]. apply Frame_extend. Qed.

Lemma Keeps_logError (cl : option CL) (msg : string) : Keeps Frame (logError cl msg : M World unit).
Proof. apply Keeps_emit. Qed.

Lemma Keeps_run (args : list string) : Keeps Frame (w_run args).
Proof.
  intros w a w'. unfold w_run. destruct (run _ _); [|done].
  intros [= _ <-]. apply Frame_extend.
Qed.

Lemma Keeps_runErr (args : list string) : Keeps Frame (w_runErr args).
Proof.
  intros w a w'. unfold w_runErr. destruct (runErr _ _) as [x r].
  intros [= _ <-]. apply Frame_extend.
Qed.

Lemma Keeps_runOut (args : list string) : Keeps Frame (w_runOut args).
Proof.
  intros w a w'. unfold w_runOut. destruct (runOut _ _) as [[x out]|]; [|done].
  intros [= _ <-]. apply Frame_extend.
Qed.

Lemma Keeps_execCommand (args : list string) : Keeps Frame (execCommand args).
Proof.
  intros w a w'. unfold execCommand. destruct (CombinedOutput _ _) as [x r].
  intros [= _ <-]. apply Frame_extend.
Qed.

Lemma Keeps_gerritQueryChanges (q : string) : Keeps Frame (gerritQueryChanges q).
Proof. intros w a w' [= _ <-]. apply Frame_extend. Qed.

Lemma Keeps_updateSummary : Keeps Frame w_updateSummary.
Proof. intros w a w' [= _ <-]. apply Frame_world. Qed.

Lemma Keeps_modifyCL (i : nat) (f : CL -> CL) :
  (forall x, sameRequest x (f x)) -> Keeps Frame (modifyCL i f : M World unit).
Proof.
  intros Hf w a w' [= _ <-]. split; [done|]. split.
  - by apply Forall2_sameRequest_alter.
  - exists []. by rewrite app_nil_r.
Qed.

Ltac keeps :=
  repeat first
    [ solve [auto]
    | apply (Keeps_bind Frame Frame_trans)
    | apply (Keeps_ret Frame Frame_refl)
    | apply Keeps_panic
    | apply Keeps_emit
    | apply Keeps_logError
    | apply Keeps_run
    | apply Keeps_runErr
    | apply Keeps_runOut
    | apply Keeps_execCommand
    | apply Keeps_gerritQueryChanges
    | apply Keeps_updateSummary
    | apply (Keeps_getCLs Frame Frame_refl)
    | apply (Keeps_getReleaseBranch Frame Frame_refl)
    | apply Keeps_modifyCL; intros ?; by repeat split
    | match goal with
      | |- forall _, Keeps _ _ => intros ?
      | |- Keeps _ (match ?x with _ => _ end) => destruct x
      end ].

Lemma Keeps_treeAndParentOfCommit (commit : string) : Keeps Frame (treeAndParentOfCommit commit).
Proof. unfold treeAndParentOfCommit. keeps. Qed.

Lemma Keeps_topGerritCL : Keeps Frame topGerritCL.
Proof. unfold topGerritCL. keeps. Qed.

Lemma Keeps_checkGerrit (i : nat) (cl : CL) : Keeps Frame (checkGerrit i cl).
Proof.
  unfold checkGerrit. pose proof Keeps_treeAndParentOfCommit. keeps.
Qed.

Lemma Keeps_buildGate (lastRef lastCommit : string) (cl : CL) (change : option ChangeInfo) :
  Keeps Frame (buildGate lastRef lastCommit cl change).
Proof. unfold buildGate. keeps. Qed.

Lemma Keeps_pushToGerrit (i : nat) (cl : CL) (change : option ChangeInfo) :
  Keeps Frame (pushToGerrit i cl change).
Proof. unfold pushToGerrit. pose proof Keeps_topGerritCL. keeps. Qed.

Lemma Keeps_cherryPickCL (lastRef lastCommit : string) (i : nat) (cl : CL) :
  Keeps Frame (cherryPickCL lastRef lastCommit i cl).
Proof.
  unfold cherryPickCL.
  pose proof Keeps_checkGerrit. pose proof Keeps_buildGate. pose proof Keeps_pushToGerrit.
  keeps.
Qed.

(** Whatever the commands and Gerrit answer, a run of [cherryPickCLs] that
    returns has kept the release branch name, has kept every CL in its
    place with its number, ref, commit, rank and prerequisites (only
    [ReleaseBranchCL] and [ReleaseBranchGerrit] are ever written), and has
    only added to the log. *)
Theorem cherryPickCLs_frame (w w' : Work World) :
  cherryPickCLs w = Ok (tt, w') ->
  Frame w w' /\ length (CLs w') = length (CLs w).
Proof.
  intros Hrun.
  assert (Frame w w') as Hframe.
  { eapply (Keeps_cherryPickCLs Frame Frame_refl Frame_trans); [|done].
    apply Keeps_cherryPickCL. }
  split; [done|]. destruct Hframe as (_ & Hcls & _). symmetry. by eapply Forall2_length.
Qed.

End Keeps.

(** ** cherryPickCLs on the simulated repository: what reaches Gerrit *)

Lemma bind_Ok_inv {World A B} (m : M World A) (k : A -> M World B)
    (w w' : Work World) (b : B) :
  bind m k w = Ok (b, w') -> exists a w1, m w = Ok (a, w1) /\ k a w1 = Ok (b, w').
Proof.
  unfold bind. destruct (m w) as [[a w1]| |]; [|done|done]. intros Hk. by exists a, w1.
Qed.

Lemma isPanic_not_Ok {A} (r : Result A) (a : A) : isPanic r -> r = Ok a -> False.
Proof. intros (format & args & ->). done. Qed.

Section Uploads.
Context (o : Sim.Oracle).
Local Notation "'E'" := (Sim.externals o).

Lemma UploadsBuilt_same (w w' : Work Sim.State) :
  Sim.gerrit (world w') = Sim.gerrit (world w) -> UploadsBuilt o w w'.
Proof. intros Hg. exists []. split; [by rewrite app_nil_r|constructor]. Qed.

Lemma UploadsBuilt_refl (w : Work Sim.State) : UploadsBuilt o w w.
Proof. by apply UploadsBuilt_same. Qed.

Lemma UploadsBuilt_trans (w1 w2 w3 : Work Sim.State) :
  UploadsBuilt o w1 w2 -> UploadsBuilt o w2 w3 -> UploadsBuilt o w1 w3.
Proof.
  intros (n1 & H1 & F1) (n2 & H2 & F2). exists (n1 ++ n2). split.
  - by rewrite H2, H1, <-app_assoc.
  - by apply Forall_app.
Qed.

Lemma checkGerrit_sim_Ok (i : nat) (cl : CL) (w w1 : Work Sim.State)
    (c : option ChangeInfo) :
  @checkGerrit _ E i cl w = Ok (c, w1) ->
  Sim.gerrit (world w1) = Sim.gerrit (world w) /\
  (c = None -> Sim.HEAD (world w1) = Sim.HEAD (world w)).
Proof.
  intros Hrun. pose proof (checkGerrit_sim o i cl w) as Hc. cbn zeta in Hc.
  destruct (ReleaseBranchGerrit cl) as [change|].
  - destruct (Sim.resolve _ _) as [f|]; [|by destruct (isPanic_not_Ok _ _ Hc Hrun)].
    destruct (parseTreeAndParent (Sim.object o f)) as [tp1|];
      [|by destruct (isPanic_not_Ok _ _ Hc Hrun)].
    destruct (parseTreeAndParent (Sim.object o (Sim.HEAD (world w)))) as [tp2|];
      [|by destruct (isPanic_not_Ok _ _ Hc Hrun)].
    destruct (sameFingerprint tp1 tp2); rewrite Hc in Hrun; injection Hrun as <- <-; done.
  - rewrite Hc in Hrun. injection Hrun as <- <-. done.
Qed.

Lemma buildGate_sim_Ok (lastRef lastCommit : string) (cl : CL) (c : option ChangeInfo)
    (w w1 : Work Sim.State) (ok : bool) :
  @buildGate _ E lastRef lastCommit cl c w = Ok (ok, w1) ->
  Sim.gerrit (world w1) = Sim.gerrit (world w) /\
  (ok = true ->
     Sim.HEAD (world w1) = Sim.HEAD (world w) /\
     (c = None -> Sim.build o (Sim.HEAD (world w)) = true)).
Proof.
  intros Hrun. pose proof (buildGate_sim o lastRef lastCommit cl c w) as Hg. cbn zeta in Hg.
  destruct (@trusted _ E c) eqn:Htrusted.
  - rewrite Hg in Hrun. injection Hrun as <- <-. split; [done|]. intros _. split; [done|].
    intros ->. done.
  - destruct (Sim.build o (Sim.HEAD (world w))).
    + rewrite Hg in Hrun. injection Hrun as <- <-. done.
    + destruct (Sim.firstParent _) as [p|]; [|by destruct (isPanic_not_Ok _ _ Hg Hrun)].
      rewrite Hg in Hrun. injection Hrun as <- <-. done.
Qed.

Lemma pushToGerrit_sim_Ok (i : nat) (cl : CL) (c : option ChangeInfo)
    (w w1 : Work Sim.State) (r : string * string) :
  @pushToGerrit _ E i cl c w = Ok (r, w1) ->
  match c with
  | Some _ => world w1 = world w
  | None =>
      Sim.HEAD (world w1) = Sim.HEAD (world w) /\
      Sim.gerrit (world w1) = Sim.gerrit (world w) ++ [Sim.upload o (Sim.HEAD (world w))]
  end.
Proof.
  intros Hrun. pose proof (pushToGerrit_sim o i cl c w) as Hp. cbn zeta in Hp.
  destruct c as [c|].
  - rewrite Hp in Hrun. by injection Hrun as <- <-.
  - destruct (filter _ _) as [|c [|c' rest]];
      [by destruct (isPanic_not_Ok _ _ Hp Hrun)| |by destruct (isPanic_not_Ok _ _ Hp Hrun)].
    rewrite Hp in Hrun. by injection Hrun as <- <-.
Qed.

Lemma afterApply_uploads_built (lastRef lastCommit : string) (i : nat) (cl : CL) :
  Keeps (UploadsBuilt o) (@afterApply _ E lastRef lastCommit i cl).
Proof.
  intros w r w' Hrun. unfold afterApply, mbind, M_bind in Hrun.
  apply bind_Ok_inv in Hrun as (c & w1 & Hcheck & Hrun).
  apply bind_Ok_inv in Hrun as (ok & w2 & Hgate & Hrun).
  apply checkGerrit_sim_Ok in Hcheck as [Hg1 Hh1].
  apply buildGate_sim_Ok in Hgate as [Hg2 Hh2].
  destruct ok.
  - apply pushToGerrit_sim_Ok in Hrun. destruct (Hh2 eq_refl) as [Hh3 Hbuild].
    destruct c as [c|].
    + apply UploadsBuilt_same. by rewrite Hrun, Hg2, Hg1.
    + destruct Hrun as [_ Hup]. exists [Sim.upload o (Sim.HEAD (world w2))].
      rewrite Hup, Hg2, Hg1. split; [done|].
      constructor; [|constructor]. exists (Sim.HEAD (world w2)). split; [done|].
      rewrite Hh3. by apply Hbuild.
  - injection Hrun as <- <-. apply UploadsBuilt_same. by rewrite Hg2, Hg1.
Qed.

Lemma cherryPickCL_uploads_built (lastRef lastCommit : string) (i : nat) (cl : CL) :
  Keeps (UploadsBuilt o) (@cherryPickCL _ E lastRef lastCommit i cl).
Proof.
  intros w r w' Hrun.
  pose proof (cherryPickCL_applied o lastRef lastCommit i cl w) as Hbody. cbn zeta in Hbody.
  destruct (String.eqb (Commit cl) "").
  { rewrite Hbody in Hrun. injection Hrun as <- <-. by apply UploadsBuilt_same. }
  destruct (Sim.pick o _ _) as [h|].
  - rewrite Hbody in Hrun. apply afterApply_uploads_built in Hrun.
    destruct Hrun as (new & Hnew & Hall). by exists new.
  - rewrite Hbody in Hrun. injection Hrun as <- <-. by apply UploadsBuilt_same.
Qed.

(** On the simulated repository, a run of [cherryPickCLs] that returns has
    removed or changed nothing on Gerrit, and every change it has added is
    the upload of a commit on which make.bash passed: a cherry-pick that
    does not build is never mailed. *)
Theorem cherryPickCLs_uploads_only_what_builds (w w' : Work Sim.State) :
  @cherryPickCLs _ E w = Ok (tt, w') ->
  exists new,
    Sim.gerrit (world w') = Sim.gerrit (world w) ++ new /\
    forall c, c ∈ new ->
      exists commit, c = Sim.upload o commit /\ Sim.build o commit = true.
Proof.
  intros Hrun.
  destruct (@Keeps_cherryPickCLs _ E (UploadsBuilt o) UploadsBuilt_refl UploadsBuilt_trans
              cherryPickCL_uploads_built w tt w' Hrun) as (new & Hnew & Hall).
  exists new. split; [done|]. by apply Forall_forall.
Qed.

End Uploads.

Section Rollback.
Context (o : Sim.Oracle).
Local Notation "'E'" := (Sim.externals o).

(** On the simulated repository, under the law of cherry-picks: when a CL
    without a pending Gerrit change applies cleanly but make.bash fails on
    the result, the loop body returns normally with the branch back on the
    commit it stood on before the cherry-pick; the failure is recorded
    against the CL, nothing is uploaded, no CL is written to and the
    pointers used in later reports stay. *)
Theorem cherryPickCL_failed_build_rolls_back (lastRef lastCommit : string) (i : nat)
    (cl : CL) (w : Work Sim.State) (h : string) :
  let s := world w in
  CherryPickLaw o ->
  Commit cl <> "" -> ReleaseBranchGerrit cl = None ->
  Sim.pick o (Sim.HEAD s) (Commit cl) = Some h ->
  Sim.build o (Sim.amend o (Sim.clock s) h) = false ->
  exists w' evs,
    @cherryPickCL _ E lastRef lastCommit i cl w = Ok ((lastRef, lastCommit), w') /\
    Sim.HEAD (world w') = Sim.HEAD s /\
    Sim.gerrit (world w') = Sim.gerrit s /\
    CLs w' = CLs w /\
    log w' = log w ++ evs /\
    LogError (Some (Num cl)) (makeBashFailed lastRef lastCommit cl) ∈ evs /\
    builds evs = 1%nat /\ uploads evs = 0%nat.
Proof.
  intros s Hlaw Hcommit Hnone Hpick Hbuild. subst s.
  pose proof (cherryPickCL_applied o lastRef lastCommit i cl w) as Hbody. cbn zeta in Hbody.
  apply String.eqb_neq in Hcommit. rewrite Hcommit, Hpick in Hbody. rewrite Hbody.
  destruct (law_fingerprint o _ _ _ Hlaw Hpick) as (tree & Hall).
  destruct (Hall (Sim.clock (world w))) as (_ & Hparent & _).
  pose proof (checkGerrit_sim o i cl (applied o w cl h)) as Hcheck. cbn zeta in Hcheck.
  rewrite Hnone in Hcheck.
  unfold afterApply, mbind, M_bind. rewrite (bind_step _ _ _ _ _ Hcheck).
  pose proof (buildGate_sim o lastRef lastCommit cl None
                (extend (applied o w cl h) (world (applied o w cl h)) (eventsNoGerrit cl)))
    as Hgate.
  cbn zeta in Hgate.
  cbn [trusted applied extend world Sim.HEAD Sim.FETCH_HEAD Sim.clock Sim.gerrit] in Hgate.
  rewrite Hbuild, Hparent in Hgate.
  cbn [applied extend world] in *.
  rewrite (bind_step _ _ _ _ _ Hgate).
  eexists _, _. split; [reflexivity|].
  cbn [applied extend world CLs log Sim.HEAD Sim.gerrit].
  split; [done|]. split; [done|]. split; [done|].
  split; [rewrite <-!app_assoc; reflexivity|].
  split; [apply list_elem_of_In; cbn; tauto|].
  split; reflexivity.
Qed.

End Rollback.

Lemma Demo_law (v : Z) : CherryPickLaw (Demo.oracle v).
Proof.
  intros tip commit h Hpick. cbn [Sim.pick Demo.oracle] in Hpick. unfold Demo.pick in Hpick.
  destruct (String.eqb tip "base" && String.eqb commit "c1") eqn:H1.
  { apply andb_true_iff in H1 as [->%String.eqb_eq ->%String.eqb_eq]. injection Hpick as <-.
    split; [done|]. exists "t1"%string. split; [done|]. intros time.
    cbn [Sim.amend Sim.object Demo.oracle]. unfold Demo.amend. cbn [String.eqb Ascii.eqb Bool.eqb].
    destruct (Nat.eqb time 0); vm_compute; done. }
  destruct (String.eqb tip "a1" && String.eqb commit "c2") eqn:H2.
  { apply andb_true_iff in H2 as [->%String.eqb_eq ->%String.eqb_eq]. injection Hpick as <-.
    split; [done|]. exists "t2"%string. split; [done|]. intros time.
    cbn [Sim.amend Sim.object Demo.oracle]. unfold Demo.amend.
    change (String.eqb "p2" "p1") with false. change (String.eqb "p2" "p2") with true.
    cbn iota. destruct (Nat.eqb time 1); vm_compute; done. }
  destruct (String.eqb tip "base" && String.eqb commit "c3") eqn:H3; [|done].
  apply andb_true_iff in H3 as [->%String.eqb_eq ->%String.eqb_eq]. injection Hpick as <-.
  split; [done|]. exists "t3"%string. split; [done|]. intros time.
  vm_compute. done.
Qed.

Lemma cherryPickCL_failed_build_rolls_back_witness :
  let o := Demo.oracle 0 in
  let cl := Demo.cl 3 "c3" in
  let w := Demo.work [cl] Demo.start in
  CherryPickLaw o /\
  Commit cl <> "" /\ ReleaseBranchGerrit cl = None /\
  Sim.pick o (Sim.HEAD (world w)) (Commit cl) = Some "p3" /\
  Sim.build o (Sim.amend o (Sim.clock (world w)) "p3") = false /\
  exists w' evs,
    @cherryPickCL _ (Sim.externals o) "r" "c" 0 cl w = Ok (("r", "c"), w') /\
    Sim.HEAD (world w') = Sim.HEAD (world w) /\
    Sim.gerrit (world w') = Sim.gerrit (world w) /\
    CLs w' = CLs w /\
    log w' = log w ++ evs /\
    LogError (Some (Num cl)) (makeBashFailed "r" "c" cl) ∈ evs /\
    builds evs = 1%nat /\ uploads evs = 0%nat.
Proof.
  intros o cl w.
  assert (Commit cl <> "") as H2 by discriminate.
  assert (ReleaseBranchGerrit cl = None) as H3 by reflexivity.
  assert (Sim.pick o (Sim.HEAD (world w)) (Commit cl) = Some "p3") as H4
    by (vm_compute; reflexivity).
  assert (Sim.build o (Sim.amend o (Sim.clock (world w)) "p3") = false) as H5
    by (vm_compute; reflexivity).
  split; [exact (Demo_law 0)|].
  repeat (split; [assumption|]).
  pose proof (cherryPickCL_failed_build_rolls_back o "r" "c" 0 cl w "p3"
                (Demo_law 0) H2 H3 H4 H5) as Hrun.
  exact Hrun.
Defined.

Lemma cherryPickCLs_frame_witness :
  let E := Sim.externals (Demo.oracle 0) in
  let w := Demo.work Demo.twoCLs Demo.start in
  @cherryPickCLs _ E w = Ok (tt, Demo.finished 0) /\
  Frame w (Demo.finished 0) /\ length (CLs (Demo.finished 0)) = length (CLs w).
Proof.
  intros E w.
  assert (@cherryPickCLs _ E w = Ok (tt, Demo.finished 0)) as H1 by (vm_compute; reflexivity).
  split; [exact H1|].
  pose proof (@cherryPickCLs_frame _ E w (Demo.finished 0) H1) as Hrun.
  exact Hrun.
Defined.

Lemma cherryPickCLs_uploads_only_what_builds_witness :
  let o := Demo.oracle 0 in
  let w := Demo.work Demo.twoCLs Demo.start in
  @cherryPickCLs _ (Sim.externals o) w = Ok (tt, Demo.finished 0) /\
  exists new,
    Sim.gerrit (world (Demo.finished 0)) = Sim.gerrit (world w) ++ new /\
    forall c, c ∈ new ->
      exists commit, c = Sim.upload o commit /\ Sim.build o commit = true.
Proof.
  intros o w.
  assert (@cherryPickCLs _ (Sim.externals o) w = Ok (tt, Demo.finished 0)) as H1
    by (vm_compute; reflexivity).
  split; [exact H1|].
  pose proof (cherryPickCLs_uploads_only_what_builds o w (Demo.finished 0) H1) as Hrun.
  exact Hrun.
Defined.

(** ** orderCLs: batches it rejects *)

Lemma resolveOrder_not_Diverge (cls : list CL) : resolveOrder cls <> Diverge.
Proof. pose proof (resolveOrder_spec cls). by destruct (resolveOrder cls). Qed.

Lemma orderCLs_Ok_or_panic `{!Externals World} (w : Work World) :
  (forall w', orderCLs w <> Ok (tt, w')) -> isPanic (orderCLs w).
Proof.
  rewrite orderCLs_unfold. pose proof (resolveOrder_not_Diverge (sortSlice lessOrder (CLs w))).
  destruct (resolveOrder _) as [out|format args|]; [|by exists format, args|done].
  intros Hno. by destruct (Hno (mkWork out (ReleaseBranch w) (world w) (log w))).
Qed.

Lemma orderCLs_Ok_placed `{!Externals World} (w w' : Work World) :
  SortPermutes sortSlice ->
  orderCLs w = Ok (tt, w') ->
  CLs w' ≡ₚ CLs w /\
  forall k u p, CLs w' !! k = Some u -> p ∈ Prereq u ->
    exists k' c, (k' < k)%nat /\ CLs w' !! k' = Some c /\ Num c = p.
Proof.
  intros Hsort. rewrite orderCLs_unfold.
  pose proof (resolveOrder_spec (sortSlice lessOrder (CLs w))) as Hspec.
  destruct (resolveOrder _) as [out| |]; [|done|done].
  destruct Hspec as [Hperm Hbefore]. intros [= <-]. cbn [CLs].
  split; [by rewrite Hperm|done].
Qed.

(** A prerequisite that is not the number of any CL of the batch makes
    [orderCLs] panic, whatever the ranks are. *)
Theorem orderCLs_unknown_prerequisite_panics `{!Externals World} (w : Work World)
    (cl : CL) (p : Z) :
  SortPermutes sortSlice ->
  cl ∈ CLs w -> p ∈ Prereq cl -> (forall c, c ∈ CLs w -> Num c <> p) ->
  isPanic (orderCLs w).
Proof.
  intros Hsort Hcl Hp Hunknown. apply orderCLs_Ok_or_panic. intros w' Hrun.
  destruct (orderCLs_Ok_placed w w' Hsort Hrun) as [Hperm Hplaced].
  rewrite <-Hperm in Hcl. apply list_elem_of_lookup in Hcl as [k Hk].
  destruct (Hplaced k cl p Hk Hp) as (k' & c & _ & Hc & Hnum).
  apply (Hunknown c); [|done]. rewrite <-Hperm. by eapply list_elem_of_lookup_2.
Qed.

Lemma NoDup_Num_inj (cls : list CL) (a b : CL) :
  NoDup (Num <$> cls) -> a ∈ cls -> b ∈ cls -> Num a = Num b -> a = b.
Proof.
  intros Hnodup [i Hi]%list_elem_of_lookup [j Hj]%list_elem_of_lookup Hnum.
  assert (i = j) as ->; [|congruence].
  eapply NoDup_lookup; [exact Hnodup| |]; rewrite list_lookup_fmap.
  - by rewrite Hi.
  - rewrite Hj. cbn. by rewrite Hnum.
Qed.

(** When the numbers of the batch are distinct, a CL that requires itself,
    directly or through a chain of prerequisites, makes [orderCLs] panic. *)
Theorem orderCLs_cycle_panics `{!Externals World} (w : Work World) (a : CL) :
  SortPermutes sortSlice ->
  NoDup (Num <$> CLs w) ->
  tc (requires (CLs w)) a a ->
  isPanic (orderCLs w).
Proof.
  intros Hsort Hnodup Hcycle. apply orderCLs_Ok_or_panic. intros w' Hrun.
  destruct (orderCLs_Ok_placed w w' Hsort Hrun) as [Hperm Hplaced].
  assert (NoDup (Num <$> CLs w')) as Hnodup' by by rewrite Hperm.
  assert (forall x y, tc (requires (CLs w)) x y ->
            forall k, CLs w' !! k = Some x -> exists k', (k' < k)%nat /\ CLs w' !! k' = Some y)
    as Hdown.
  { intros x y Hxy. induction Hxy as [x y (Hx & Hy & Hreq)|x y z (Hx & Hy & Hreq) _ IH];
      intros k Hk.
    - destruct (Hplaced k x (Num y) Hk Hreq) as (k' & c & Hlt & Hc & Hnum).
      exists k'. split; [done|]. rewrite Hc. f_equal.
      apply (NoDup_Num_inj (CLs w')); [done|by eapply list_elem_of_lookup_2|by rewrite Hperm|done].
    - destruct (Hplaced k x (Num y) Hk Hreq) as (k' & c & Hlt & Hc & Hnum).
      assert (c = y) as ->.
      { apply (NoDup_Num_inj (CLs w')); [done|by eapply list_elem_of_lookup_2|by rewrite Hperm|done]. }
      destruct (IH k' Hc) as (k'' & Hlt' & Hz). exists k''. split; [lia|done]. }
  assert (a ∈ CLs w') as [k Hk]%list_elem_of_lookup.
  { rewrite Hperm. inversion Hcycle as [? ? (Ha & _)|? ? ? (Ha & _)]; done. }
  assert (forall n k, (k < n)%nat -> CLs w' !! k = Some a -> False) as Hwf.
  { induction n as [|n IH]; intros k0 Hlt Hk0; [lia|].
    destruct (Hdown a a Hcycle k0 Hk0) as (k' & Hlt' & Hk'). apply (IH k'); [lia|done]. }
  apply (Hwf (S k) k); [lia|done].
Qed.

(** ** orderCLs: prerequisites that agree with the ranks *)

Lemma mkClByNum_is_Some (cls : list CL) (c : CL) :
  c ∈ cls -> is_Some (mkClByNum cls !! Num c).
Proof.
  induction cls as [|x cls IH] using rev_ind; [by intros ?%elem_of_nil|].
  rewrite mkClByNum_snoc, lookup_insert. intros [Hc| ->%list_elem_of_singleton]%elem_of_app.
  - destruct (decide (Num x = Num c)); [by eexists|by apply IH].
  - rewrite decide_True by done. by eexists.
Qed.

Lemma walk_S (fuel : nat) (cls : list CL) (clByNum : gmap Z nat) (i : nat) (st : walkState) :
  walk (S fuel) cls clByNum i st =
    if decide (i ∈ walked st) then Ok st
    else if decide (i ∈ walking st) then Panic "CL cycle" []
    else match cls !! i with
         | None => Panic "invalid memory address or nil pointer dereference" []
         | Some cl =>
             let st1 := mkWalk (order st) ({[i]} ∪ walking st) (walked st) in
             match walkPrereqs (walk fuel cls clByNum) clByNum cl (Prereq cl) st1 with
             | Ok st2 => Ok (mkWalk (order st2 ++ [i]) (walking st2) ({[i]} ∪ walked st2))
             | r => r
             end
         end.
Proof. reflexivity. Qed.

Section RankOrder.
Context (cls : list CL).
Hypothesis Hsorted : SliceSorted cls.
Hypothesis Hknown : PrereqsKnown cls.
Hypothesis Hlower : PrereqsRankedLower cls.

Lemma prereq_index (i : nat) (cl : CL) (p : Z) :
  cls !! i = Some cl -> p ∈ Prereq cl ->
  exists j, mkClByNum cls !! p = Some j /\ (j < i)%nat.
Proof.
  intros Hi Hp.
  assert (cl ∈ cls) as Hcl by by eapply list_elem_of_lookup_2.
  destruct (Hknown cl p Hcl Hp) as (c & Hc & Hnum).
  destruct (mkClByNum_is_Some cls c Hc) as [j Hj]. rewrite Hnum in Hj.
  exists j. split; [done|].
  destruct (mkClByNum_valid cls p j Hj) as (c' & Hc' & Hnum').
  assert (Order c' < Order cl) as Hlt.
  { apply (Hlower cl p c'); [done|done|by eapply list_elem_of_lookup_2|done]. }
  destruct (decide (j < i)%nat) as [|Hge]; [done|]. exfalso.
  destruct (decide (j = i)) as [->|Hne].
  - rewrite Hi in Hc'. injection Hc' as <-. lia.
  - pose proof (Hsorted i j cl c' ltac:(lia) Hi Hc') as Hle.
    unfold lessOrder in Hle. apply Z.ltb_ge in Hle. lia.
Qed.

Lemma walkPrereqs_walked (fuel : nat) (cl : CL) (prereqs : list Z) (st : walkState) :
  (forall p, p ∈ prereqs -> exists j, mkClByNum cls !! p = Some j /\ j ∈ walked st) ->
  walkPrereqs (walk (S fuel) cls (mkClByNum cls)) (mkClByNum cls) cl prereqs st = Ok st.
Proof.
  induction prereqs as [|p rest IH]; intros Hall; cbn [walkPrereqs]; [done|].
  destruct (Hall p ltac:(by left)) as (j & -> & Hj).
  rewrite walk_S, decide_True by done.
  apply IH. intros q Hq. apply Hall. by right.
Qed.

Lemma walk_next (fuel i : nat) (cl : CL) :
  cls !! i = Some cl ->
  walk (S (S fuel)) cls (mkClByNum cls) i (walkedUpTo i) = Ok (walkedUpTo (S i)).
Proof.
  intros Hi. rewrite walk_S. unfold walkedUpTo at 1 2. cbn [walked walking].
  rewrite !decide_False by (intros ?%elem_of_set_seq; lia).
  rewrite Hi. cbn zeta. rewrite walkPrereqs_walked.
  - unfold walkedUpTo. cbn [order walking walked].
    rewrite seq_S, set_seq_S_end_union_L. done.
  - intros p Hp. destruct (prereq_index i cl p Hi Hp) as (j & Hj & Hlt).
    exists j. split; [done|]. cbn [walked walkedUpTo]. apply elem_of_set_seq. lia.
Qed.

Lemma walkAll_in_order (fuel k m : nat) :
  (k + m <= length cls)%nat ->
  walkAll (S (S fuel)) cls (mkClByNum cls) (seq k m) (walkedUpTo k) = Ok (walkedUpTo (k + m)).
Proof.
  revert k. induction m as [|m IH]; intros k Hlen; cbn [seq walkAll].
  - by rewrite Nat.add_0_r.
  - destruct (lookup_lt_is_Some_2 cls k ltac:(lia)) as [cl Hk].
    rewrite (walk_next fuel k cl Hk). rewrite IH by lia. f_equal. f_equal. lia.
Qed.

Lemma resolveOrder_in_order : resolveOrder cls = Ok cls.
Proof.
  unfold resolveOrder.
  assert (walkAll (S (length cls)) cls (mkClByNum cls) (seq 0 (length cls)) (mkWalk [] ∅ ∅)
          = Ok (walkedUpTo (length cls))) as ->.
  { destruct (length cls) as [|n] eqn:Hlen; [done|].
    apply (walkAll_in_order n 0 (S n)). lia. }
  cbn [order walkedUpTo]. rewrite length_seq, decide_True by done.
  rewrite omap_lookup_all. unfold copy. by rewrite drop_all, app_nil_r, firstn_all.
Qed.

End RankOrder.

Lemma SortPermutes_elem (sort : (CL -> CL -> bool) -> list CL -> list CL)
    (cls : list CL) (c : CL) :
  SortPermutes sort -> c ∈ sort lessOrder cls <-> c ∈ cls.
Proof. intros Hperm. by rewrite (Hperm cls). Qed.


(** ** orderCLs: batches it accepts *)

Section Accept.
Context (cls : list CL) (clByNum : gmap Z nat).
Hypothesis Hnums : ValidNums cls clByNum.
Hypothesis Hres : forall i cl p, cls !! i = Some cl -> p ∈ Prereq cl -> is_Some (clByNum !! p).
Hypothesis Hacyclic : forall i, ~ tc (edge cls clByNum) i i.

Lemma walkPrereqs_fine (fuel : nat) (rec : nat -> walkState -> Result walkState)
    (i : nat) (cl : CL) (prereqs : list Z) (st : walkState) :
  WalkOk cls clByNum fuel rec -> WalkFine cls clByNum fuel rec ->
  cls !! i = Some cl -> (forall p, p ∈ prereqs -> p ∈ Prereq cl) ->
  WalkInv cls clByNum st -> (room cls st < fuel)%nat ->
  (forall x, x ∈ inProgress st -> x = i \/ tc (edge cls clByNum) x i) ->
  exists st', walkPrereqs rec clByNum cl prereqs st = Ok st' /\
    inProgress st' = inProgress st.
Proof.
  intros Hok Hfine Hi. revert st.
  induction prereqs as [|p rest IH]; intros st Hsub Hinv Hroom Hstack; cbn [walkPrereqs].
  { by exists st. }
  assert (p ∈ Prereq cl) as Hp by (apply Hsub; by left).
  destruct (Hres i cl p Hi Hp) as [j Hj]. rewrite Hj.
  destruct (Hnums p j Hj) as (c & Hc & _). apply lookup_lt_Some in Hc.
  assert (edge cls clByNum i j) as Hedge by by exists cl, p.
  destruct (Hfine j st Hinv Hc Hroom) as (st1 & Hrun & Hprog).
  { intros x Hx. destruct (Hstack x Hx) as [->|Hxi]; [by apply tc_once|].
    eapply tc_r; done. }
  pose proof (Hok j st Hinv Hc Hroom) as Hspec. rewrite Hrun in Hspec.
  destruct Hspec as (Hinv1 & Hstep1 & _). rewrite Hrun.
  pose proof (WalkStep_room cls clByNum st st1 Hinv1 Hstep1).
  destruct (IH st1) as (st2 & Hrun2 & Hprog2).
  - intros q Hq. apply Hsub. by right.
  - done.
  - lia.
  - intros x Hx. apply Hstack. by rewrite <-Hprog.
  - exists st2. split; [done|]. by rewrite Hprog2.
Qed.

Lemma walk_fine (fuel : nat) : WalkFine cls clByNum fuel (walk fuel cls clByNum).
Proof.
  induction fuel as [|fuel IH]; intros i st Hinv Hi Hroom Hstack; [lia|].
  rewrite walk_S.
  destruct (decide (i ∈ walked st)) as [Hwalked|Hnew]; [by exists st|].
  destruct (decide (i ∈ walking st)) as [Hin|Hfree].
  { destruct (Hacyclic i). apply Hstack. unfold inProgress. set_solver. }
  destruct (lookup_lt_is_Some_2 cls i Hi) as [cl Hcl]. rewrite Hcl. cbn zeta.
  set (st1 := mkWalk (order st) ({[i]} ∪ walking st) (walked st)).
  pose proof Hinv as (Hnodup & Hiff & Hsub & Hlt & Hplaced).
  assert (WalkInv cls clByNum st1) as Hinv1.
  { split; [done|]. split; [done|]. split; [cbn; set_solver|]. split; [|done].
    cbn. intros j [->%elem_of_singleton|Hj]%elem_of_union; [done|by apply Hlt]. }
  assert (size (walking st1) = S (size (walking st))) as Hsize.
  { cbn. rewrite size_union by set_solver. by rewrite size_singleton. }
  pose proof (walking_size cls clByNum st1 Hinv1) as Hbound.
  assert (room cls st1 < fuel)%nat as Hroom1.
  { unfold room in *. lia. }
  destruct (walkPrereqs_fine fuel (walk fuel cls clByNum) i cl (Prereq cl) st1
              (walk_spec cls clByNum Hnums fuel) IH Hcl ltac:(done) Hinv1 Hroom1)
    as (st2 & Hrun & Hprog).
  { intros x Hx. unfold inProgress in Hx. cbn in Hx.
    apply elem_of_difference in Hx as [[->%elem_of_singleton|Hx]%elem_of_union Hnot];
      [by left|].
    right. apply Hstack. unfold inProgress. set_solver. }
  rewrite Hrun. eexists. split; [reflexivity|].
  unfold inProgress in *. cbn [walking walked] in *. set_solver.
Qed.

Lemma walkAll_fine (fuel : nat) (todo : list nat) (st : walkState) :
  WalkInv cls clByNum st -> (room cls st < fuel)%nat -> inProgress st = ∅ ->
  (forall i, i ∈ todo -> (i < length cls)%nat) ->
  exists st', walkAll fuel cls clByNum todo st = Ok st'.
Proof.
  revert st. induction todo as [|i rest IH]; intros st Hinv Hroom Hempty Htodo;
    cbn [walkAll]; [by exists st|].
  assert (i < length cls)%nat as Hi by (apply Htodo; by left).
  destruct (walk_fine fuel i st Hinv Hi Hroom) as (st1 & Hrun & Hprog).
  { intros x Hx. rewrite Hempty in Hx. by apply not_elem_of_empty in Hx. }
  pose proof (walk_spec cls clByNum Hnums fuel i st Hinv Hi Hroom) as Hspec.
  rewrite Hrun in Hspec. destruct Hspec as (Hinv1 & Hstep1 & _). rewrite Hrun.
  pose proof (WalkStep_room cls clByNum st st1 Hinv1 Hstep1).
  apply IH; [done|lia|by rewrite Hprog|]. intros j Hj. apply Htodo. by right.
Qed.

End Accept.

Lemma edge_requires (cls : list CL) (i j : nat) (a b : CL) :
  tc (edge cls (mkClByNum cls)) i j ->
  cls !! i = Some a -> cls !! j = Some b -> tc (requires cls) a b.
Proof.
  intros Hij. revert a b.
  induction Hij as [i j (cl & p & Hi & Hp & Hj)|i k j (cl & p & Hi & Hp & Hk) _ IH];
    intros a b Ha Hb.
  - destruct (mkClByNum_valid cls p j Hj) as (c & Hc & Hnum).
    rewrite Ha in Hi. injection Hi as <-. rewrite Hb in Hc. injection Hc as <-.
    apply tc_once. split; [by eapply list_elem_of_lookup_2|].
    split; [by eapply list_elem_of_lookup_2|by rewrite Hnum].
  - destruct (mkClByNum_valid cls p k Hk) as (c & Hc & Hnum).
    rewrite Ha in Hi. injection Hi as <-.
    eapply tc_l; [|by apply IH]. split; [by eapply list_elem_of_lookup_2|].
    split; [by eapply list_elem_of_lookup_2|by rewrite Hnum].
Qed.

Lemma resolveOrder_accepts (cls : list CL) :
  PrereqsKnown cls -> (forall a, ~ tc (requires cls) a a) ->
  exists out, resolveOrder cls = Ok out.
Proof.
  intros Hknown Hacyclic. unfold resolveOrder.
  pose proof (mkClByNum_valid cls) as Hnums.
  assert (WalkInv cls (mkClByNum cls) (mkWalk [] ∅ ∅)) as Hinit.
  { split; [apply NoDup_nil_2|]. split; [cbn; set_solver|]. split; [done|].
    split; [cbn; set_solver|]. intros k i cl p Hk. cbn in Hk. by destruct k. }
  assert (room cls (mkWalk [] ∅ ∅) < S (length cls))%nat as Hroom.
  { unfold room. cbn. lia. }
  assert (forall i, i ∈ seq 0 (length cls) -> (i < length cls)%nat) as Htodo.
  { intros i Hi%elem_of_seq. lia. }
  destruct (walkAll_fine cls (mkClByNum cls) Hnums) with
    (fuel := S (length cls)) (todo := seq 0 (length cls)) (st := mkWalk [] ∅ ∅)
    as [st Hrun]; [| |done|done|done|done|].
  { intros i cl p Hi Hp.
    destruct (Hknown cl p) as (c & Hc & <-); [by eapply list_elem_of_lookup_2|done|].
    by apply mkClByNum_is_Some. }
  { intros i Hcycle.
    assert (is_Some (cls !! i)) as [a Ha].
    { inversion Hcycle as [? ? (cl & ? & Hi & _)|? ? ? (cl & ? & Hi & _)]; by eexists. }
    apply (Hacyclic a). by eapply edge_requires. }
  pose proof (walkAll_spec cls (mkClByNum cls) Hnums (S (length cls)) (seq 0 (length cls))
                (mkWalk [] ∅ ∅) Hinit Hroom Htodo) as Hall.
  rewrite Hrun in Hall. rewrite Hrun.
  destruct Hall as ((Hnodup & Hiff & Hsub & Hlt & Hplaced) & _ & Hwalked).
  assert (order st ≡ₚ seq 0 (length cls)) as Hperm.
  { apply NoDup_Permutation; [done|apply NoDup_seq|].
    intros i. split.
    - intros Hi%Hiff%Hsub%Hlt. apply elem_of_seq. lia.
    - intros Hi. by apply Hiff, Hwalked. }
  rewrite decide_True by by rewrite Hperm, length_seq.
  by eexists.
Qed.


(** ** orderCLs on the demo batches *)

Lemma orderCLs_unknown_prerequisite_panics_witness :
  let E := Sim.externals (Demo.oracle 0) in
  let w := Demo.work Demo.dangling Demo.start in
  let cl := mkCL 1 "" "a" 1 [7] 0 None in
  SortPermutes (@sortSlice _ E) /\
  cl ∈ CLs w /\ 7 ∈ Prereq cl /\ (forall c, c ∈ CLs w -> Num c <> 7) /\
  isPanic (@orderCLs _ E w).
Proof.
  intros E w cl.
  assert (cl ∈ CLs w) as H2 by (apply list_elem_of_In; cbn; tauto).
  assert (7 ∈ Prereq cl) as H3 by (apply list_elem_of_In; cbn; tauto).
  assert (forall c, c ∈ CLs w -> Num c <> 7) as H4.
  { intros c Hc. apply list_elem_of_In in Hc. cbn in Hc. destruct Hc as [<-|[]]. done. }
  split; [exact Demo_sort_perm|]. repeat (split; [assumption|]).
  pose proof (@orderCLs_unknown_prerequisite_panics _ E w cl 7 Demo_sort_perm H2 H3 H4) as Hrun.
  exact Hrun.
Defined.

Lemma orderCLs_cycle_panics_witness :
  let E := Sim.externals (Demo.oracle 0) in
  let w := Demo.work Demo.cyclic Demo.start in
  let a := mkCL 1 "" "a" 1 [2] 0 None in
  SortPermutes (@sortSlice _ E) /\
  NoDup (Num <$> CLs w) /\
  tc (requires (CLs w)) a a /\
  isPanic (@orderCLs _ E w).
Proof.
  intros E w a.
  assert (NoDup (Num <$> CLs w)) as H2.
  { cbn. apply NoDup_cons. split; [|apply NoDup_singleton].
    intros H%list_elem_of_In. cbn in H. by destruct H as [|[]]. }
  assert (tc (requires (CLs w)) a a) as H3.
  { apply tc_l with (mkCL 2 "" "b" 2 [1] 0 None); [|apply tc_once];
      (split; [apply list_elem_of_In; cbn; tauto|]);
      (split; apply list_elem_of_In; cbn; tauto). }
  split; [exact Demo_sort_perm|]. repeat (split; [assumption|]).
  pose proof (@orderCLs_cycle_panics _ E w a Demo_sort_perm H2 H3) as Hrun.
  exact Hrun.
Defined.

Lemma Demo_agreeing_known : PrereqsKnown Demo.agreeing.
Proof.
  intros cl p Hcl Hp. apply list_elem_of_In in Hcl. cbn in Hcl.
  destruct Hcl as [<-|[<-|[]]]; apply list_elem_of_In in Hp; cbn in Hp; [|done].
  destruct Hp as [<-|[]]. exists (mkCL 2 "" "b" 1 [] 0 None).
  split; [apply list_elem_of_In; cbn; tauto|done].
Qed.

Lemma Demo_agreeing_lower : PrereqsRankedLower Demo.agreeing.
Proof.
  intros cl p c Hcl Hp Hc Hnum. apply list_elem_of_In in Hcl, Hc. cbn in Hcl, Hc.
  destruct Hcl as [<-|[<-|[]]]; apply list_elem_of_In in Hp; cbn in Hp; [|done].
  destruct Hp as [<-|[]]. destruct Hc as [<-|[<-|[]]]; [done|]. cbn. lia.
Qed.


Lemma acyclic_by_measure (cls : list CL) (f : CL -> nat) :
  (forall a b, requires cls a b -> (f b < f a)%nat) ->
  forall a, ~ tc (requires cls) a a.
Proof.
  intros Hdown.
  assert (forall a b, tc (requires cls) a b -> (f b < f a)%nat) as Htc.
  { intros a b Hab. induction Hab as [a b Hab|a b c Hab _ IH].
    - by apply Hdown.
    - apply Hdown in Hab. lia. }
  intros a Ha. apply Htc in Ha. lia.
Qed.

Lemma Demo_scenario_known : PrereqsKnown Demo.scenario.
Proof.
  intros cl p Hcl Hp. apply list_elem_of_In in Hcl. cbn in Hcl.
  destruct Hcl as [<-|[<-|[<-|[]]]]; apply list_elem_of_In in Hp; cbn in Hp; [done| |done].
  destruct Hp as [<-|[]]. exists (mkCL 3 "" "c" 5 [] 0 None).
  split; [apply list_elem_of_In; cbn; tauto|done].
Qed.

Lemma Demo_scenario_acyclic : forall a, ~ tc (requires Demo.scenario) a a.
Proof.
  apply (acyclic_by_measure _ (fun cl => length (Prereq cl))).
  intros a b (Ha & Hb & Hp). apply list_elem_of_In in Ha, Hb. cbn in Ha, Hb.
  destruct Ha as [<-|[<-|[<-|[]]]]; apply list_elem_of_In in Hp; cbn in Hp;
    [by destruct Hp| |by destruct Hp].
  destruct Hp as [Hnum|[]].
  destruct Hb as [<-|[<-|[<-|[]]]]; cbn in Hnum; try done. cbn. lia.
Qed.


(** ** treeAndParentOfCommit: the commit message *)

Lemma Split_nonempty (s : string) : GoStrings.Split s <> [].
Proof.
  destruct s as [|c s]; cbn; [done|].
  destruct (Ascii.eqb c GoStrings.newline); [done|]. by destruct (GoStrings.Split s).
Qed.

Lemma Split_app_newline (a b : string) :
  GoStrings.Split (a +:+ String GoStrings.newline b) = GoStrings.Split a ++ GoStrings.Split b.
Proof.
  induction a as [|c a IH]; [done|].
  change (String c a +:+ String GoStrings.newline b)
    with (String c (a +:+ String GoStrings.newline b)).
  cbn [GoStrings.Split]. rewrite IH.
  destruct (Ascii.eqb c GoStrings.newline); [done|].
  pose proof (Split_nonempty a). by destruct (GoStrings.Split a).
Qed.

Lemma headerLines_app_empty (lines rest : list string) :
  (forall line, line ∈ lines -> line <> "") ->
  headerLines (lines ++ "" :: rest) = lines.
Proof.
  induction lines as [|l lines IH]; intros Hne; [done|].
  cbn [app headerLines].
  assert (String.eqb l "" = false) as -> by (apply String.eqb_neq, Hne; by left).
  rewrite IH; [done|]. intros line Hl. apply Hne. by right.
Qed.

Lemma headerLines_all (lines : list string) :
  (forall line, line ∈ lines -> line <> "") -> headerLines lines = lines.
Proof.
  induction lines as [|l lines IH]; intros Hne; [done|].
  cbn [headerLines].
  assert (String.eqb l "" = false) as -> by (apply String.eqb_neq, Hne; by left).
  rewrite IH; [done|]. intros line Hl. apply Hne. by right.
Qed.

Lemma parseTreeAndParent_header (header body : string) :
  (forall line, line ∈ GoStrings.Split header -> line <> "") ->
  parseTreeAndParent (header +:+ nl +:+ nl +:+ body) = parseTreeAndParent header.
Proof.
  intros Hne. rewrite !parseTreeAndParent_last. unfold lastTreeAndParent, headerValues.
  assert (header +:+ nl +:+ nl +:+ body
          = header +:+ String GoStrings.newline (String GoStrings.newline body)) as ->
    by reflexivity.
  rewrite Split_app_newline.
  change (GoStrings.Split (String GoStrings.newline body))
    with ("" :: GoStrings.Split body).
  by rewrite headerLines_app_empty, headerLines_all.
Qed.

(** The message of a commit has no say in what [treeAndParentOfCommit]
    returns: when the commit object is a header without empty lines, an
    empty line and a message, the function returns a pair exactly when
    parsing the header alone gives that pair, whatever the message holds,
    lines that look like headers included. *)
Theorem treeAndParentOfCommit_ignores_message `{!Externals World}
    (commit : string) (w : Work World) (x : World) (header body : string) :
  (forall line, line ∈ GoStrings.Split header -> line <> "") ->
  runOut ["git"; "cat-file"; "commit"; commit] (world w)
    = Some (x, header +:+ nl +:+ nl +:+ body) ->
  forall tp, (exists w', treeAndParentOfCommit commit w = Ok (tp, w')) <->
             parseTreeAndParent header = Some tp.
Proof.
  intros Hne Hout tp. rewrite treeAndParentOfCommit_unfold, Hout.
  rewrite <-(parseTreeAndParent_header header body Hne), parseTreeAndParent_last.
  destruct (lastTreeAndParent _) as [tp'|].
  - split; [by intros (w' & [= -> _])|intros [= ->]; by eexists].
  - split; [by intros (w' & [=])|done].
Qed.

(** ** topChangeID *)

Lemma lastParagraph_all (lines : list string) :
  existsb (String.eqb "") lines = false -> lastParagraph lines = lines.
Proof.
  destruct lines as [|l lines]; [done|]. cbn [existsb lastParagraph].
  intros [Hl ->]%orb_false_iff. rewrite String.eqb_sym in Hl. by rewrite Hl.
Qed.

Lemma HasPrefix_empty (prefix : string) :
  prefix <> "" -> GoStrings.HasPrefix "" prefix = false.
Proof. by destruct prefix. Qed.

Lemma scanChangeID_last (lines : list string) (id : string) :
  scanChangeID lines id =
    default (if existsb (String.eqb "") lines then "" else id)
            (last (changeIDs (lastParagraph lines))).
Proof.
  revert id. induction lines as [|line rest IH]; intros id; [done|].
  cbn [scanChangeID existsb lastParagraph]. rewrite IH.
  destruct (existsb (String.eqb "") rest) eqn:Hrest.
  { by rewrite orb_true_r. }
  rewrite orb_false_r, (lastParagraph_all rest Hrest), (String.eqb_sym "" line).
  destruct (String.eqb line "") eqn:Hline.
  - apply String.eqb_eq in Hline. subst line. done.
  - unfold changeIDs. rewrite filter_cons.
    destruct (GoStrings.HasPrefix line "Change-Id: ") eqn:Hp.
    + rewrite decide_True by done. by rewrite fmap_cons, default_last_cons.
    + by rewrite decide_False by done.
Qed.


(** ** gitFetchCLs: the histories it walks *)

Lemma IndexColon_range (s : string) : GoStrings.IndexColon s = -1 \/ 0 <= GoStrings.IndexColon s.
Proof.
  induction s as [|c s IH]; cbn [GoStrings.IndexColon]; [by left|].
  destruct (Ascii.eqb c ":"); [by right|].
  destruct (GoStrings.IndexColon s <? 0) eqn:Hneg; [by left|]. right. lia.
Qed.

Lemma localRef_spec (name rest : string) :
  GoStrings.IndexColon name = -1 ->
  localRef (name +:+ String ":" rest) = rest.
Proof.
  unfold localRef. intros Hname.
  assert (GoStrings.IndexColon (name +:+ String ":" rest) = Z.of_nat (String.length name)
          /\ GoStrings.sliceFrom (S (String.length name)) (name +:+ String ":" rest) = rest)
    as [-> Hslice].
  { induction name as [|c name IH]; [done|].
    change (String c name +:+ String ":" rest) with (String c (name +:+ String ":" rest)).
    cbn [GoStrings.IndexColon String.length GoStrings.sliceFrom] in *.
    destruct (Ascii.eqb c ":"); [done|].
    destruct (IndexColon_range name) as [Hn|Hn].
    - destruct (IH Hn) as [-> ->]. split; [|done].
      assert ((Z.of_nat (String.length name) <? 0) = false) as -> by lia. lia.
    - assert ((GoStrings.IndexColon name <? 0) = false) as Hpos by lia.
      rewrite Hpos in Hname. lia. }
  replace (Z.to_nat (Z.of_nat (String.length name) + 1)) with (S (String.length name)) by lia.
  done.
Qed.

Lemma localRef_refspec (name : string) :
  GoStrings.IndexColon name = -1 ->
  localRef (name +:+ ":gerrit/" +:+ name) = "gerrit/" +:+ name.
Proof. intros Hname. by apply (localRef_spec name ("gerrit/" +:+ name)). Qed.

Lemma rankRefs_log `{!Externals World} (refs : list string) (order : gmap string Z)
    (next : Z) (w w' : Work World) (r : gmap string Z) :
  rankRefs refs order next w = Ok (r, w') ->
  CLs w' = CLs w /\ ReleaseBranch w' = ReleaseBranch w /\
  log w' = log w
    ++ ((fun ref => Exec ["git"; "log"; "--pretty=format:%H"; localRef ref]) <$> refs).
Proof.
  revert order next w. induction refs as [|ref rest IH]; intros order next w; cbn [rankRefs].
  - intros [= _ <-]. by rewrite app_nil_r.
  - unfold mbind, M_bind, bind, w_runOut.
    destruct (runOut _ _) as [[x out]|]; [|done].
    destruct (rankRef order next (GoStrings.Split out)) as [order' next'].
    intros (Hcls & Hrb & Hlog)%IH. cbn [CLs ReleaseBranch log] in *.
    split; [done|]. split; [done|]. by rewrite Hlog, <-app_assoc.
Qed.

Lemma fetchRefspecs_names (releaseBranch : string) (cls : list CL) :
  GoStrings.IndexColon releaseBranch = -1 ->
  (forall cl, cl ∈ cls -> GoStrings.IndexColon (Ref cl) = -1) ->
  localRef <$> fetchRefspecs releaseBranch cls
    = (fun name => "gerrit/" +:+ name) <$> fetchedNames releaseBranch cls.
Proof.
  intros Hrb Hrefs. unfold fetchRefspecs, fetchedNames.
  cbn [app fmap list_fmap]. rewrite (localRef_refspec releaseBranch Hrb).
  f_equal. f_equal.
  induction cls as [|cl cls IH]; [done|]. cbn [flat_map].
  rewrite !fmap_app, IH by (intros c Hc; apply Hrefs; by right). f_equal.
  destruct (String.eqb (Ref cl) ""); [done|]. cbn.
  by rewrite (localRef_refspec (Ref cl)) by (apply Hrefs; by left).
Qed.

(** When no name holds a colon, a run of [gitFetchCLs] that returns has run
    one [git fetch] and then one [git log] per history, on the local copy
    [gerrit/<name>] of each, in this order: master, the release branch, then
    the ref of each CL that has one, in batch order; nothing else is
    logged. *)
Theorem gitFetchCLs_walks_histories_in_order `{!Externals World} (w w' : Work World) :
  GoStrings.IndexColon (ReleaseBranch w) = -1 ->
  (forall cl, cl ∈ CLs w -> GoStrings.IndexColon (Ref cl) = -1) ->
  gitFetchCLs w = Ok (tt, w') ->
  log w' = log w
    ++ Exec (["git"; "fetch"; "origin"] ++ fetchRefspecs (ReleaseBranch w) (CLs w))
    :: ((fun name => Exec ["git"; "log"; "--pretty=format:%H"; "gerrit/" +:+ name])
          <$> fetchedNames (ReleaseBranch w) (CLs w)).
Proof.
  intros Hrb Hrefs.
  unfold gitFetchCLs, mbind, M_bind, bind, getCLs, getReleaseBranch, w_runOut, setCLs.
  destruct (runOut _ _) as [[x0 out]|]; [|done]. cbn [drop app]. rewrite drop_0.
  destruct (rankRefs _ _ _ _) as [[r w1]| |] eqn:Hrank; [|done|done].
  intros [= <-]. cbn [log].
  apply rankRefs_log in Hrank as (_ & _ & ->). cbn [log].
  rewrite <-app_assoc. cbn [app]. do 2 f_equal.
  rewrite (list_fmap_compose localRef
             (fun l => Exec ["git"; "log"; "--pretty=format:%H"; l])).
  rewrite fetchRefspecs_names by done. by rewrite <-list_fmap_compose.
Qed.

(** ** The commit message and the histories, on the demo repository *)

Lemma treeAndParentOfCommit_ignores_message_witness :
  let E := Sim.externals Demo.oracleForged in
  let w := Demo.work [] Demo.start in
  (forall line, line ∈ GoStrings.Split Demo.forgedHeader -> line <> "") /\
  @runOut _ E ["git"; "cat-file"; "commit"; "HEAD"] (world w)
    = Some (Demo.start, Demo.forgedHeader +:+ nl +:+ nl +:+ Demo.forgedMessage) /\
  forall tp, (exists w', @treeAndParentOfCommit _ E "HEAD" w = Ok (tp, w')) <->
             parseTreeAndParent Demo.forgedHeader = Some tp.
Proof.
  intros E w.
  assert (forall line, line ∈ GoStrings.Split Demo.forgedHeader -> line <> "") as H1.
  { intros line Hl. apply list_elem_of_In in Hl. vm_compute in Hl.
    destruct Hl as [<-|[<-|[]]]; done. }
  assert (@runOut _ E ["git"; "cat-file"; "commit"; "HEAD"] (world w)
          = Some (Demo.start, Demo.forgedHeader +:+ nl +:+ nl +:+ Demo.forgedMessage)) as H2
    by reflexivity.
  split; [exact H1|]. split; [exact H2|].
  pose proof (@treeAndParentOfCommit_ignores_message _ E "HEAD" w Demo.start
                Demo.forgedHeader Demo.forgedMessage H1 H2) as Hrun.
  exact Hrun.
Defined.


(** On the demo text the identifier returned is the one of the trailer. *)
Example topChangeID_demo :
  @topChangeID _ (Demo.reader Demo.message) (mkWork [] "release-branch.go1.9" tt [])
    = Ok ("I123"%string,
          mkWork [] "release-branch.go1.9" tt [Exec ["git"; "cat-file"; "commit"; "HEAD"]]).
Proof. vm_compute. reflexivity. Qed.

Lemma gitFetchCLs_walks_histories_in_order_witness :
  let E := Sim.externals (Demo.oracle 0) in
  let w := Demo.work Demo.batch Demo.start in
  GoStrings.IndexColon (ReleaseBranch w) = -1 /\
  (forall cl, cl ∈ CLs w -> GoStrings.IndexColon (Ref cl) = -1) /\
  @gitFetchCLs _ E w = Ok (tt, Demo.ranked) /\
  log Demo.ranked = log w
    ++ Exec (["git"; "fetch"; "origin"] ++ fetchRefspecs (ReleaseBranch w) (CLs w))
    :: ((fun name => Exec ["git"; "log"; "--pretty=format:%H"; "gerrit/" +:+ name])
          <$> fetchedNames (ReleaseBranch w) (CLs w)).
Proof.
  intros E w.
  assert (GoStrings.IndexColon (ReleaseBranch w) = -1) as H1 by (vm_compute; reflexivity).
  assert (forall cl, cl ∈ CLs w -> GoStrings.IndexColon (Ref cl) = -1) as H2.
  { intros cl Hcl. apply list_elem_of_In in Hcl. cbn in Hcl.
    destruct Hcl as [<-|[<-|[<-|[<-|[]]]]]; vm_compute; reflexivity. }
  assert (@gitFetchCLs _ E w = Ok (tt, Demo.ranked)) as H3 by (vm_compute; reflexivity).
  split; [exact H1|]. split; [exact H2|]. split; [exact H3|].
  pose proof (@gitFetchCLs_walks_histories_in_order _ E w Demo.ranked H1 H2 H3) as Hrun.
  exact Hrun.
Defined.

(** ** gitFetchCLs then orderCLs: commits of master *)

(** While no line of the walk is ranked yet and no line comes twice, the
    second loop ranks every target it meets. *)
Lemma assignLoop_ranks_all (lines : list string) (order : gmap string Z) (n : Z) (k : string) :
  Z.of_nat (length lines) < 2 ^ 63 -> n < 2 ^ 63 ->
  0 <= n - countLoop order lines 0 ->
  NoDup lines -> (forall l, l ∈ lines -> lookupOrder order l <= 0) ->
  k ∈ lines -> order !! k = Some (-1) ->
  exists v, assignLoop order lines n !! k = Some v /\ v <> -1.
Proof.
  revert order n. induction lines as [|line rest IH];
    intros order n Hlen Hn Hroom Hnodup Hfree Hk Hunranked; [by apply elem_of_nil in Hk|].
  apply NoDup_cons in Hnodup as [Hline Hnodup].
  cbn [assignLoop countLoop length] in *.
  pose proof (Hfree line ltac:(by left)) as Hl.
  assert ((0 <? lookupOrder order line) = false) as Hpos by lia. rewrite Hpos in *.
  pose proof (countLoop_bounds order rest 0) as Hc.
  destruct (lookupOrder order line =? -1) eqn:Htarget.
  - apply Z.eqb_eq in Htarget.
    rewrite wrap_small in Hroom by lia.
    rewrite (countLoop_acc order rest (0 + 1)) in Hroom by lia.
    rewrite wrap_small by lia.
    destruct (decide (k = line)) as [->|Hne].
    + exists n. split; [|lia]. apply assignLoop_stable; [apply lookup_insert_eq|lia].
    + pose proof (countLoop_insert order rest line n) as Hi.
      apply IH; try done; try lia.
      * intros l Hin. rewrite lookupOrder_insert.
        rewrite decide_False by (intros ->; done). apply Hfree. by right.
      * apply elem_of_cons in Hk as [?|?]; done.
      * by rewrite lookup_insert_ne.
  - assert (k <> line) as Hne.
    { intros ->. apply lookupOrder_unranked in Hunranked. lia. }
    apply IH; try done; try lia.
    + intros l Hin. apply Hfree. by right.
    + apply elem_of_cons in Hk as [?|?]; done.
Qed.

Lemma initOrder_free (cls : list CL) (l : string) : lookupOrder (initOrder cls) l <= 0.
Proof.
  unfold lookupOrder. destruct (initOrder cls !! l) as [v|] eqn:Hv; cbn; [|lia].
  apply initOrder_lookup in Hv. lia.
Qed.

(** The ranks of two targets of the first walk. *)
Lemma first_walk_ranks (cls : list CL) (logs : list (list string))
    (before between after : list string) (ca cb : string) :
  totalLines logs < 2 ^ 63 ->
  logs !! 0%nat = Some (before ++ ca :: between ++ cb :: after) ->
  NoDup (before ++ ca :: between ++ cb :: after) ->
  initOrder cls !! ca = Some (-1) -> initOrder cls !! cb = Some (-1) ->
  finalRank cls logs cb < finalRank cls logs ca.
Proof.
  intros Hlen Hlog Hnodup Ha Hb.
  set (lines := before ++ ca :: between ++ cb :: after) in *.
  destruct (rankTable_S cls logs 0 lines Hlog) as [Htab _].
  assert (rankTable cls logs 0 = initOrder cls) as Htab0 by reflexivity.
  assert (rankNext cls logs 0 = 0) as Hnext0 by reflexivity.
  rewrite Htab0, Hnext0 in Htab. unfold rankRef in Htab. cbn [fst] in Htab.
  assert (Z.of_nat (length lines) <= totalLines logs) as Hroom.
  { rewrite (take_totalLines logs 1), (take_S_r _ _ _ Hlog), totalLines_app.
    pose proof (totalLines_nonneg (drop 1 logs)).
    unfold totalLines at 2. cbn [take concat]. rewrite app_nil_r.
    unfold totalLines at 1. cbn. lia. }
  pose proof (countLoop_bounds (initOrder cls) lines 0) as Hc.
  rewrite wrap_small in Htab by lia.
  assert (ca ∈ lines) as Hina by (subst lines; set_solver).
  assert (cb ∈ lines) as Hinb by (subst lines; set_solver).
  destruct (assignLoop_ranks_all lines (initOrder cls) (countLoop (initOrder cls) lines 0 + 0) ca)
    as (va & Hva & Hna); try done; try lia.
  { intros l _. apply initOrder_free. }
  destruct (assignLoop_ranks_all lines (initOrder cls) (countLoop (initOrder cls) lines 0 + 0) cb)
    as (vb & Hvb & Hnb); try done; try lia.
  { intros l _. apply initOrder_free. }
  assert (vb < va) as Hlt.
  { subst lines. apply NoDup_app in Hnodup as (_ & Hsep & Hrest).
    apply NoDup_cons in Hrest as [Hca _].
    eapply (assignLoop_decreasing before (between ++ cb :: after) (initOrder cls)
              (countLoop (initOrder cls) (before ++ ca :: between ++ cb :: after) 0 + 0)
              ca cb va vb); try done; try lia.
    - intros Hin. apply (Hsep cb Hin). set_solver.
    - intros ->. apply Hca. set_solver. }
  rewrite <-Htab in Hva, Hvb.
  unfold finalRank, lookupOrder.
  rewrite (rankTable_stable cls logs 1 ca va Hva Hna).
  rewrite (rankTable_stable cls logs 1 cb vb Hvb Hnb). done.
Qed.



(** ** gitCheckout and gitTagVersion *)

Lemma LastIndexDot_range (s : string) : LastIndexDot s = -1 \/ 0 <= LastIndexDot s.
Proof.
  induction s as [|c s IH]; cbn [LastIndexDot]; [by left|].
  destruct (0 <=? LastIndexDot s) eqn:Hpos; [right; lia|].
  destruct (Ascii.eqb c "."); [by right|by left].
Qed.

(** The last dot splits the string: what [s[:i]] keeps, the dot, and a
    rest without dots. *)
Lemma LastIndexDot_split (s : string) :
  0 <= LastIndexDot s ->
  exists t, s = sliceTo (Z.to_nat (LastIndexDot s)) s +:+ "." +:+ t /\ LastIndexDot t = -1.
Proof.
  induction s as [|c s IH]; cbn [LastIndexDot]; [lia|].
  destruct (0 <=? LastIndexDot s) eqn:Hpos.
  - intros _. destruct IH as (t & Hs & Ht); [lia|]. exists t. split; [|done].
    replace (Z.to_nat (LastIndexDot s + 1)) with (S (Z.to_nat (LastIndexDot s))) by lia.
    cbn [sliceTo]. change (String c ?a +:+ ?b) with (String c (a +:+ b)). by rewrite <-Hs.
  - destruct (Ascii.eqb c ".") eqn:Hc; [|lia]. intros _.
    apply Ascii.eqb_eq in Hc. subst c. exists s. split; [done|].
    destruct (LastIndexDot_range s); lia.
Qed.

Lemma MR_bind_inv {World A B} (m : MR World A) (k : A -> MR World B)
    (r r' : Release World) (b : B) :
  mbind k m r = Ok (b, r') -> exists a r1, m r = Ok (a, r1) /\ k a r1 = Ok (b, r').
Proof.
  unfold mbind, MR_bind. destruct (m r) as [[a r1]| |]; [|done|done]. intros Hk.
  by exists a, r1.
Qed.

Section SetupProps.
Context {World : Type} `{!Host World}.

Ltac run_setup H :=
  unfold updateMirror, cloneWork, releaseGate, gitTagVersion, panicOn, r_run, r_runErr,
    r_mkdirAll, r_removeAll, r_logError, r_emit, r_setWorld, setReleaseBranch, setDir,
    setRunDir, get, r_panic, withBase, mbind, MR_bind, mret, MR_ret in H;
  cbn [MilestoneTitle CloseMilestone FinalRelease Version Dir runDir base
       CLs ReleaseBranch world log] in H;
  repeat (match type of H with
          | context [match ?x with _ => _ end] =>
              lazymatch x with
              | context [match _ with _ => _ end] => fail
              | _ => destruct x eqn:?
              end;
              try discriminate H;
              cbn [MilestoneTitle CloseMilestone FinalRelease Version Dir runDir base
                   CLs ReleaseBranch world log] in H
          end).

(** What the stages of [gitCheckout] leave alone. *)
Lemma updateMirror_Ok (mirror : string) (r r' : Release World) :
  updateMirror mirror r = Ok (tt, r') ->
  MilestoneTitle r' = MilestoneTitle r /\ CloseMilestone r' = CloseMilestone r /\
  Dir r' = Dir r /\ ReleaseBranch (base r') = ReleaseBranch (base r) /\
  exists evs, log (base r') = log (base r) ++ evs.
Proof.
  intros Hrun. run_setup Hrun; injection Hrun as <-;
    cbn [MilestoneTitle CloseMilestone Dir base ReleaseBranch log];
    repeat (split; [done|]); rewrite <-?app_assoc; eexists; reflexivity.
Qed.

Lemma cloneWork_Ok (mirror gitDir : string) (r r' : Release World) :
  cloneWork mirror gitDir r = Ok (tt, r') ->
  MilestoneTitle r' = MilestoneTitle r /\ CloseMilestone r' = CloseMilestone r /\
  Dir r' = Dir r /\ ReleaseBranch (base r') = ReleaseBranch (base r) /\
  runDir r' = Join gitDir "src" /\
  exists evs, log (base r') = log (base r) ++ evs.
Proof.
  intros Hrun. run_setup Hrun; injection Hrun as <-;
    cbn [MilestoneTitle CloseMilestone Dir runDir base ReleaseBranch log];
    repeat (split; [done|]); rewrite <-?app_assoc; eexists; reflexivity.
Qed.

Lemma releaseGate_Ok (version : string) (r r' : Release World) :
  releaseGate version r = Ok (tt, r') ->
  MilestoneTitle r' = MilestoneTitle r /\ CloseMilestone r' = CloseMilestone r /\
  Dir r' = Dir r /\ ReleaseBranch (base r') = ReleaseBranch (base r) /\
  runDir r' = runDir r /\
  log (base r') = log (base r) ++ [Exec ["git"; "rev-parse"; version]] /\
  exists out err,
    runErrIn (runDir r) ["git"; "rev-parse"; version] (world (base r))
      = (world (base r'), (out, err)) /\
    (err = None <-> CloseMilestone r = true).
Proof.
  intros Hrun.
  assert (forall (err : option string) (close : bool),
            bool_decide (err = None) && negb close = false ->
            bool_decide (err <> None) && close = false ->
            err = None <-> close = true) as Hgate.
  { intros [e|] [|]; cbn; intros H1 H2; try done. }
  run_setup Hrun; injection Hrun as <-;
    cbn [MilestoneTitle CloseMilestone Dir runDir base ReleaseBranch log world];
    repeat (split; [done|]); eexists _, _; (split; [reflexivity|by apply Hgate]).
Qed.

(** The state after the first lines of [gitCheckout], lines 30-38. *)
Lemma gitCheckout_stages (r r' : Release World) :
  gitCheckout r = Ok (tt, r') ->
  let title := ToLower (MilestoneTitle r) in
  let dir := Join (Getenv "HOME" (world (base r))) ("go-releasebot-work/" +:+ title) in
  0 <= LastIndexDot title /\
  exists x r1 r2,
    MkdirAll dir (world (base r)) = (x, None) /\
    updateMirror (Join dir "gitmirror")
      (mkRelease (MilestoneTitle r) (CloseMilestone r) (FinalRelease r) (Version r) dir
         (runDir r)
         (mkWork (CLs (base r))
            ("release-branch." +:+ sliceTo (Z.to_nat (LastIndexDot title)) title) x
            (log (base r) ++ [WLog "working in %s\n" [AStr dir]]))) = Ok (tt, r1) /\
    cloneWork (Join dir "gitmirror") (Join dir "gitwork") r1 = Ok (tt, r2) /\
    releaseGate title r2 = Ok (tt, r').
Proof.
  intros Hrun title dir. subst title dir.
  unfold gitCheckout in Hrun.
  apply MR_bind_inv in Hrun as (title & r0 & [= <- <-] & Hrun). cbn zeta in Hrun.
  destruct (LastIndexDot (ToLower (MilestoneTitle r)) <? 0) eqn:Hneg; [done|].
  split; [lia|].
  apply MR_bind_inv in Hrun as ([] & r1 & [= <-] & Hrun).
  apply MR_bind_inv in Hrun as (home & r2 & [= <- <-] & Hrun).
  apply MR_bind_inv in Hrun as ([] & r3 & [= <-] & Hrun).
  apply MR_bind_inv in Hrun as (dir & r4 & [= <- <-] & Hrun).
  apply MR_bind_inv in Hrun as ([] & r5 & [= <-] & Hrun).
  apply MR_bind_inv in Hrun as (err & r6 & Hmk & Hrun).
  apply MR_bind_inv in Hrun as ([] & r7 & Hpanic & Hrun).
  apply MR_bind_inv in Hrun as ([] & r8 & Hmirror & Hrun).
  apply MR_bind_inv in Hrun as ([] & r9 & Hclone & Hrun).
  unfold r_mkdirAll, r_setWorld, withBase, mbind, MR_bind, mret, MR_ret in Hmk.
  cbn [MilestoneTitle CloseMilestone FinalRelease Version Dir runDir base
       CLs ReleaseBranch world log] in *.
  destruct (MkdirAll _ _) as [x e] eqn:Hx. injection Hmk as <- <-.
  destruct e as [e|]; [done|]. injection Hpanic as <-.
  by exists x, r8, r9.
Qed.

(** [gitCheckout] names the release branch after the lowercased milestone
    title up to its last dot: a title without a dot stops the run with a
    panic before anything is done, and a run that returns has set
    [ReleaseBranch] to ["release-branch." + s] where the lowercased title
    is [s], a dot and a last component without dots; it has also set the
    work directory under [$HOME] and left [runDir] on [gitwork/src]. *)
Theorem gitCheckout_release_branch (r : Release World) :
  let title := ToLower (MilestoneTitle r) in
  (LastIndexDot title = -1 -> isPanic (gitCheckout r)) /\
  forall r', gitCheckout r = Ok (tt, r') ->
    (exists s t, title = s +:+ "." +:+ t /\ LastIndexDot t = -1 /\
                 ReleaseBranch (base r') = "release-branch." +:+ s) /\
    Dir r' = Join (Getenv "HOME" (world (base r))) ("go-releasebot-work/" +:+ title) /\
    runDir r' = Join (Join (Dir r') "gitwork") "src".
Proof.
  intros title. subst title. split.
  - intros Hdot. unfold gitCheckout, mbind, MR_bind, get. rewrite Hdot. cbn.
    unfold isPanic, r_panic. eauto.
  - intros r' Hrun.
    destruct (gitCheckout_stages r r' Hrun) as (Hdot & x & r1 & r2 & _ & H1 & H2 & H3).
    apply updateMirror_Ok in H1 as (_ & _ & Hd1 & Hb1 & _).
    apply cloneWork_Ok in H2 as (_ & _ & Hd2 & Hb2 & Hr2 & _).
    apply releaseGate_Ok in H3 as (_ & _ & Hd3 & Hb3 & Hr3 & _).
    cbn [Dir base ReleaseBranch] in *.
    destruct (LastIndexDot_split _ Hdot) as (t & Hsplit & Ht).
    split; [|split].
    + eexists _, t. split; [exact Hsplit|]. split; [exact Ht|]. congruence.
    + congruence.
    + rewrite Hr3, Hr2. do 2 f_equal. congruence.
Qed.

(** [gitCheckout] returns only when the release tag and the kind of run
    agree: its last command is [git rev-parse <version>] in [gitwork/src],
    and that command found the tag exactly when the run is one that closes
    the milestone. *)
Theorem gitCheckout_release_gate (r r' : Release World) :
  gitCheckout r = Ok (tt, r') ->
  CloseMilestone r' = CloseMilestone r /\
  exists x out err evs,
    runErrIn (runDir r') ["git"; "rev-parse"; ToLower (MilestoneTitle r)] x
      = (world (base r'), (out, err)) /\
    log (base r') = log (base r) ++ evs
                      ++ [Exec ["git"; "rev-parse"; ToLower (MilestoneTitle r)]] /\
    (err = None <-> CloseMilestone r = true).
Proof.
  intros Hrun.
  destruct (gitCheckout_stages r r' Hrun) as (Hdot & x & r1 & r2 & _ & H1 & H2 & H3).
  apply updateMirror_Ok in H1 as (_ & Hc1 & _ & _ & evs1 & Hl1).
  apply cloneWork_Ok in H2 as (_ & Hc2 & _ & _ & _ & evs2 & Hl2).
  apply releaseGate_Ok in H3 as (_ & Hc3 & _ & _ & Hr3 & Hl3 & out & err & Hrev & Hgate).
  cbn [CloseMilestone base log] in Hc1, Hl1.
  assert (CloseMilestone r2 = CloseMilestone r) as Hc by congruence.
  split; [congruence|].
  exists (world (base r2)), out, err,
         ([WLog "working in %s\n"
             [AStr (Join (Getenv "HOME" (world (base r)))
                      ("go-releasebot-work/" +:+ ToLower (MilestoneTitle r)))]]
          ++ evs1 ++ evs2).
  split; [|split].
  - rewrite Hr3. exact Hrev.
  - rewrite Hl3, Hl2, Hl1, <-!app_assoc. reflexivity.
  - rewrite <-Hc. exact Hgate.
Qed.

(** [gitTagVersion] pushes the tag exactly when [git tag] made it: a run
    that returns has run [git tag <version>] in [gitwork]; when that
    failed the error is recorded for the release and nothing is pushed,
    and the function still returns; [git submit] is run only for a final
    release. *)
Theorem gitTagVersion_pushes_only_tags_made (r r' : Release World) :
  gitTagVersion r = Ok (tt, r') ->
  runDir r' = Join (Dir r) "gitwork" /\
  exists x x' out err evs,
    runErrIn (Join (Dir r) "gitwork") ["git"; "tag"; Version r] x = (x', (out, err)) /\
    log (base r') = log (base r) ++ evs /\
    (Exec ["git"; "push"; "origin"; Version r] ∈ evs <-> err = None) /\
    ((exists msg, LogError None msg ∈ evs) <-> err <> None) /\
    (Exec ["git"; "submit"; "-i"] ∈ evs <-> FinalRelease r = true).
Proof.
  intros Hrun. run_setup Hrun. all: injection Hrun as <-. all: cbn [runDir base log].
  all: split; [reflexivity|]. all: eexists _, _, _, _, _.
  all: split; [eassumption|]. all: split; [rewrite <-?app_assoc; reflexivity|].
  all: split; [split|split; split].
  all: first
    [ done
    | by (intros Hin; apply list_elem_of_In in Hin; cbn in Hin; intuition congruence)
    | by (intros _; apply list_elem_of_In; cbn; tauto)
    | by (intros (msg & Hin); apply list_elem_of_In in Hin; cbn in Hin; intuition congruence)
    | by (intros _; eexists; apply list_elem_of_In; cbn; eauto 10) ].
Qed.

End SetupProps.

(** ** gitCheckout and gitTagVersion on the demo machine *)

Example gitCheckout_demo :
  ReleaseBranch (base DemoHost.checkedOut) = "release-branch.go1.9"%string /\
  Dir DemoHost.checkedOut = "/home/gopher/go-releasebot-work/go1.9.2"%string /\
  runDir DemoHost.checkedOut = "/home/gopher/go-releasebot-work/go1.9.2/gitwork/src"%string.
Proof. vm_compute. done. Qed.

Lemma gitCheckout_release_branch_witness :
  let H := DemoHost.host false in
  let r := DemoHost.release "Go1.9.2" false in
  let undotted := DemoHost.release "Go2" false in
  (LastIndexDot (@ToLower _ H (MilestoneTitle undotted)) = -1 /\
   isPanic (@gitCheckout _ H undotted)) /\
  @gitCheckout _ H r = Ok (tt, DemoHost.checkedOut) /\
  (exists s t, @ToLower _ H (MilestoneTitle r) = s +:+ "." +:+ t /\ LastIndexDot t = -1 /\
               ReleaseBranch (base DemoHost.checkedOut) = "release-branch." +:+ s) /\
  Dir DemoHost.checkedOut
    = @Join _ H (@Getenv _ H "HOME" (world (base r)))
        ("go-releasebot-work/" +:+ @ToLower _ H (MilestoneTitle r)) /\
  runDir DemoHost.checkedOut
    = @Join _ H (@Join _ H (Dir DemoHost.checkedOut) "gitwork") "src".
Proof.
  intros H r undotted.
  assert (LastIndexDot (@ToLower _ H (MilestoneTitle undotted)) = -1) as H1
    by (vm_compute; reflexivity).
  assert (@gitCheckout _ H r = Ok (tt, DemoHost.checkedOut)) as H2
    by (vm_compute; reflexivity).
  split.
  - split; [exact H1|].
    pose proof (proj1 (@gitCheckout_release_branch _ H undotted) H1) as Hrun. exact Hrun.
  - split; [exact H2|].
    pose proof (proj2 (@gitCheckout_release_branch _ H r) DemoHost.checkedOut H2) as Hrun.
    exact Hrun.
Defined.

Lemma gitCheckout_release_gate_witness :
  let H := DemoHost.host false in
  let r := DemoHost.release "Go1.9.2" false in
  let r' := DemoHost.checkedOut in
  @gitCheckout _ H r = Ok (tt, r') /\
  CloseMilestone r' = CloseMilestone r /\
  exists x out err evs,
    @runErrIn _ H (runDir r') ["git"; "rev-parse"; @ToLower _ H (MilestoneTitle r)] x
      = (world (base r'), (out, err)) /\
    log (base r') = log (base r) ++ evs
                      ++ [Exec ["git"; "rev-parse"; @ToLower _ H (MilestoneTitle r)]] /\
    (err = None <-> CloseMilestone r = true).
Proof.
  intros H r r'.
  assert (@gitCheckout _ H r = Ok (tt, r')) as H1 by (vm_compute; reflexivity).
  split; [exact H1|].
  pose proof (@gitCheckout_release_gate _ H r r' H1) as Hrun. exact Hrun.
Defined.

Lemma gitTagVersion_pushes_only_tags_made_witness :
  let H := DemoHost.host false in
  let r := DemoHost.checkedOut in
  let r' := DemoHost.tagged false in
  @gitTagVersion _ H r = Ok (tt, r') /\
  runDir r' = @Join _ H (Dir r) "gitwork" /\
  exists x x' out err evs,
    @runErrIn _ H (@Join _ H (Dir r) "gitwork") ["git"; "tag"; Version r] x
      = (x', (out, err)) /\
    log (base r') = log (base r) ++ evs /\
    (Exec ["git"; "push"; "origin"; Version r] ∈ evs <-> err = None) /\
    ((exists msg, LogError None msg ∈ evs) <-> err <> None) /\
    (Exec ["git"; "submit"; "-i"] ∈ evs <-> FinalRelease r = true).
Proof.
  intros H r r'.
  assert (@gitTagVersion _ H r = Ok (tt, r')) as H1 by (vm_compute; reflexivity).
  split; [exact H1|].
  pose proof (@gitTagVersion_pushes_only_tags_made _ H r r' H1) as Hrun. exact Hrun.
Defined.

(** A tag that cannot be made is an error of the release, and the run
    goes on; a tag that can be made is pushed. *)
Example gitTagVersion_demo :
  drop (length (log (base DemoHost.checkedOut))) (log (base (DemoHost.tagged false)))
    = [Exec ["git"; "tag"; "go1.9.2rc1"];
       LogError None ("git tag failed: exit status 128" +:+ nl)] /\
  drop (length (log (base DemoHost.checkedOut))) (log (base (DemoHost.tagged true)))
    = [Exec ["git"; "tag"; "go1.9.2rc1"]; Exec ["git"; "push"; "origin"; "go1.9.2rc1"]].
Proof. vm_compute. done. Qed.

(** ** orderCLs: CLs that nobody requires *)

Section Pulled.
Context (cls : list CL) (clByNum : gmap Z nat).

Lemma walkPrereqs_pulled (rec : nat -> walkState -> Result walkState)
    (i : nat) (cl : CL) (prereqs : list Z) (st st' : walkState) :
  (forall j st st', rec j st = Ok st' ->
     exists suffix, order st' = order st ++ suffix /\
       forall x, x ∈ suffix -> x = j \/ pulled cls clByNum x) ->
  cls !! i = Some cl -> (forall p, p ∈ prereqs -> p ∈ Prereq cl) ->
  walkPrereqs rec clByNum cl prereqs st = Ok st' ->
  exists suffix, order st' = order st ++ suffix /\
    forall x, x ∈ suffix -> pulled cls clByNum x.
Proof.
  intros Hrec Hi. revert st.
  induction prereqs as [|p rest IH]; intros st Hsub; cbn [walkPrereqs].
  { intros [= <-]. exists []. split; [by rewrite app_nil_r|]. by intros x ?%elem_of_nil. }
  destruct (clByNum !! p) as [j|] eqn:Hp; [|done].
  destruct (rec j st) as [st1| |] eqn:Hj; [|done|done].
  intros Hrest. destruct (Hrec j st st1 Hj) as (s1 & Ho1 & Hs1).
  destruct (IH st1 ltac:(intros q Hq; apply Hsub; by right) Hrest) as (s2 & Ho2 & Hs2).
  exists (s1 ++ s2). split; [by rewrite Ho2, Ho1, app_assoc|].
  intros x [Hx|Hx]%elem_of_app; [|by apply Hs2].
  destruct (Hs1 x Hx) as [->|?]; [|done].
  exists i, cl, p. split; [done|]. split; [apply Hsub; by left|done].
Qed.

Lemma walk_pulled (fuel i : nat) (st st' : walkState) :
  walk fuel cls clByNum i st = Ok st' ->
  exists suffix, order st' = order st ++ suffix /\
    forall x, x ∈ suffix -> x = i \/ pulled cls clByNum x.
Proof.
  revert i st st'. induction fuel as [|fuel IH]; intros i st st'; [done|].
  rewrite walk_S.
  destruct (decide (i ∈ walked st)).
  { intros [= <-]. exists []. split; [by rewrite app_nil_r|]. by intros x ?%elem_of_nil. }
  destruct (decide (i ∈ walking st)); [done|].
  destruct (cls !! i) as [cl|] eqn:Hcl; [|done]. cbn zeta.
  destruct (walkPrereqs _ _ _ _ _) as [st2| |] eqn:Hpre; [|done|done].
  intros [= <-]. cbn [order].
  destruct (walkPrereqs_pulled _ i cl (Prereq cl) _ st2 IH Hcl ltac:(done) Hpre)
    as (s & Ho & Hs).
  cbn [order] in Ho. exists (s ++ [i]). split; [by rewrite Ho, app_assoc|].
  intros x [Hx| ->%list_elem_of_singleton]%elem_of_app; [right; by apply Hs|by left].
Qed.

Lemma walkAll_pulled (fuel : nat) (todo : list nat) (st st' : walkState) :
  walkAll fuel cls clByNum todo st = Ok st' ->
  exists suffix, order st' = order st ++ suffix /\
    forall x, x ∈ suffix -> x ∈ todo \/ pulled cls clByNum x.
Proof.
  revert st. induction todo as [|i rest IH]; intros st; cbn [walkAll].
  { intros [= <-]. exists []. split; [by rewrite app_nil_r|]. by intros x ?%elem_of_nil. }
  destruct (walk fuel cls clByNum i st) as [st1| |] eqn:Hi; [|done|done].
  intros Hrest. destruct (walk_pulled fuel i st st1 Hi) as (s1 & Ho1 & Hs1).
  destruct (IH st1 Hrest) as (s2 & Ho2 & Hs2).
  exists (s1 ++ s2). split; [by rewrite Ho2, Ho1, app_assoc|].
  intros x [Hx|Hx]%elem_of_app.
  - destruct (Hs1 x Hx) as [->|?]; [left; by left|by right].
  - destruct (Hs2 x Hx) as [?|?]; [left; by right|by right].
Qed.

Lemma walkAll_app (fuel : nat) (l1 l2 : list nat) (st : walkState) :
  walkAll fuel cls clByNum (l1 ++ l2) st =
    match walkAll fuel cls clByNum l1 st with
    | Ok st1 => walkAll fuel cls clByNum l2 st1
    | r => r
    end.
Proof.
  revert st. induction l1 as [|i l1 IH]; intros st; cbn [app walkAll]; [done|].
  destruct (walk fuel cls clByNum i st) as [st1| |]; [apply IH|done|done].
Qed.

End Pulled.

(** The walk behind a result of the pure core of [orderCLs]. *)
Lemma resolveOrder_Ok_inv (cls out : list CL) :
  resolveOrder cls = Ok out ->
  exists st,
    walkAll (S (length cls)) cls (mkClByNum cls) (seq 0 (length cls)) (mkWalk [] ∅ ∅) = Ok st /\
    (forall i, i ∈ order st -> (i < length cls)%nat) /\
    out = omap (fun i => cls !! i) (order st).
Proof.
  unfold resolveOrder.
  pose proof (mkClByNum_valid cls) as Hnums.
  assert (WalkInv cls (mkClByNum cls) (mkWalk [] ∅ ∅)) as Hinit.
  { split; [apply NoDup_nil_2|]. split; [cbn; set_solver|]. split; [done|].
    split; [cbn; set_solver|]. intros k i cl p Hk. cbn in Hk. by destruct k. }
  pose proof (walkAll_spec cls (mkClByNum cls) Hnums (S (length cls)) (seq 0 (length cls))
                (mkWalk [] ∅ ∅) Hinit) as Hall.
  destruct (walkAll _ cls _ _ _) as [st|format args|]; [|done|done].
  destruct Hall as ((Hnodup & Hiff & Hsub & Hlt & Hplaced) & _ & Hwalked).
  { unfold room. cbn. lia. }
  { intros i Hi%elem_of_seq. lia. }
  destruct (decide (length (order st) = length cls)) as [Hlen|]; [|done].
  intros [= <-]. exists st. split; [done|].
  assert (forall i, i ∈ order st -> (i < length cls)%nat) as Hvalid.
  { intros i Hi%Hiff%Hsub%Hlt. done. }
  split; [done|].
  assert (order st ≡ₚ seq 0 (length cls)) as Hperm.
  { apply NoDup_Permutation; [done|apply NoDup_seq|].
    intros i. split.
    - intros Hi%Hvalid. apply elem_of_seq. lia.
    - intros Hi. by apply Hiff, Hwalked. }
  assert (length (omap (fun i => cls !! i) (order st)) = length cls) as Hlen'.
  { rewrite Hperm, omap_lookup_all. done. }
  unfold copy. rewrite Hlen', drop_all, app_nil_r. rewrite <-Hlen' at 1. apply firstn_all.
Qed.

Lemma resolveOrder_unpulled (cls out : list CL) (i j : nat) (a b : CL) :
  resolveOrder cls = Ok out -> (i < j)%nat ->
  cls !! i = Some a -> cls !! j = Some b ->
  ~ pulled cls (mkClByNum cls) j ->
  exists k1 k2, (k1 < k2)%nat /\ out !! k1 = Some a /\ out !! k2 = Some b.
Proof.
  intros Hout Hij Ha Hb Hfree.
  destruct (resolveOrder_Ok_inv cls out Hout) as (st & Hrun & Hvalid & ->).
  pose proof (mkClByNum_valid cls) as Hnums.
  pose proof (lookup_lt_Some _ _ _ Hb) as Hj.
  assert (seq 0 (length cls) = seq 0 j ++ seq j (length cls - j)) as Hseq.
  { rewrite <-seq_app. f_equal. lia. }
  rewrite Hseq, walkAll_app in Hrun.
  assert (WalkInv cls (mkClByNum cls) (mkWalk [] ∅ ∅)) as Hinit.
  { split; [apply NoDup_nil_2|]. split; [cbn; set_solver|]. split; [done|].
    split; [cbn; set_solver|]. intros k i0 cl p Hk. cbn in Hk. by destruct k. }
  pose proof (walkAll_spec cls (mkClByNum cls) Hnums (S (length cls)) (seq 0 j)
                (mkWalk [] ∅ ∅) Hinit) as H1.
  destruct (walkAll _ cls _ (seq 0 j) _) as [st1| |] eqn:Hrun1; [|done|done].
  destruct H1 as (Hinv1 & _ & Hwalked1).
  { unfold room. cbn. lia. }
  { intros k Hk%elem_of_seq. lia. }
  pose proof (walkAll_spec cls (mkClByNum cls) Hnums (S (length cls)) (seq j (length cls - j))
                st1 Hinv1) as H2.
  rewrite Hrun in H2. destruct H2 as (Hinv2 & [(suffix & Horder & _) _] & Hwalked2).
  { unfold room. lia. }
  { intros k Hk%elem_of_seq. lia. }
  destruct (walkAll_pulled cls (mkClByNum cls) _ _ _ _ Hrun1) as (s1 & Ho1 & Hs1).
  cbn [order app] in Ho1.
  assert (j ∉ order st1) as Hnotyet.
  { rewrite Ho1. intros Hin. destruct (Hs1 j Hin) as [Hin'%elem_of_seq|?]; [lia|done]. }
  pose proof Hinv1 as (_ & Hiff1 & _). pose proof Hinv2 as (_ & Hiff2 & _).
  assert (i ∈ order st1) as [k1 Hk1]%list_elem_of_lookup.
  { apply Hiff1, Hwalked1, elem_of_seq. lia. }
  assert (j ∈ suffix) as [k Hk]%list_elem_of_lookup.
  { assert (j ∈ order st) as Hin.
    { apply Hiff2, Hwalked2, elem_of_seq. lia. }
    rewrite Horder in Hin. apply elem_of_app in Hin as [?|?]; done. }
  exists k1, (length (order st1) + k)%nat.
  pose proof (lookup_lt_Some _ _ _ Hk1).
  split; [lia|]. rewrite !omap_lookup_valid by done. rewrite Horder. split.
  - rewrite lookup_app_l by done. rewrite Hk1. done.
  - rewrite lookup_app_r by lia.
    replace (length (order st1) + k - length (order st1))%nat with k by lia.
    rewrite Hk. done.
Qed.

(** Only prerequisites are moved ahead. In the order [orderCLs] returns,
    a CL that no CL of the batch names as a prerequisite stands after
    every CL of strictly lower rank. *)
Theorem orderCLs_unrequired_after_lower_ranks `{!Externals World} (w w' : Work World)
    (a b : CL) :
  SortSliceSpec sortSlice ->
  orderCLs w = Ok (tt, w') ->
  a ∈ CLs w -> b ∈ CLs w -> Order a < Order b ->
  (forall c, c ∈ CLs w -> Num b ∉ Prereq c) ->
  exists k1 k2, (k1 < k2)%nat /\ CLs w' !! k1 = Some a /\ CLs w' !! k2 = Some b.
Proof.
  intros [Hperm Hsorted] Hrun Ha Hb Hlt Hfree.
  rewrite orderCLs_unfold in Hrun.
  destruct (resolveOrder _) as [out| |] eqn:Hout; [|done|done].
  injection Hrun as <-. cbn [CLs].
  set (cls := sortSlice lessOrder (CLs w)) in *.
  apply (proj2 (SortPermutes_elem _ _ _ Hperm)) in Ha, Hb. fold cls in Ha, Hb.
  apply list_elem_of_lookup in Ha as [i Hi]. apply list_elem_of_lookup in Hb as [j Hj].
  assert (i < j)%nat as Hij.
  { destruct (decide (i < j)%nat) as [|Hge]; [done|]. exfalso.
    destruct (decide (i = j)) as [->|Hne].
    - rewrite Hi in Hj. injection Hj as ->. lia.
    - pose proof (Hsorted (CLs w) j i b a ltac:(lia) Hj Hi) as Hle.
      unfold lessOrder in Hle. apply Z.ltb_ge in Hle. lia. }
  apply (resolveOrder_unpulled cls out i j a b Hout Hij Hi Hj).
  intros (k & c & p & Hk & Hp & Hres).
  destruct (mkClByNum_valid cls p j Hres) as (b' & Hb' & Hnum).
  rewrite Hj in Hb'. injection Hb' as <-.
  apply (Hfree c).
  - apply (proj1 (SortPermutes_elem _ _ _ Hperm)). by eapply list_elem_of_lookup_2.
  - by rewrite Hnum.
Qed.

Lemma orderCLs_unrequired_after_lower_ranks_witness :
  let E := Sim.externals (Demo.oracle 0) in
  let w := Demo.work Demo.scenario Demo.start in
  let a := mkCL 2 "" "b" 1 [3] 0 None in
  let b := mkCL 1 "" "a" 3 [] 0 None in
  SortSliceSpec (@sortSlice _ E) /\
  @orderCLs _ E w = Ok (tt, Demo.ordered) /\
  a ∈ CLs w /\ b ∈ CLs w /\ Order a < Order b /\
  (forall c, c ∈ CLs w -> Num b ∉ Prereq c) /\
  exists k1 k2, (k1 < k2)%nat /\
    CLs Demo.ordered !! k1 = Some a /\ CLs Demo.ordered !! k2 = Some b.
Proof.
  intros E w a b.
  assert (@orderCLs _ E w = Ok (tt, Demo.ordered)) as H2 by (vm_compute; reflexivity).
  assert (a ∈ CLs w) as H3 by (apply list_elem_of_In; cbn; tauto).
  assert (b ∈ CLs w) as H4 by (apply list_elem_of_In; cbn; tauto).
  assert (Order a < Order b) as H5 by (cbn; lia).
  assert (forall c, c ∈ CLs w -> Num b ∉ Prereq c) as H6.
  { intros c Hc. apply list_elem_of_In in Hc. cbn in Hc.
    destruct Hc as [<-|[<-|[<-|[]]]]; intros Hin%list_elem_of_In; cbn in Hin;
      intuition discriminate. }
  split; [exact Demo_sort_spec|]. repeat (split; [assumption|]).
  pose proof (@orderCLs_unrequired_after_lower_ranks _ E w Demo.ordered a b
                Demo_sort_spec H2 H3 H4 H5 H6) as Hrun.
  exact Hrun.
Defined.
